(** * Grid navigation agents: best-first search and exhaustive backtracking

    A shallow embedding of [astar.cpp] and [backtracking.cpp].

    Modelling conventions.
    - [int] values are [Z]; every cost stays far below [2^31], so no
      wrap-around is written.
    - A [cell_ptr] is the coordinate pair [(n, m)] of the cell it points to:
      the table owns exactly one cell per coordinate, so pointer identity and
      coordinate identity coincide.  The null pointer is [None].
    - The game table [table[n][m]] is a total map from coordinates to cells;
      indexing outside [0 .. TABLE_SIZE) is undefined in the source and is
      reported by the model as the error [OutOfRange].
    - [std::cin] after the start-up line is a list of oracle responses, one per
      move request, each a list of triples [(m, n, status)]; a read on an
      exhausted stream leaves [response_size] at 0, i.e. yields the empty
      response.  [std::cout] is the list of emitted lines.
    - Undefined behaviour and divergence are explicit results ([error]).
      Loops that the source leaves unbounded take a bound: [fuel] counts the
      turns of a main loop or the depth of the recursion, [gas] the steps of
      a walk along parent links. *)

From Stdlib Require Import ZArith List Bool Lia Ascii String Arith.
From Stdlib Require Import DecimalString Sorted.
Import ListNotations.

#[local] Open Scope Z_scope.

(* ------------------------------------------------------------------ *)
(** ** Shared vocabulary of both programs *)

Definition INF : Z := 32767.
Definition TABLE_SIZE : Z := 9.

Definition cell_ptr : Type := (Z * Z)%type.

Definition ptr_n (c : cell_ptr) : Z := fst c.
Definition ptr_m (c : cell_ptr) : Z := snd c.

Definition ptr_eqb (a b : cell_ptr) : bool :=
  (fst a =? fst b) && (snd a =? snd b).

(** One reported event, in reading order [std::cin >> m >> n >> status]. *)
Record event : Type := mk_event {
  ev_m : Z;
  ev_n : Z;
  ev_status : ascii
}.

Definition response : Type := list event.

(** Lines written to [std::cout]. *)
Inductive line : Type :=
| MoveReq (col row : Z)
| Exit (cost : Z).

Definition show_Z (z : Z) : string := NilZero.string_of_int (Z.to_int z).

Definition render (l : line) : string :=
  match l with
  | MoveReq col row => ("m " ++ show_Z col ++ " " ++ show_Z row)%string
  | Exit cost => ("e " ++ show_Z cost)%string
  end.

Inductive error : Type :=
| EmptyFrontier   (* [*open.begin()] on an empty set *)
| NullDeref       (* member access through a null [cell_ptr] *)
| PastTheEnd      (* [std::next] beyond [rend()] *)
| OutOfRange      (* vector index outside the table *)
| OutOfFuel.      (* the loop did not finish within the given bound *)

Inductive res (A : Type) : Type :=
| Ok (a : A)
| Err (e : error).
Arguments Ok {A} a.
Arguments Err {A} e.

Definition bind {A B : Type} (r : res A) (k : A -> res B) : res B :=
  match r with
  | Ok a => k a
  | Err e => Err e
  end.

Notation "x <- r ;; k" := (bind r (fun x => k))
  (at level 61, r at next level, right associativity).
Notation "' p <- r ;; k" := (bind r (fun x => let p := x in k))
  (at level 61, p pattern, r at next level, right associativity).

Definition in_borders (n m : Z) : bool :=
  (0 <=? n) && (n <? TABLE_SIZE) && (0 <=? m) && (m <? TABLE_SIZE).

Definition manhattan_distance (from_n from_m to_n to_m : Z) : Z :=
  let delta_n := Z.abs (from_n - to_n) in
  let delta_m := Z.abs (from_m - to_m) in
  delta_n + delta_m.

Definition is_dangerous (s : ascii) : bool :=
  (s =? "P")%char || (s =? "M")%char || (s =? "H")%char || (s =? "T")%char.

(** [std::unordered_set<cell_ptr>]: a duplicate-free list of coordinates. *)
Definition restricted_cells : Type := list cell_ptr.

Definition contains (s : restricted_cells) (c : cell_ptr) : bool :=
  existsb (ptr_eqb c) s.

Definition set_insert (s : restricted_cells) (c : cell_ptr) : restricted_cells :=
  if contains s c then s else c :: s.

(** Reading one response from [std::cin]. *)
Definition read_response (inp : list response) : response * list response :=
  match inp with
  | [] => ([], [])
  | r :: rest => (r, rest)
  end.

(** The coordinates of the whole table, row by row. *)
Definition all_cells : list cell_ptr :=
  flat_map (fun n => map (fun m => (Z.of_nat n, Z.of_nat m)) (seq 0 9)) (seq 0 9).

(* ------------------------------------------------------------------ *)
(** ** astar.cpp *)

Module AStar.

Record cell : Type := mk_cell {
  from_player_cost : Z;
  to_target_cost : Z;
  cell_status : ascii;
  parent : option cell_ptr;
  possibly_picked_by : list ascii
}.

Definition game_table : Type := cell_ptr -> cell.

(** [std::set<cell_ptr>] under [std::less<cell_ptr>]: the list of its members
    in iteration order. *)
Definition cell_priority_queue : Type := list cell_ptr.

Definition new_cell (g h : Z) (s : ascii) : cell := mk_cell g h s None [].

Definition sum_cost (c : cell) : Z := from_player_cost c + to_target_cost c.

Definition neighbour (a b : cell_ptr) : bool :=
  Z.abs (ptr_n a - ptr_n b) + Z.abs (ptr_m a - ptr_m b) <? 2.

Definition dangerous_status (c : cell) : bool := is_dangerous (cell_status c).

Definition update (t : game_table) (p : cell_ptr) (c : cell) : game_table :=
  fun q => if ptr_eqb q p then c else t q.

(** [cell::path]: the cells from [c] up to the one without a parent. *)
Fixpoint path (fuel : nat) (t : game_table) (c : option cell_ptr)
  : res (list cell_ptr) :=
  match c with
  | None => Ok []
  | Some p =>
      match fuel with
      | O => Err OutOfFuel
      | S fuel' =>
          rest <- path fuel' t (parent (t p)) ;;
          Ok (p :: rest)
      end
  end.

(** [std::less<cell_ptr>]. *)
Definition cell_less (t : game_table) (first second : cell_ptr) : bool :=
  let a := t first in
  let b := t second in
  if negb (sum_cost a =? sum_cost b) then sum_cost a <? sum_cost b
  else if negb (to_target_cost a =? to_target_cost b)
       then to_target_cost a <? to_target_cost b
  else if negb (from_player_cost a =? from_player_cost b)
       then from_player_cost a <? from_player_cost b
  else if negb (ptr_n first =? ptr_n second) then ptr_n first <? ptr_n second
  else ptr_m first <? ptr_m second.

Definition cell_equiv (t : game_table) (a b : cell_ptr) : bool :=
  negb (cell_less t a b) && negb (cell_less t b a).

Fixpoint open_insert (t : game_table) (c : cell_ptr) (o : cell_priority_queue)
  : cell_priority_queue :=
  match o with
  | [] => [c]
  | x :: rest =>
      if cell_less t c x then c :: o
      else if cell_less t x c then x :: open_insert t c rest
      else o
  end.

Definition open_erase (t : game_table) (c : cell_ptr) (o : cell_priority_queue)
  : cell_priority_queue :=
  filter (fun x => negb (cell_equiv t c x)) o.

(** [cell_path_as_set]; the argument is dereferenced, so it must not be null. *)
Definition cell_path_as_set (fuel : nat) (t : game_table) (c : option cell_ptr)
  : res (list cell_ptr) :=
  match c with
  | None => Err NullDeref
  | Some p =>
      rest <- path fuel t (parent (t p)) ;;
      Ok (p :: rest)
  end.

Definition init_game_table (inf_stone_n inf_stone_m : Z) : game_table :=
  let blank : game_table := fun _ => new_cell INF INF zero in
  let with_start :=
    update blank (0, 0)
      (new_cell 0 (manhattan_distance 0 0 inf_stone_n inf_stone_m) "A") in
  update with_start (inf_stone_n, inf_stone_m) (new_cell INF 0 "I").

(** Everything the engine reads or writes. *)
Record state : Type := mk_state {
  table : game_table;
  open : cell_priority_queue;
  closed : restricted_cells;
  cur_pos : cell_ptr;
  has_shield : bool;
  input : list response;
  output : list line
}.

Definition emit (st : state) (l : line) : state :=
  mk_state (table st) (open st) (closed st) (cur_pos st) (has_shield st)
           (input st) (output st ++ [l]).

Definition set_shield (st : state) (b : bool) : state :=
  mk_state (table st) (open st) (closed st) (cur_pos st) b
           (input st) (output st).

(** [stupid_move]: request the move, then read the response and drop it. *)
Definition stupid_move (st : state) (c : cell_ptr) : state :=
  let st1 := emit st (MoveReq (ptr_m c) (ptr_n c)) in
  mk_state (table st1) (open st1) (closed st1) c (has_shield st1)
           (snd (read_response (input st1))) (output st1).

Fixpoint return_to_start (fuel : nat) (st : state) : res state :=
  match parent (table st (cur_pos st)) with
  | None => Ok st
  | Some p =>
      match fuel with
      | O => Err OutOfFuel
      | S fuel' => return_to_start fuel' (stupid_move st p)
      end
  end.

Definition least_common_ancestor (fuel : nat) (t : game_table)
    (first second : cell_ptr) : res (option cell_ptr) :=
  first_path <- path fuel t (Some first) ;;
  second_path <- cell_path_as_set fuel t (Some second) ;;
  Ok (find (contains second_path) (rev first_path)).

Fixpoint return_to_lca_loop (fuel : nat) (lca : option cell_ptr) (st : state)
  : res state :=
  let at_lca := match lca with
                | Some l => ptr_eqb (cur_pos st) l
                | None => false
                end in
  if at_lca then Ok st
  else
    match fuel with
    | O => Err OutOfFuel
    | S fuel' =>
        match parent (table st (cur_pos st)) with
        | None => Err NullDeref
        | Some p => return_to_lca_loop fuel' lca (stupid_move st p)
        end
    end.

Definition return_to_lca (fuel : nat) (st : state) (target : cell_ptr)
  : res state :=
  lca <- least_common_ancestor fuel (table st) (cur_pos st) target ;;
  return_to_lca_loop fuel lca st.

Definition walk_step (st : state) (c : cell_ptr) : state :=
  let st1 := stupid_move st c in
  if (cell_status (table st1 c) =? "S")%char then set_shield st1 true else st1.

Definition stupid_move_to_known_target (fuel : nat) (st : state)
    (target : option cell_ptr) : res state :=
  p <- path fuel (table st) target ;;
  match rev p with
  | [] => Err PastTheEnd
  | _ :: forward => Ok (fold_left walk_step forward st)
  end.

Definition update_then_check_cell (cur : cell_ptr) (inf_stone_n inf_stone_m : Z)
    (tq : game_table * cell_priority_queue) (cn cm : Z)
  : game_table * cell_priority_queue :=
  let '(t, o) := tq in
  if in_borders cn cm && negb (dangerous_status (t (cn, cm))) then
    let new_from_player_cost := from_player_cost (t cur) + 1 in
    let new_to_target_cost := manhattan_distance cn cm inf_stone_n inf_stone_m in
    if new_from_player_cost <? from_player_cost (t (cn, cm)) then
      let o1 := open_erase t (cn, cm) o in
      let old := t (cn, cm) in
      let t1 := update t (cn, cm)
                  (mk_cell new_from_player_cost new_to_target_cost
                           (cell_status old) (Some cur) (possibly_picked_by old)) in
      (t1, open_insert t1 (cn, cm) o1)
    else tq
  else tq.

Definition open_neighbours (cur : cell_ptr) (inf_stone_n inf_stone_m : Z)
    (tq : game_table * cell_priority_queue) : game_table * cell_priority_queue :=
  let n := ptr_n cur in
  let m := ptr_m cur in
  let step := update_then_check_cell cur inf_stone_n inf_stone_m in
  let tq1 := step tq (n - 1) m in
  let tq2 := step tq1 (n + 1) m in
  let tq3 := step tq2 n (m - 1) in
  step tq3 n (m + 1).

Definition set_status (c : cell) (s : ascii) : cell :=
  mk_cell (from_player_cost c) (to_target_cost c) s (parent c)
          (possibly_picked_by c).

Definition set_picked (c : cell) (l : list ascii) : cell :=
  mk_cell (from_player_cost c) (to_target_cost c) (cell_status c) (parent c) l.

(** One turn of the response loop of [move_then_update]. *)
Definition apply_event (thanos_mode : Z) (tc : game_table * restricted_cells)
    (e : event) : res (game_table * restricted_cells) :=
  let '(t, cl) := tc in
  let n := ev_n e in
  let m := ev_m e in
  if in_borders n m then
    let t1 := update t (n, m) (set_status (t (n, m)) (ev_status e)) in
    let cl1 := if dangerous_status (t1 (n, m)) then set_insert cl (n, m) else cl in
    let t2 :=
      if dangerous_status (t1 (n, m))
         && (match possibly_picked_by (t1 (n, m)) with [] => true | _ => false end)
         && negb (thanos_mode =? 0)
      then update t1 (n, m) (set_picked (t1 (n, m)) ["H"; "M"; "T"]%char)
      else t1 in
    Ok (t2, cl1)
  else Err OutOfRange.

Fixpoint apply_events (thanos_mode : Z) (tc : game_table * restricted_cells)
    (evs : response) : res (game_table * restricted_cells) :=
  match evs with
  | [] => Ok tc
  | e :: rest =>
      tc1 <- apply_event thanos_mode tc e ;;
      apply_events thanos_mode tc1 rest
  end.

Definition move_then_update (st : state) (new_pos : cell_ptr)
    (inf_stone_n inf_stone_m : Z) (thanos_mode : Z) : res (bool * state) :=
  let st1 := emit st (MoveReq (ptr_m new_pos) (ptr_n new_pos)) in
  if (cell_status (table st1 new_pos) =? "I")%char then Ok (true, st1)
  else
    let cl := set_insert (closed st1) new_pos in
    let sh := if (cell_status (table st1 new_pos) =? "S")%char
              then true else has_shield st1 in
    let '(evs, rest) := read_response (input st1) in
    '(t1, cl1) <- apply_events thanos_mode (table st1, cl) evs ;;
    let '(t2, o2) := open_neighbours new_pos inf_stone_n inf_stone_m
                       (t1, open st1) in
    Ok (false, mk_state t2 o2 cl1 new_pos sh rest (output st1)).

(** The inner [for (;;)] of [launch_a_star]: take [*open.begin()] and erase
    it until the taken cell is not in [closed]. *)
Fixpoint extract_best (o : cell_priority_queue) (cl : restricted_cells)
  : res (cell_ptr * cell_priority_queue) :=
  match o with
  | [] => Err EmptyFrontier
  | best :: rest =>
      if contains cl best then extract_best rest cl else Ok (best, rest)
  end.

(** The [if (!cur_pos->neighbour(best))] block. *)
Definition reconcile (gas : nat) (st : state) (best : cell_ptr) : res state :=
  if negb (neighbour (cur_pos st) best) then
    st1 <- return_to_start gas st ;;
    let st2 := set_shield st1 false in
    stupid_move_to_known_target gas st2 (parent (table st2 best))
  else Ok st.

Definition with_open (st : state) (o : cell_priority_queue) : state :=
  mk_state (table st) o (closed st) (cur_pos st) (has_shield st)
           (input st) (output st).

(** One turn of the [while (!open.empty())] loop; the frontier is not empty. *)
Definition a_star_iteration (gas : nat) (st : state)
    (inf_stone_n inf_stone_m thanos_mode : Z) : res (bool * state) :=
  '(best, o1) <- extract_best (open st) (closed st) ;;
  st2 <- reconcile gas (with_open st o1) best ;;
  move_then_update st2 best inf_stone_n inf_stone_m thanos_mode.

Fixpoint a_star_loop (gas fuel : nat) (st : state)
    (inf_stone_n inf_stone_m thanos_mode : Z) : res (bool * state) :=
  match open st with
  | [] => Ok (false, st)
  | _ :: _ =>
      match fuel with
      | O => Err OutOfFuel
      | S fuel' =>
          '(is_stone_found, st1) <-
             a_star_iteration gas st inf_stone_n inf_stone_m thanos_mode ;;
          if is_stone_found then Ok (true, st1)
          else a_star_loop gas fuel' st1 inf_stone_n inf_stone_m thanos_mode
      end
  end.

Definition launch_a_star (gas fuel : nat) (st : state)
    (inf_stone_n inf_stone_m thanos_mode : Z) : res (bool * state) :=
  a_star_loop gas fuel
    (mk_state (table st) (open st) (closed st) (0, 0) (has_shield st)
              (input st) (output st))
    inf_stone_n inf_stone_m thanos_mode.

Definition init_state (inf_stone_n inf_stone_m : Z) (inp : list response) : state :=
  let t := init_game_table inf_stone_n inf_stone_m in
  mk_state t (open_insert t (0, 0) []) [] (0, 0) false inp [].

(** [main], after the start-up line [thanos_perception_variant],
    [inf_stone_m], [inf_stone_n] has been read. *)
Definition main (gas fuel : nat) (thanos_perception_variant : Z)
    (inf_stone_m inf_stone_n : Z) (inp : list response) : res (list line) :=
  if in_borders inf_stone_n inf_stone_m then
    '(found, st) <- launch_a_star gas fuel (init_state inf_stone_n inf_stone_m inp)
                      inf_stone_n inf_stone_m thanos_perception_variant ;;
    if found
    then Ok (output st ++
             [Exit (from_player_cost (table st (inf_stone_n, inf_stone_m)))])
    else Ok (output st ++ [Exit (-1)])
  else Err OutOfRange.

End AStar.

(* ------------------------------------------------------------------ *)
(** ** backtracking.cpp *)

Module Backtracking.

Record cell : Type := mk_cell {
  from_player_cost : Z;
  cell_status : ascii;
  possibly_picked_by : list ascii
}.

Definition game_table : Type := cell_ptr -> cell.

Definition new_cell (s : ascii) (g : Z) : cell := mk_cell g s [].

Definition dangerous_status (c : cell) : bool := is_dangerous (cell_status c).

Definition update (t : game_table) (p : cell_ptr) (c : cell) : game_table :=
  fun q => if ptr_eqb q p then c else t q.

Definition set_status (c : cell) (s : ascii) : cell :=
  mk_cell (from_player_cost c) s (possibly_picked_by c).

Definition set_cost (c : cell) (g : Z) : cell :=
  mk_cell g (cell_status c) (possibly_picked_by c).

Definition init_game_table (inf_stone_n inf_stone_m : Z) : game_table :=
  let blank : game_table := fun _ => new_cell zero INF in
  let with_start := update blank (0, 0) (new_cell "A" 0) in
  update with_start (inf_stone_n, inf_stone_m) (new_cell "I" INF).

Record state : Type := mk_state {
  table : game_table;
  visited : restricted_cells;
  has_shield : bool;
  input : list response;
  output : list line
}.

(** [stupid_move]: request the move, then read the response and drop it. *)
Definition stupid_move (st : state) (pos : cell_ptr) : state :=
  mk_state (table st) (visited st) (has_shield st)
           (snd (read_response (input st)))
           (output st ++ [MoveReq (ptr_m pos) (ptr_n pos)]).

Definition apply_event (t : game_table) (e : event) : res game_table :=
  let n := ev_n e in
  let m := ev_m e in
  if in_borders n m
  then Ok (update t (n, m) (set_status (t (n, m)) (ev_status e)))
  else Err OutOfRange.

Fixpoint apply_events (t : game_table) (evs : response) : res game_table :=
  match evs with
  | [] => Ok t
  | e :: rest => t1 <- apply_event t e ;; apply_events t1 rest
  end.

(** The perception flag is a parameter of the source function; the only
    statement that read it is commented out there. *)
Definition move_then_update (st : state) (pos : cell_ptr) (thanos_mode : Z)
  : res (bool * state) :=
  let out := output st ++ [MoveReq (ptr_m pos) (ptr_n pos)] in
  let vis := set_insert (visited st) pos in
  let sh := if (cell_status (table st pos) =? "S")%char
            then true else has_shield st in
  let '(evs, rest) := read_response (input st) in
  t1 <- apply_events (table st) evs ;;
  Ok ((cell_status (t1 pos) =? "I")%char, mk_state t1 vis sh rest out).

Definition next_positions (cur : cell_ptr) : list cell_ptr :=
  [ (ptr_n cur - 1, ptr_m cur);
    (ptr_n cur, ptr_m cur - 1);
    (ptr_n cur, ptr_m cur + 1);
    (ptr_n cur + 1, ptr_m cur) ].

(** The two filters of [valid_neighbours]; the view is lazy, so the test
    runs on the state reached when the iteration arrives at the element. *)
Definition valid_neighbour (t : game_table) (vis : restricted_cells)
    (c : cell_ptr) : bool :=
  in_borders (ptr_n c) (ptr_m c)
  && (negb (dangerous_status (t c)) && negb (contains vis c)).

(** The body of the [for_each] over [valid_neighbours]: descend into the
    neighbour if it passes the filters now, then step back to [cur_pos]. *)
Definition explore_child (dfs : cell_ptr -> state -> res (bool * state))
    (cur_pos : cell_ptr) (acc : res (bool * state)) (c : cell_ptr)
  : res (bool * state) :=
  '(has_solution_in_child, s) <- acc ;;
  if valid_neighbour (table s) (visited s) c then
    '(r, s1) <- dfs c s ;;
    let s2 := stupid_move s1 cur_pos in
    Ok (if negb has_solution_in_child then r else has_solution_in_child, s2)
  else Ok (has_solution_in_child, s).

Fixpoint backtracking_dfs (fuel : nat) (cur_pos : cell_ptr) (st : state)
    (thanos_mode : Z) : res (bool * state) :=
  match fuel with
  | O => Err OutOfFuel
  | S fuel' =>
      '(has_solution, st1) <- move_then_update st cur_pos thanos_mode ;;
      '(has_solution_in_child, st2) <-
         fold_left
           (explore_child (fun c s => backtracking_dfs fuel' c s thanos_mode)
                          cur_pos)
           (next_positions cur_pos) (Ok (false, st1)) ;;
      Ok (has_solution || has_solution_in_child, st2)
  end.

(** State of [backtracking_bfs]: the table it mutates, the queue, the
    visited set. *)
Record bfs_state : Type := mk_bfs {
  b_table : game_table;
  b_queue : list cell_ptr;
  b_visited : restricted_cells
}.

(** One element of the lazy [valid_neighbours] pipeline under [any_of]:
    filter, then assign the cost and push, then test for the stone. *)
Definition bfs_visit (cur_pos : cell_ptr) (s : bfs_state) (c : cell_ptr)
  : bfs_state * bool :=
  if valid_neighbour (b_table s) (b_visited s) c then
    let t1 := update (b_table s) c
                (set_cost (b_table s c) (from_player_cost (b_table s cur_pos) + 1)) in
    (mk_bfs t1 (b_queue s ++ [c]) (b_visited s),
     (cell_status (t1 c) =? "I")%char)
  else (s, false).

Fixpoint bfs_any_of (cur_pos : cell_ptr) (s : bfs_state) (next : list cell_ptr)
  : bfs_state * bool :=
  match next with
  | [] => (s, false)
  | c :: rest =>
      let '(s1, is_stone) := bfs_visit cur_pos s c in
      if is_stone then (s1, true) else bfs_any_of cur_pos s1 rest
  end.

(** One turn of [while (!q.empty())]; [None] when the queue is empty. *)
Definition bfs_iteration (s : bfs_state) : option (bfs_state * bool) :=
  match b_queue s with
  | [] => None
  | cur_pos :: q =>
      Some (bfs_any_of cur_pos
              (mk_bfs (b_table s) q (set_insert (b_visited s) cur_pos))
              (next_positions cur_pos))
  end.

Fixpoint bfs_loop (fuel : nat) (s : bfs_state) : res game_table :=
  match bfs_iteration s with
  | None => Ok (b_table s)
  | Some (s1, is_stone_found) =>
      if is_stone_found then Ok (b_table s1)
      else
        match fuel with
        | O => Err OutOfFuel
        | S fuel' => bfs_loop fuel' s1
        end
  end.

Definition bfs_init (t : game_table) : bfs_state := mk_bfs t [(0, 0)] [].

Definition backtracking_bfs (fuel : nat) (t : game_table) : res game_table :=
  bfs_loop fuel (bfs_init t).

Definition launch_backtracking (gas fuel : nat) (t : game_table)
    (thanos_mode : Z) (inp : list response) : res (bool * state) :=
  '(has_solution, st) <-
     backtracking_dfs gas (0, 0) (mk_state t [] false inp []) thanos_mode ;;
  if negb has_solution then Ok (false, st)
  else
    t1 <- backtracking_bfs fuel (table st) ;;
    Ok (true, mk_state t1 (visited st) (has_shield st) (input st) (output st)).

(** [main], after the start-up line has been read. *)
Definition main (gas fuel : nat) (thanos_perception_variant : Z)
    (inf_stone_m inf_stone_n : Z) (inp : list response) : res (list line) :=
  if in_borders inf_stone_n inf_stone_m then
    '(found, st) <- launch_backtracking gas fuel
                      (init_game_table inf_stone_n inf_stone_m)
                      thanos_perception_variant inp ;;
    if found
    then Ok (output st ++
             [Exit (from_player_cost (table st (inf_stone_n, inf_stone_m)))])
    else Ok (output st ++ [Exit (-1)])
  else Err OutOfRange.

End Backtracking.

(* ------------------------------------------------------------------ *)
(** ** Auxiliary definitions shared by the statements below *)

(** The status a cell ends up with once a response has been applied in
    order: the last status reported for its coordinate, if any. *)
Definition last_status (evs : response) (p : cell_ptr) (s0 : ascii) : ascii :=
  fold_left (fun s e => if ptr_eqb p (ev_n e, ev_m e) then ev_status e else s)
            evs s0.

Definition in_range (e : event) : Prop := in_borders (ev_n e) (ev_m e) = true.

(* ------------------------------------------------------------------ *)
(** ** Auxiliary definitions for the best-first engine *)

Module AStarAux.
Import AStar.

Definition hazard (m n : Z) : event := mk_event m n "P".
Definition neutral (m n : Z) : event := mk_event m n ".".

(** State after [k] turns of the main loop (the state is returned unchanged
    once a turn fails or finds the stone). *)
Fixpoint after_turns (k : nat) (st : state) (tn tm : Z) : state :=
  match k with
  | O => st
  | S k' =>
      match a_star_iteration 100 st tn tm 0 with
      | Ok (false, st1) => after_turns k' st1 tn tm
      | _ => st
      end
  end.

(** The glossary's wording of the least common ancestor: the deepest cell
    shared by the two parent chains, i.e. the first cell of [first]'s chain,
    going from [first] toward the root, that also lies on [second]'s chain. *)
Definition spec_deepest_common_ancestor (fuel : nat) (t : game_table)
    (first second : cell_ptr) : res (option cell_ptr) :=
  first_path <- path fuel t (Some first) ;;
  second_path <- cell_path_as_set fuel t (Some second) ;;
  Ok (find (contains second_path) first_path).

(** An oracle that lets the agent reach (0,1) and there reports hazards on
    every other way out of the corner, among them the frontier cell (1,0). *)
Definition walled_corner : list response :=
  [ []; [hazard 0 1; hazard 1 1; hazard 2 0] ].

Definition walled_state : state :=
  after_turns 2 (init_state 8 8 walled_corner) 8 8.

(** The table after the first expansion of a run toward (3,3). *)
Definition first_expansion : game_table :=
  table (after_turns 1 (init_state 3 3 []) 3 3).

(** An oracle that lets the agent walk (0,0), (0,1), (0,2) toward the stone
    at (0,4) and there reports hazards ahead and below. *)
Definition blocked_corridor : list response :=
  [ []; []; [hazard 3 0; hazard 2 1] ].

Definition detour_state : state :=
  after_turns 3 (init_state 0 4 blocked_corridor) 0 4.

(** The move request for a cell. *)
Definition request (c : cell_ptr) : line := MoveReq (ptr_m c) (ptr_n c).

Definition is_shield (t : game_table) (c : cell_ptr) : bool :=
  (cell_status (t c) =? "S")%char.

(** The run of [blocked_corridor], where the response to the first backward
    step reports a hazard on (1,1), the cell the agent is heading for. *)
Definition late_report : list response :=
  blocked_corridor ++ [ [hazard 1 1] ].

Definition late_report_state : state :=
  after_turns 3 (init_state 0 4 late_report) 0 4.

(** A run toward (0,1): the second move is the one onto the stone, and a
    response to it is pending. *)
Definition pending_at_stone : list response := [ []; [hazard 5 5] ].

Definition before_stone_state : state :=
  after_turns 1 (init_state 0 1 pending_at_stone) 0 1.

(** A closed cell on which the agent has never stood: it is not the current
    position and no parent link leads to it. *)
Definition never_reached (c : cell_ptr) (st : state) : Prop :=
  In c (closed st) /\ cur_pos st <> c
  /\ forall p, parent (table st p) <> Some c.

(** [st'] continues [st] without any move request for [c]. *)
Definition avoids (c : cell_ptr) (st st' : state) : Prop :=
  exists moves, output st' = output st ++ moves /\ ~ In (request c) moves.

(** An oracle that reports a hazard on (0,1) in its first response and
    withdraws it in the second. *)
Definition reopened : list response := [ [hazard 1 0]; [neutral 1 0] ].

Definition reopened_state (k : nat) : state :=
  after_turns k (init_state 0 4 reopened) 0 4.

(** **** Two runs compared

    [CR p a b] relates the cell at [p] in the first run with the cell at [p]
    in the second; [IR] relates the pending inputs. *)
Definition res_rel {A : Type} (R : A -> A -> Prop) (r1 r2 : res A) : Prop :=
  match r1, r2 with
  | Ok a, Ok b => R a b
  | Err e1, Err e2 => e1 = e2
  | _, _ => False
  end.

(** What the engine's decisions read from a cell: the costs, the parent,
    whether the status is hazardous and whether it is the stone marker. *)
Definition same_view (a b : cell) : Prop :=
  from_player_cost a = from_player_cost b
  /\ to_target_cost a = to_target_cost b
  /\ parent a = parent b
  /\ dangerous_status a = dangerous_status b
  /\ (cell_status a =? "I")%char = (cell_status b =? "I")%char.

Definition table_rel (CR : cell_ptr -> cell -> cell -> Prop)
    (t1 t2 : game_table) : Prop :=
  forall p, CR p (t1 p) (t2 p).

Definition state_rel (CR : cell_ptr -> cell -> cell -> Prop)
    (IR : list response -> list response -> Prop) (s1 s2 : state) : Prop :=
  table_rel CR (table s1) (table s2)
  /\ open s1 = open s2 /\ closed s1 = closed s2
  /\ cur_pos s1 = cur_pos s2 /\ output s1 = output s2
  /\ IR (input s1) (input s2).

(** Applying the two responses to related tables gives related tables and
    the same closed set, or the same error. *)
Definition events_rel (CR : cell_ptr -> cell -> cell -> Prop)
    (mode1 mode2 : Z) (evs1 evs2 : response) : Prop :=
  forall t1 t2 cl, table_rel CR t1 t2 ->
  res_rel (fun tc1 tc2 => table_rel CR (fst tc1) (fst tc2)
                          /\ snd tc1 = snd tc2)
          (apply_events mode1 (t1, cl) evs1)
          (apply_events mode2 (t2, cl) evs2).

(** The comparison used for the perception flag: everything but the
    attribution set agrees. *)
Definition same_but_attribution (p : cell_ptr) (a b : cell) : Prop :=
  from_player_cost a = from_player_cost b
  /\ to_target_cost a = to_target_cost b
  /\ cell_status a = cell_status b
  /\ parent a = parent b.

(** The comparison used for hazard-free oracles with the stone at [target]:
    costs and parents agree, no cell is hazardous, and the stone marker sits
    on [target] and nowhere else. *)
Definition hazard_free_view (target p : cell_ptr) (a b : cell) : Prop :=
  from_player_cost a = from_player_cost b
  /\ to_target_cost a = to_target_cost b
  /\ parent a = parent b
  /\ dangerous_status a = false /\ dangerous_status b = false
  /\ (cell_status a =? "I")%char = ptr_eqb p target
  /\ (cell_status b =? "I")%char = ptr_eqb p target.

(** A report of a hazard-free oracle: inside the table, not a hazard, and
    the stone marker exactly when the report is about [target]. *)
Definition harmless (target : cell_ptr) (e : event) : Prop :=
  in_range e
  /\ is_dangerous (ev_status e) = false
  /\ (ev_status e =? "I")%char = ptr_eqb (ev_n e, ev_m e) target.

Definition hazard_free (target : cell_ptr) (inp : list response) : Prop :=
  Forall (Forall (harmless target)) inp.

Definition hazard_free_inputs (target : cell_ptr) (i1 i2 : list response)
  : Prop :=
  hazard_free target i1 /\ hazard_free target i2.

(** The targets of the data model: table cells other than the start. *)
Definition targets : list cell_ptr :=
  filter (fun c => negb (ptr_eqb c (0, 0))) all_cells.

Definition is_request (l : line) : Prop := exists col row, l = MoveReq col row.

(** A hazard-free oracle for a run toward (3,3): it reports a shield on
    (0,1) after the first move and nothing afterwards. *)
Definition shield_only : list response := [ [mk_event 1 0 "S"] ].

Definition ends_with_exit (cost : Z) (r : res (list line)) : bool :=
  match r with
  | Ok l =>
      match rev l with
      | Exit c :: before =>
          (c =? cost)
          && forallb (fun x => match x with MoveReq _ _ => true
                                       | Exit _ => false end) before
      | _ => false
      end
  | Err _ => false
  end.

End AStarAux.

(* ------------------------------------------------------------------ *)
(** ** Auxiliary definitions for the exhaustive engine *)

Module BacktrackingAux.
Import Backtracking.

(** The exhaustive program about to make its first move toward (0,4), with
    one pending response that reports a hazard on (1,1). *)
Definition pending_report_state : state :=
  mk_state (init_game_table 0 4) [] false [ [AStarAux.hazard 1 1] ] [].

Definition well_formed (inp : list response) : Prop :=
  Forall (Forall in_range) inp.

(** How an exploration changes the state: the visited set has grown, holds
    table cells only, without repetition; the remaining input is a suffix of
    the input; and the output has grown by two requests per newly visited
    cell (the way in and the way back), less [d]. *)
Definition grown (d : nat) (st st' : state) : Prop :=
  incl (visited st) (visited st')
  /\ incl (visited st') all_cells
  /\ NoDup (visited st')
  /\ (exists k, input st' = skipn k (input st))
  /\ (List.length (output st') + 2 * List.length (visited st) + d
      = List.length (output st) + 2 * List.length (visited st'))%nat.

(** What one call of [backtracking_dfs] leaves behind; the missing request
    is the way back of this call, which its caller emits. *)
Definition explored (st st' : state) : Prop := grown 1 st st'.

(** The possible results of the exploration: a result as above, or the
    out-of-range index of an ill-formed response; never [OutOfFuel]. *)
Definition dfs_result (st : state) (cur : cell_ptr) (r : res (bool * state))
  : Prop :=
  match r with
  | Ok (_, st') => explored st st' /\ In cur (visited st')
  | Err e => e = OutOfRange /\ ~ well_formed (input st)
  end.

(** The costs [init_game_table] gives when the stone is not on the start
    cell; the exploration phase leaves them untouched. *)
Definition start_costs (t : game_table) : Prop :=
  from_player_cost (t (0, 0)) = 0
  /\ forall c, c <> (0, 0) -> from_player_cost (t c) = INF.

(** The states [backtracking_bfs] is in at the head of its loop, started on
    the table [t0]. *)
Inductive bfs_reach (t0 : game_table) : bfs_state -> Prop :=
| bfs_reach_init : bfs_reach t0 (bfs_init t0)
| bfs_reach_step (s s1 : bfs_state) :
    bfs_reach t0 s -> bfs_iteration s = Some (s1, false) -> bfs_reach t0 s1.

(** The loop invariant of [backtracking_bfs] at level [d]: the queue holds
    cells of cost [d] followed by cells of cost [d + 1]; visited cells cost
    at most [d]; at least [d] cells are visited; every assigned cost has the
    parity of its cell's coordinate sum; every cell with an assigned cost is
    visited or queued; queued and visited cells are table cells. *)
Definition bfs_inv (d : Z) (s : bfs_state) : Prop :=
  (exists q1 q2,
     b_queue s = q1 ++ q2
     /\ (forall c, In c q1 -> from_player_cost (b_table s c) = d)
     /\ (forall c, In c q2 -> from_player_cost (b_table s c) = d + 1))
  /\ (forall v, In v (b_visited s) -> from_player_cost (b_table s v) <= d)
  /\ 0 <= d <= Z.of_nat (List.length (b_visited s))
  /\ (forall c, from_player_cost (b_table s c) <> INF ->
                Z.even (from_player_cost (b_table s c))
                = Z.even (ptr_n c + ptr_m c))
  /\ (forall c, from_player_cost (b_table s c) <> INF ->
                ~ In c (b_visited s) -> In c (b_queue s))
  /\ (forall c, In c (b_queue s) -> in_borders (ptr_n c) (ptr_m c) = true)
  /\ incl (b_visited s) all_cells
  /\ NoDup (b_visited s).

End BacktrackingAux.

(* ------------------------------------------------------------------ *)
(** ** Further definitions used by the statements about the whole code *)

(** Two reports that differ at most in a way the programs never look at:
    they are about the same cell, and their statuses agree on being a hazard
    and on being the stone marker. *)
Definition alike (e1 e2 : event) : Prop :=
  ev_m e1 = ev_m e2 /\ ev_n e1 = ev_n e2
  /\ is_dangerous (ev_status e1) = is_dangerous (ev_status e2)
  /\ (ev_status e1 =? "I")%char = (ev_status e2 =? "I")%char.

Definition alike_inputs (i1 i2 : list response) : Prop :=
  Forall2 (Forall2 alike) i1 i2.

Module AStarMore.
Import AStar AStarAux.

(** The frontier as [std::set] keeps it: ascending under the comparator. *)
Definition sorted_open (t : game_table) (o : cell_priority_queue) : Prop :=
  StronglySorted (fun a b => cell_less t a b = true) o.

(** A list of cells linked by parent pointers down to a parentless cell. *)
Fixpoint linked (t : game_table) (l : list cell_ptr) : Prop :=
  match l with
  | [] => True
  | a :: rest =>
      match rest with
      | [] => parent (t a) = None
      | b :: _ => parent (t a) = Some b /\ linked t rest
      end
  end.

(** A cell the search has a way to: the start cell, or a cell with a
    parent. *)
Definition rooted (t : game_table) (p : cell_ptr) : Prop :=
  p = (0, 0) \/ parent (t p) <> None.

Definition in_table (p : cell_ptr) : Prop :=
  in_borders (ptr_n p) (ptr_m p) = true.

(** A sequence of positions inside the table in which each position is the
    same as, or next to, the one before it. *)
Fixpoint stepwise (l : list cell_ptr) : Prop :=
  match l with
  | [] => True
  | a :: rest =>
      in_table a
      /\ match rest with
         | [] => True
         | b :: _ => neighbour a b = true
         end
      /\ stepwise rest
  end.

(** Moves from [from] through [cells], one neighbour at a time. *)
Fixpoint hops (from : cell_ptr) (cells : list cell_ptr) : Prop :=
  match cells with
  | [] => True
  | c :: rest => neighbour from c = true /\ in_table c /\ hops c rest
  end.

(** What the search keeps true of the table and the frontier; [n] bounds
    the costs of the cells that have a parent. *)
Record table_ok (t : game_table) (o : cell_priority_queue) (n : Z) : Prop :=
  mk_table_ok {
    ok_start : from_player_cost (t (0, 0)) = 0 /\ parent (t (0, 0)) = None;
    ok_link : forall p q, parent (t p) = Some q ->
                rooted t q
                /\ from_player_cost (t q) + 1 <= from_player_cost (t p)
                /\ neighbour q p = true
                /\ in_table q /\ in_table p;
    ok_bound : forall p, parent (t p) <> None -> from_player_cost (t p) <= n;
    ok_lower : forall p, rooted t p ->
                 manhattan_distance 0 0 (ptr_n p) (ptr_m p)
                 <= from_player_cost (t p);
    ok_fresh : forall p, ~ rooted t p -> from_player_cost (t p) = INF;
    ok_open : forall c, In c o -> in_table c /\ rooted t c
  }.

(** What the search keeps true of its whole state, from the initial state
    on, under a well-formed oracle. *)
Record sound (st : state) : Prop := mk_sound {
  s_table : table_ok (table st) (open st)
              (Z.of_nat (List.length (closed st)));
  s_first : In (0, 0) (closed st)
            \/ (cur_pos st = (0, 0) /\ forall c, In c (open st) -> c = (0, 0));
  s_closed : incl (closed st) all_cells /\ NoDup (closed st);
  s_pos : rooted (table st) (cur_pos st) /\ in_table (cur_pos st);
  s_input : BacktrackingAux.well_formed (input st);
  s_trail : exists cells,
              output st = map request cells
              /\ stepwise ((0, 0) :: cells)
              /\ last cells (0, 0) = cur_pos st
}.

(** The requests emitted so far walk from the start cell, one neighbour at
    a time, inside the table. *)
Definition walked (out : list line) : Prop :=
  exists cells, out = map request cells /\ stepwise ((0, 0) :: cells).

(** The states in which the search may stop: the requests form a walk and
    the table is as the search keeps it. *)
Definition settled (st : state) : Prop :=
  walked (output st)
  /\ exists n, table_ok (table st) (open st) n /\ n <= 81.

(** The states the main loop passes through when it is started in [st]:
    [st] itself, and the state after each further turn.  The flag tells
    whether the turn that led to the state found the stone; the loop takes
    another turn only when it did not and the frontier is not empty. *)
Inductive passes (gas : nat) (tn tm mode : Z) (st : state)
  : bool -> state -> Prop :=
| passes_start : passes gas tn tm mode st false st
| passes_turn (s s1 : state) (found : bool) :
    passes gas tn tm mode st false s ->
    open s <> [] ->
    a_star_iteration gas s tn tm mode = Ok (found, s1) ->
    passes gas tn tm mode st found s1.

(** The turn started in [s] applies the report [e]: the move of the turn is
    a search move onto a cell without the stone marker, and [e] is one of
    the triples of the response to that move, the response that
    [move_then_update] reads and applies.  (The responses to the blind
    steps of the walks before it are read by [stupid_move] and dropped.) *)
Definition applied (gas : nat) (s : state) (e : event) : Prop :=
  exists best o1 s2,
    extract_best (open s) (closed s) = Ok (best, o1)
    /\ reconcile gas (with_open s o1) best = Ok s2
    /\ (cell_status (table s2 best) =? "I")%char = false
    /\ In e (fst (read_response (input s2))).

End AStarMore.

Module BacktrackingMore.
Import Backtracking BacktrackingAux.

(** The measure that bounds the turns of [backtracking_bfs]: a queued cell
    of cost [g] weighs [5 ^ (82 - g)], so that the cell taken from the queue
    outweighs the four cells it can push. *)
Definition queue_weight (t : game_table) (q : list cell_ptr) : Z :=
  fold_right (fun c acc => 5 ^ (82 - from_player_cost (t c)) + acc) 0 q.

(** No assigned cost is below the Manhattan distance from the start cell. *)
Definition admissible (t : game_table) : Prop :=
  forall c, from_player_cost (t c) <> INF ->
            manhattan_distance 0 0 (ptr_n c) (ptr_m c)
            <= from_player_cost (t c).

(** Moves from [from] through [cells], each onto one of the four
    neighbours of the cell before it, inside the table. *)
Fixpoint strides (from : cell_ptr) (cells : list cell_ptr) : Prop :=
  match cells with
  | [] => True
  | c :: rest =>
      In c (next_positions from)
      /\ in_borders (ptr_n c) (ptr_m c) = true
      /\ strides c rest
  end.

(** The requests of one call of [backtracking_dfs] on [cur]: first onto
    [cur], then from each cell onto one of its four neighbours inside the
    table, and back on [cur] at the end. *)
Definition round_trip (cur : cell_ptr) (st st' : state) : Prop :=
  exists rest,
    output st' = output st ++ map AStarAux.request (cur :: rest)
    /\ strides cur rest
    /\ last rest cur = cur.

(** What the exhaustive program reads of a cell: its cost, whether its
    status is a hazard, whether it is the stone marker. *)
Definition bt_same_view (a b : cell) : Prop :=
  from_player_cost a = from_player_cost b
  /\ dangerous_status a = dangerous_status b
  /\ (cell_status a =? "I")%char = (cell_status b =? "I")%char.

Definition same_tables (t1 t2 : game_table) : Prop :=
  forall p, bt_same_view (t1 p) (t2 p).

(** Two states of the exploration that agree on everything but the shield
    flag and the unread parts of the statuses. *)
Definition same_states (s1 s2 : state) : Prop :=
  same_tables (table s1) (table s2)
  /\ visited s1 = visited s2
  /\ output s1 = output s2
  /\ alike_inputs (input s1) (input s2).

Definition same_bfs_states (s1 s2 : bfs_state) : Prop :=
  same_tables (b_table s1) (b_table s2)
  /\ b_queue s1 = b_queue s2
  /\ b_visited s1 = b_visited s2.

(** A table without hazards that carries the stone marker on [target]
    and nowhere else. *)
Definition calm (target : cell_ptr) (t : game_table) : Prop :=
  forall c, dangerous_status (t c) = false
            /\ (cell_status (t c) =? "I")%char = ptr_eqb c target.

(** Every cell visited since [old] has all its table neighbours visited. *)
Definition saturated (old new : restricted_cells) : Prop :=
  forall v, In v new -> ~ In v old ->
  forall c, In c (next_positions v) ->
            in_borders (ptr_n c) (ptr_m c) = true -> In c new.

(** What a call of [backtracking_dfs] on [cur] leaves behind under a
    hazard-free oracle: it has swept the whole region it could reach, and
    it reports the stone exactly when it has newly visited the target. *)
Definition swept (target cur : cell_ptr) (st : state) (r : bool * state)
  : Prop :=
  calm target (table (snd r))
  /\ AStarAux.hazard_free target (input (snd r))
  /\ incl (visited st) (visited (snd r))
  /\ In cur (visited (snd r))
  /\ incl (visited (snd r)) all_cells
  /\ NoDup (visited (snd r))
  /\ saturated (visited st) (visited (snd r))
  /\ (fst r = true
      <-> In target (visited (snd r)) /\ ~ In target (visited st)).

(** The state of [backtracking_bfs] on a calm table before the target is
    reached: every assigned cost is the Manhattan distance from the start
    cell, the table neighbours of visited cells have their costs, and the
    target has none. *)
Definition exact (target : cell_ptr) (s : bfs_state) : Prop :=
  calm target (b_table s)
  /\ (forall c, from_player_cost (b_table s c) <> INF ->
                from_player_cost (b_table s c)
                = manhattan_distance 0 0 (ptr_n c) (ptr_m c))
  /\ (forall v, In v (b_visited s) ->
      forall c, In c (next_positions v) ->
                in_borders (ptr_n c) (ptr_m c) = true ->
                from_player_cost (b_table s c) <> INF)
  /\ from_player_cost (b_table s target) = INF.

(** Every table cell up to distance [d] from the start has its cost. *)
Definition level_reached (d : Z) (t : game_table) : Prop :=
  forall c, in_borders (ptr_n c) (ptr_m c) = true ->
            manhattan_distance 0 0 (ptr_n c) (ptr_m c) <= d ->
            from_player_cost (t c) <> INF.

End BacktrackingMore.

(* ------------------------------------------------------------------ *)
(** ** Basic facts about pointers, sets and results *)

Lemma ptr_eqb_eq (a b : cell_ptr) : ptr_eqb a b = true <-> a = b.
Proof.
  destruct a as [an am], b as [bn bm]; unfold ptr_eqb; simpl.
  rewrite andb_true_iff, !Z.eqb_eq. split.
  - intros [-> ->]; reflexivity.
  - intros H; inversion H; auto.
Qed.

Lemma ptr_eqb_refl (a : cell_ptr) : ptr_eqb a a = true.
Proof. apply ptr_eqb_eq; reflexivity. Qed.

Lemma ptr_eqb_neq (a b : cell_ptr) : ptr_eqb a b = false <-> a <> b.
Proof.
  rewrite <- ptr_eqb_eq. destruct (ptr_eqb a b); split; congruence.
Qed.

Lemma ptr_eqb_sym (a b : cell_ptr) : ptr_eqb a b = ptr_eqb b a.
Proof.
  unfold ptr_eqb. now rewrite (Z.eqb_sym (fst a)), (Z.eqb_sym (snd a)).
Qed.

Lemma contains_In (s : restricted_cells) (c : cell_ptr) :
  contains s c = true <-> In c s.
Proof.
  unfold contains. rewrite existsb_exists. split.
  - intros [x [Hin Heq]]. apply ptr_eqb_eq in Heq. now subst.
  - intros Hin. exists c. split; [assumption | apply ptr_eqb_refl].
Qed.

Lemma contains_false (s : restricted_cells) (c : cell_ptr) :
  contains s c = false <-> ~ In c s.
Proof.
  rewrite <- contains_In. destruct (contains s c); split; congruence.
Qed.

Lemma set_insert_In (s : restricted_cells) (c x : cell_ptr) :
  In x (set_insert s c) <-> x = c \/ In x s.
Proof.
  unfold set_insert. destruct (contains s c) eqn:E.
  - apply contains_In in E. split; [auto | intros [-> | H]; assumption].
  - simpl. split; intros [H | H]; auto.
Qed.

Lemma set_insert_incl (s : restricted_cells) (c : cell_ptr) :
  incl s (set_insert s c).
Proof. intros x Hx. apply set_insert_In. now right. Qed.

Lemma set_insert_NoDup (s : restricted_cells) (c : cell_ptr) :
  NoDup s -> NoDup (set_insert s c).
Proof.
  intros H. unfold set_insert. destruct (contains s c) eqn:E; [assumption|].
  constructor; [now apply contains_false | assumption].
Qed.

Lemma bind_Ok {A B : Type} (r : res A) (k : A -> res B) (b : B) :
  bind r k = Ok b -> exists a, r = Ok a /\ k a = Ok b.
Proof. destruct r as [a | e]; simpl; [eauto | discriminate]. Qed.

Lemma in_borders_iff (n m : Z) :
  in_borders n m = true <-> 0 <= n < 9 /\ 0 <= m < 9.
Proof.
  unfold in_borders, TABLE_SIZE.
  rewrite !andb_true_iff, !Z.leb_le, !Z.ltb_lt. lia.
Qed.

Lemma all_cells_length : List.length all_cells = 81%nat.
Proof. reflexivity. Qed.

Lemma all_cells_In (c : cell_ptr) :
  In c all_cells <-> in_borders (ptr_n c) (ptr_m c) = true.
Proof.
  rewrite in_borders_iff. destruct c as [n m]. unfold all_cells, ptr_n, ptr_m.
  simpl fst; simpl snd. rewrite in_flat_map. split.
  - intros [i [Hi Hin]]. apply in_map_iff in Hin as [j [Heq Hj]].
    apply in_seq in Hi. apply in_seq in Hj. inversion Heq; subst. lia.
  - intros [Hn Hm]. exists (Z.to_nat n). split; [apply in_seq; lia|].
    apply in_map_iff. exists (Z.to_nat m). split; [|apply in_seq; lia].
    f_equal; lia.
Qed.


Lemma snd_read_response_tl (inp : list response) :
  snd (read_response inp) = tl inp.
Proof. destruct inp; reflexivity. Qed.

Lemma tl_skipn_S {A : Type} (k : nat) (l : list A) :
  tl (skipn k l) = skipn (S k) l.
Proof.
  revert l. induction k as [| k IH]; intros l.
  - destruct l; reflexivity.
  - destruct l as [| x l]; [reflexivity|]. exact (IH l).
Qed.

Lemma last_cons {A : Type} (x d : A) (l : list A) :
  last (x :: l) d = last l x.
Proof.
  revert x d. induction l as [| y l IH]; intros x d; [reflexivity|].
  change (last (x :: y :: l) d) with (last (y :: l) d).
  rewrite (IH y d), (IH y x). reflexivity.
Qed.

(* ------------------------------------------------------------------ *)
(** ** Facts about the best-first engine *)

Module AStarFacts.
Import AStar AStarAux.

Lemma update_same (t : game_table) (p : cell_ptr) (c : cell) :
  update t p c p = c.
Proof. unfold update. now rewrite ptr_eqb_refl. Qed.

Lemma update_other (t : game_table) (p q : cell_ptr) (c : cell) :
  q <> p -> update t p c q = t q.
Proof. intros H. unfold update. apply ptr_eqb_neq in H. now rewrite H. Qed.

(** *** least_common_ancestor *)

(** C2 (defect).  [least_common_ancestor] scans [first]'s chain starting at
    its root end and returns the first cell that lies on [second]'s chain.
    Whenever the two chains end in a common root, that first hit is the root
    itself: the function returns the shallowest common cell, not the deepest
    one. *)
Theorem least_common_ancestor_is_root (fuel : nat) (t : game_table)
    (first second root : cell_ptr) (above : list cell_ptr)
    (second_path : list cell_ptr) :
  path fuel t (Some first) = Ok (above ++ [root]) ->
  cell_path_as_set fuel t (Some second) = Ok second_path ->
  In root second_path ->
  least_common_ancestor fuel t first second = Ok (Some root).
Proof.
  intros Hfirst Hsecond Hroot. unfold least_common_ancestor.
  rewrite Hfirst, Hsecond. simpl.
  rewrite rev_app_distr. simpl.
  apply contains_In in Hroot. now rewrite Hroot.
Qed.

(** After the first expansion (0,1) has parent (0,0): the code answers (0,0)
    for the pair ((0,1), (0,1)), the deepest common cell is (0,1). *)
Lemma least_common_ancestor_is_root_witness :
  least_common_ancestor 100 first_expansion (0, 1) (0, 1) = Ok (Some (0, 0))
  /\ spec_deepest_common_ancestor 100 first_expansion (0, 1) (0, 1)
     = Ok (Some (0, 1)).
Proof.
  split.
  - apply (least_common_ancestor_is_root 100 first_expansion (0, 1) (0, 1)
             (0, 0) [(0, 1)] [(0, 1); (0, 0)]).
    + vm_compute. reflexivity.
    + vm_compute. reflexivity.
    + simpl. auto.
  - vm_compute. reflexivity.
Defined.

(** *** Extraction from the frontier *)

Lemma extract_best_all_closed (o : cell_priority_queue) (cl : restricted_cells) :
  (forall c, In c o -> contains cl c = true) ->
  extract_best o cl = Err EmptyFrontier.
Proof.
  induction o as [| b rest IH]; intros Hall; simpl; [reflexivity|].
  rewrite (Hall b (or_introl eq_refl)). apply IH.
  intros c Hc. apply Hall. now right.
Qed.

Lemma extract_best_Ok (o rest : cell_priority_queue) (cl : restricted_cells)
    (best : cell_ptr) :
  extract_best o cl = Ok (best, rest) ->
  contains cl best = false /\ In best o /\ incl rest o.
Proof.
  induction o as [| b o' IH]; simpl; [discriminate|].
  destruct (contains cl b) eqn:E.
  - intros H. destruct (IH H) as [H1 [H2 H3]].
    repeat split; auto. intros x Hx. right. now apply H3.
  - intros H. inversion H; subst. repeat split; auto.
    intros x Hx. now right.
Qed.

Lemma extract_best_Err (o : cell_priority_queue) (cl : restricted_cells)
    (e : error) :
  extract_best o cl = Err e ->
  e = EmptyFrontier /\ forall c, In c o -> contains cl c = true.
Proof.
  induction o as [| b o' IH]; simpl.
  - intros H. inversion H. split; [reflexivity | intros c []].
  - destruct (contains cl b) eqn:E; [|discriminate].
    intros H. destruct (IH H) as [-> Hall]. split; [reflexivity|].
    intros c [<- | Hc]; auto.
Qed.

(** C4 (defect).  A main-loop turn that starts with a frontier that is not
    empty but holds only closed cells erases every entry and then takes
    [*open.begin()] of the emptied set: the inner loop has no emptiness test,
    and the outer [while] condition is not re-evaluated in between. *)
Theorem stale_frontier_extracts_from_empty (gas fuel : nat) (st : state)
    (inf_stone_n inf_stone_m thanos_mode : Z) :
  open st <> [] ->
  (forall c, In c (open st) -> contains (closed st) c = true) ->
  a_star_loop gas (S fuel) st inf_stone_n inf_stone_m thanos_mode
  = Err EmptyFrontier.
Proof.
  intros Hne Hall. simpl. destruct (open st) as [| b rest] eqn:Ho.
  - congruence.
  - unfold a_star_iteration. rewrite Ho.
    rewrite (extract_best_all_closed (b :: rest) (closed st) Hall).
    reflexivity.
Qed.

(** The state is reached after two moves of a run toward (8,8): the frontier
    holds exactly (1,0), which the second response reported hazardous. *)
Lemma stale_frontier_extracts_from_empty_witness :
  open walled_state = [(1, 0)]
  /\ contains (closed walled_state) (1, 0) = true
  /\ a_star_loop 100 100 walled_state 8 8 0 = Err EmptyFrontier.
Proof.
  split; [vm_compute; reflexivity|].
  split; [vm_compute; reflexivity|].
  apply (stale_frontier_extracts_from_empty 100 99 walled_state 8 8 0).
  - vm_compute. discriminate.
  - intros c Hc. vm_compute in Hc. destruct Hc as [<- | []].
    vm_compute. reflexivity.
Defined.

(** *** Walking along stored parent chains *)

Lemma stupid_move_table (st : state) (c : cell_ptr) :
  table (stupid_move st c) = table st.
Proof. reflexivity. Qed.

Lemma walk_step_table (st : state) (c : cell_ptr) :
  table (walk_step st c) = table st.
Proof. unfold walk_step. destruct (_ =? _)%char; reflexivity. Qed.


(** The effect of a sequence of blind moves. *)
Lemma fold_stupid_move (cells : list cell_ptr) (st : state) :
  let st' := fold_left stupid_move cells st in
  table st' = table st /\ open st' = open st /\ closed st' = closed st
  /\ has_shield st' = has_shield st
  /\ cur_pos st' = last cells (cur_pos st)
  /\ input st' = skipn (List.length cells) (input st)
  /\ output st' = output st ++ map request cells.
Proof.
  revert st. induction cells as [| c cells IH]; intros st.
  - simpl. repeat split; auto. now rewrite app_nil_r.
  - cbn [fold_left List.length map]. cbv zeta.
    destruct (IH (stupid_move st c)) as (Ht & Ho & Hc & Hs & Hp & Hi & Hout).
    repeat split; try assumption.
    + rewrite Hp, last_cons. reflexivity.
    + rewrite Hi. simpl input. rewrite snd_read_response_tl.
      destruct (input st) as [| r inp]; simpl; [now rewrite skipn_nil|reflexivity].
    + rewrite Hout. simpl output. now rewrite <- app_assoc.
Qed.

Lemma walk_step_effect (st : state) (c : cell_ptr) :
  table (walk_step st c) = table st
  /\ open (walk_step st c) = open st
  /\ closed (walk_step st c) = closed st
  /\ has_shield (walk_step st c) = (is_shield (table st) c || has_shield st)
  /\ cur_pos (walk_step st c) = c
  /\ input (walk_step st c) = tl (input st)
  /\ output (walk_step st c) = output st ++ [request c].
Proof.
  unfold walk_step, is_shield. simpl.
  destruct (_ =? _)%char; simpl; rewrite snd_read_response_tl; auto 10.
Qed.

Lemma fold_walk_step (cells : list cell_ptr) (st : state) :
  let st' := fold_left walk_step cells st in
  table st' = table st /\ open st' = open st /\ closed st' = closed st
  /\ has_shield st' = (existsb (is_shield (table st)) cells || has_shield st)
  /\ cur_pos st' = last cells (cur_pos st)
  /\ input st' = skipn (List.length cells) (input st)
  /\ output st' = output st ++ map request cells.
Proof.
  revert st. induction cells as [| c cells IH]; intros st.
  - simpl. repeat split; auto. now rewrite app_nil_r.
  - cbn [fold_left List.length map existsb]. cbv zeta.
    destruct (IH (walk_step st c)) as (Ht & Ho & Hc & Hs & Hp & Hi & Hout).
    destruct (walk_step_effect st c) as (Wt & Wo & Wc & Ws & Wp & Wi & Wout).
    rewrite Wt in *.
    repeat split; try congruence.
    + rewrite Hs, Ws.
      destruct (is_shield (table st) c), (existsb _ cells); reflexivity.
    + rewrite Hp, Wp. now rewrite last_cons.
    + rewrite Hi, Wi. destruct (input st); simpl; [now rewrite skipn_nil|reflexivity].
    + rewrite Hout, Wout. simpl. now rewrite <- app_assoc.
Qed.

Lemma path_Some (fuel : nat) (t : game_table) (p : cell_ptr)
    (l : list cell_ptr) :
  path fuel t (Some p) = Ok l ->
  exists fuel' rest, fuel = S fuel' /\ l = p :: rest
                     /\ path fuel' t (parent (t p)) = Ok rest.
Proof.
  destruct fuel as [| f]; simpl; [discriminate|].
  intros H. apply bind_Ok in H as [rest [Hr Hl]]. inversion Hl; subst.
  eauto.
Qed.

Lemma path_mono (fuel : nat) (t : game_table) (c : option cell_ptr)
    (l : list cell_ptr) :
  path fuel t c = Ok l -> path (S fuel) t c = Ok l.
Proof.
  revert c l. induction fuel as [| f IH]; intros c l H.
  - destruct c; simpl in H; [discriminate|]. inversion H. reflexivity.
  - destruct c as [p|]; [|simpl in *; congruence].
    apply path_Some in H as (f' & rest & Hf & -> & Hrest).
    inversion Hf; subst f'. apply IH in Hrest.
    change (path (S (S f)) t (Some p))
      with (bind (path (S f) t (parent (t p))) (fun r => Ok (p :: r))).
    now rewrite Hrest.
Qed.

(** The chain returned by [path] ends in a cell without a parent. *)
Lemma path_ends_at_root (fuel : nat) (t : game_table) (p : cell_ptr)
    (rest : list cell_ptr) :
  path fuel t (Some p) = Ok (p :: rest) ->
  parent (t (last rest p)) = None.
Proof.
  revert p rest. induction fuel as [| f IH]; intros p rest H.
  - discriminate.
  - apply path_Some in H as (f' & rest' & Hf & Hl & Hrest).
    inversion Hf; subst f'. inversion Hl; subst rest'.
    destruct (parent (t p)) as [q|] eqn:Hq.
    + destruct (path_Some _ _ _ _ Hrest) as (f'' & r'' & _ & -> & _).
      specialize (IH q r'' Hrest). now rewrite last_cons.
    + assert (rest = []) as -> by (destruct f; simpl in Hrest; congruence).
      simpl. exact Hq.
Qed.

Lemma return_to_start_walks_chain (fuel : nat) (st : state)
    (back : list cell_ptr) :
  path fuel (table st) (parent (table st (cur_pos st))) = Ok back ->
  return_to_start fuel st = Ok (fold_left stupid_move back st).
Proof.
  revert st back. induction fuel as [| f IH]; intros st back H.
  - simpl. destruct (parent (table st (cur_pos st))); simpl in H;
      [discriminate|]. inversion H. reflexivity.
  - simpl. destruct (parent (table st (cur_pos st))) as [q|] eqn:Hq.
    + apply path_Some in H as (f' & rest & Hf & -> & Hrest).
      inversion Hf; subst f'. simpl. apply IH. exact Hrest.
    + simpl in H. inversion H. reflexivity.
Qed.

(** *** Reconciliation of the physical position with the extracted cell *)

(** C1 (as the code has it).  When the extracted cell is not adjacent to the
    current position, the agent steps backward along the whole parent chain
    of the current position, down to the cell that has no parent (the start
    cell); the shield flag is then reset, and the agent steps forward along
    the stored chain of [best->parent], from the root's child to
    [best->parent], raising the flag on every shield cell it crosses.  The
    table, the frontier and the closed set are left as they were, and one
    response is consumed per step. *)
Theorem reconcile_returns_to_start (gas : nat) (st : state) (best : cell_ptr)
    (back fwd : list cell_ptr) :
  neighbour (cur_pos st) best = false ->
  path gas (table st) (Some (cur_pos st)) = Ok (cur_pos st :: back) ->
  path gas (table st) (parent (table st best)) = Ok fwd ->
  fwd <> [] ->
  exists st_back st',
    return_to_start gas st = Ok st_back
    /\ cur_pos st_back = last back (cur_pos st)
    /\ parent (table st (cur_pos st_back)) = None
    /\ output st_back = output st ++ map request back
    /\ reconcile gas st best = Ok st'
    /\ output st' = output st_back ++ map request (tl (rev fwd))
    /\ cur_pos st' = last (tl (rev fwd)) (cur_pos st_back)
    /\ has_shield st' = existsb (is_shield (table st)) (tl (rev fwd))
    /\ input st' =
       skipn (List.length back + List.length (tl (rev fwd))) (input st)
    /\ table st' = table st /\ open st' = open st /\ closed st' = closed st.
Proof.
  intros Hfar Hback Hfwd Hne.
  pose proof (path_ends_at_root _ _ _ _ Hback) as Hroot.
  apply path_Some in Hback as (f & rest & Hgas & Hrest & Hchain).
  inversion Hrest; subst rest. subst gas.
  apply path_mono in Hchain.
  pose proof (return_to_start_walks_chain _ _ _ Hchain) as Hret.
  destruct (fold_stupid_move back st) as (Bt & Bo & Bc & Bs & Bp & Bi & Bout).
  set (st_back := fold_left stupid_move back st) in *.
  destruct (rev fwd) as [| r forward] eqn:Hrev.
  { exfalso. apply Hne. rewrite <- (rev_involutive fwd), Hrev. reflexivity. }
  destruct (fold_walk_step forward (set_shield st_back false))
    as (Wt & Wo & Wc & Ws & Wp & Wi & Wout).
  exists st_back, (fold_left walk_step forward (set_shield st_back false)).
  simpl tl. simpl in Wt, Wo, Wc, Ws, Wp, Wi, Wout.
  repeat split.
  - exact Hret.
  - exact Bp.
  - rewrite Bp. exact Hroot.
  - exact Bout.
  - unfold reconcile. rewrite Hfar. simpl negb. cbv iota.
    rewrite Hret. simpl bind.
    unfold stupid_move_to_known_target. simpl table. rewrite Bt.
    rewrite Hfwd. simpl bind. rewrite Hrev. reflexivity.
  - exact Wout.
  - exact Wp.
  - rewrite Ws, Bt. now rewrite orb_false_r.
  - rewrite Wi, Bi. now rewrite skipn_skipn, Nat.add_comm.
  - congruence.
  - congruence.
  - congruence.
Qed.

Lemma reconcile_returns_to_start_witness :
  exists st_back st',
    return_to_start 100 detour_state = Ok st_back
    /\ cur_pos st_back = (0, 0)
    /\ parent (table detour_state (cur_pos st_back)) = None
    /\ output st_back = output detour_state ++ [MoveReq 1 0; MoveReq 0 0]
    /\ reconcile 100 detour_state (1, 1) = Ok st'
    /\ output st' = output st_back ++ [MoveReq 1 0]
    /\ cur_pos st' = (0, 1)
    /\ has_shield st' = false
    /\ input st' = []
    /\ table st' = table detour_state /\ open st' = open detour_state
    /\ closed st' = closed detour_state.
Proof.
  destruct (reconcile_returns_to_start 100 detour_state (1, 1)
              [(0, 1); (0, 0)] [(0, 1); (0, 0)])
    as (sb & s' & H1 & H2 & H3 & H4 & H5 & H6 & H7 & H8 & H9 & H10);
    try (vm_compute; reflexivity).
  - discriminate.
  - destruct H10 as (H10 & H11 & H12).
    exists sb, s'.
    assert (Hp : cur_pos sb = (0, 0)) by (rewrite H2; reflexivity).
    split; [exact H1|].
    split; [exact Hp|].
    split; [rewrite Hp; vm_compute; reflexivity|].
    split; [rewrite H4; reflexivity|].
    split; [exact H5|].
    split; [rewrite H6; reflexivity|].
    split; [rewrite H7; reflexivity|].
    split; [rewrite H8; vm_compute; reflexivity|].
    split; [rewrite H9; vm_compute; reflexivity|].
    auto.
Defined.

(** C1 (as stated) fails.  In a run toward (0,4) the agent stands on (0,2)
    when (1,1) is extracted; the two chains share (0,1), the deepest common
    ancestor, yet the backward walk crosses (0,1) and ends on the start
    cell (0,0). *)
Lemma backtrack_does_not_stop_at_lca :
  extract_best (open detour_state) (closed detour_state) = Ok ((1, 1), [(1, 0)])
  /\ cur_pos detour_state = (0, 2)
  /\ neighbour (cur_pos detour_state) (1, 1) = false
  /\ spec_deepest_common_ancestor 100 (table detour_state)
       (cur_pos detour_state) (1, 1) = Ok (Some (0, 1))
  /\ exists st_back,
       return_to_start 100 detour_state = Ok st_back
       /\ cur_pos st_back = (0, 0)
       /\ cur_pos st_back <> (0, 1)
       /\ output st_back
          = output detour_state ++ [request (0, 1); request (0, 0)].
Proof.
  repeat split; try (vm_compute; reflexivity).
  exists (fold_left stupid_move [(0, 1); (0, 0)] detour_state).
  split.
  - apply return_to_start_walks_chain. vm_compute. reflexivity.
  - split; [reflexivity|]. split; [discriminate | reflexivity].
Qed.

(** [return_to_lca], which the engine never calls, would walk the same way:
    the ancestor it asks for is the root of the chain. *)
Remark return_to_lca_walks_to_the_start_too :
  least_common_ancestor 100 (table detour_state) (cur_pos detour_state) (1, 1)
  = Ok (Some (0, 0))
  /\ return_to_lca 100 detour_state (1, 1) = return_to_start 100 detour_state.
Proof. split; vm_compute; reflexivity. Qed.

(** *** What a step does with the oracle's response *)

Lemma apply_event_frame (mode : Z) (t t' : game_table)
    (cl cl' : restricted_cells) (e : event) :
  apply_event mode (t, cl) e = Ok (t', cl') ->
  incl cl cl'
  /\ forall p,
       from_player_cost (t' p) = from_player_cost (t p)
       /\ to_target_cost (t' p) = to_target_cost (t p)
       /\ parent (t' p) = parent (t p)
       /\ cell_status (t' p)
          = if ptr_eqb p (ev_n e, ev_m e) then ev_status e
            else cell_status (t p).
Proof.
  unfold apply_event. destruct (in_borders (ev_n e) (ev_m e)); [|discriminate].
  intros H. inversion H; subst; clear H. split.
  - destruct (dangerous_status _); [apply set_insert_incl | apply incl_refl].
  - intros p. rewrite update_same.
    destruct (_ && _ && _); unfold update;
      destruct (ptr_eqb p (ev_n e, ev_m e)) eqn:E; simpl;
      try (apply ptr_eqb_eq in E; subst p); auto.
Qed.

Lemma apply_events_frame (mode : Z) (evs : response) :
  forall (t t' : game_table) (cl cl' : restricted_cells),
  apply_events mode (t, cl) evs = Ok (t', cl') ->
  incl cl cl'
  /\ forall p,
       from_player_cost (t' p) = from_player_cost (t p)
       /\ to_target_cost (t' p) = to_target_cost (t p)
       /\ parent (t' p) = parent (t p)
       /\ cell_status (t' p) = last_status evs p (cell_status (t p)).
Proof.
  induction evs as [| e evs IH]; intros t t' cl cl' H.
  - simpl in H. inversion H; subst. split; [apply incl_refl | auto].
  - simpl in H. apply bind_Ok in H as [[t1 cl1] [H1 H2]].
    apply apply_event_frame in H1 as [Hi1 Hf1].
    apply IH in H2 as [Hi2 Hf2]. split.
    + eapply incl_tran; eassumption.
    + intros p. destruct (Hf1 p) as (A1 & A2 & A3 & A4).
      destruct (Hf2 p) as (B1 & B2 & B3 & B4).
      repeat split; try congruence.
      rewrite B4, A4. reflexivity.
Qed.

Lemma apply_events_in_range (mode : Z) (evs : response) :
  forall (t : game_table) (cl : restricted_cells),
  Forall in_range evs ->
  exists t' cl', apply_events mode (t, cl) evs = Ok (t', cl').
Proof.
  induction evs as [| e evs IH]; intros t cl H.
  - simpl. eauto.
  - inversion H as [| ? ? He Hevs]; subst.
    cbn [apply_events]. unfold apply_event. unfold in_range in He.
    rewrite He. cbn [bind]. apply IH. exact Hevs.
Qed.

Lemma update_then_check_cell_status (cur : cell_ptr) (tn tm : Z)
    (tq : game_table * cell_priority_queue) (cn cm : Z) (p : cell_ptr) :
  cell_status (fst (update_then_check_cell cur tn tm tq cn cm) p)
  = cell_status (fst tq p).
Proof.
  destruct tq as [t o]. unfold update_then_check_cell.
  destruct (_ && _); [|reflexivity].
  destruct (_ <? _); [|reflexivity].
  simpl. unfold update. destruct (ptr_eqb p (cn, cm)) eqn:E; [|reflexivity].
  apply ptr_eqb_eq in E. subst. reflexivity.
Qed.

Lemma open_neighbours_status (cur : cell_ptr) (tn tm : Z)
    (tq : game_table * cell_priority_queue) (p : cell_ptr) :
  cell_status (fst (open_neighbours cur tn tm tq) p) = cell_status (fst tq p).
Proof.
  unfold open_neighbours. now rewrite !update_then_check_cell_status.
Qed.

(** *** Closed cells stay out of reach *)

Lemma request_inj (a b : cell_ptr) : request a = request b -> a = b.
Proof.
  destruct a, b. unfold request, ptr_m, ptr_n. simpl.
  intros H. inversion H. reflexivity.
Qed.

Lemma avoids_refl (c : cell_ptr) (st : state) : avoids c st st.
Proof. exists []. split; [now rewrite app_nil_r | intros []]. Qed.

Lemma avoids_trans (c : cell_ptr) (s1 s2 s3 : state) :
  avoids c s1 s2 -> avoids c s2 s3 -> avoids c s1 s3.
Proof.
  intros [m1 [H1 N1]] [m2 [H2 N2]]. exists (m1 ++ m2). split.
  - now rewrite H2, H1, app_assoc.
  - intros H. apply in_app_or in H as [H | H]; auto.
Qed.

Lemma avoids_requests (c : cell_ptr) (st st' : state) (cells : list cell_ptr) :
  output st' = output st ++ map request cells ->
  ~ In c cells -> avoids c st st'.
Proof.
  intros Ho Hn. exists (map request cells). split; [exact Ho|].
  intros H. apply in_map_iff in H as [x [Hx Hin]].
  apply request_inj in Hx. subst x. contradiction.
Qed.

Lemma path_avoids (c : cell_ptr) (t : game_table) (fuel : nat) :
  (forall p, parent (t p) <> Some c) ->
  forall (start : option cell_ptr) (l : list cell_ptr),
  start <> Some c -> path fuel t start = Ok l -> ~ In c l.
Proof.
  intros Hpar. induction fuel as [| f IH]; intros start l Hs H.
  - destruct start; simpl in H; [discriminate|]. inversion H. intros [].
  - destruct start as [p|]; [|simpl in H; inversion H; intros []].
    apply path_Some in H as (f' & rest & Hf & -> & Hrest).
    inversion Hf; subst f'. intros [Hc | Hc].
    + apply Hs. now subst.
    + revert Hc. apply (IH (parent (t p)) rest); [apply Hpar | exact Hrest].
Qed.

Lemma return_to_start_keeps_away (c : cell_ptr) (fuel : nat) :
  forall st st1,
  never_reached c st -> return_to_start fuel st = Ok st1 ->
  never_reached c st1 /\ avoids c st st1
  /\ table st1 = table st /\ closed st1 = closed st /\ open st1 = open st.
Proof.
  induction fuel as [| f IH]; intros st st1 Hnr H; simpl in H.
  - destruct (parent (table st (cur_pos st))); [discriminate|].
    inversion H; subst. auto using avoids_refl.
  - destruct (parent (table st (cur_pos st))) as [q|] eqn:Hq.
    + destruct Hnr as (Hc & Hp & Hpar).
      assert (Hqc : q <> c).
      { intros ->. now apply (Hpar (cur_pos st)). }
      assert (Hnr1 : never_reached c (stupid_move st q)).
      { repeat split; assumption. }
      destruct (IH _ _ Hnr1 H) as (A & B & C & D & E).
      repeat split; try apply A; try assumption.
      eapply avoids_trans; [|exact B].
      apply (avoids_requests c st (stupid_move st q) [q]); [reflexivity|].
      intros [Hx | []]. now apply Hqc.
    + inversion H; subst. auto using avoids_refl.
Qed.

Lemma last_In {A : Type} (l : list A) (x d : A) :
  In (last (x :: l) d) (x :: l).
Proof.
  revert x. induction l as [| y l IH]; intros x.
  - now left.
  - change (last (x :: y :: l) d) with (last (y :: l) d). right. apply IH.
Qed.

Lemma last_In_or {A : Type} (l : list A) (d : A) :
  last l d = d \/ In (last l d) l.
Proof.
  destruct l as [| x l]; [now left | right; apply last_In].
Qed.

Lemma move_to_known_target_keeps_away (c : cell_ptr) (gas : nat)
    (st st1 : state) (target : option cell_ptr) :
  never_reached c st -> target <> Some c ->
  stupid_move_to_known_target gas st target = Ok st1 ->
  never_reached c st1 /\ avoids c st st1
  /\ table st1 = table st /\ closed st1 = closed st /\ open st1 = open st.
Proof.
  intros (Hc & Hp & Hpar) Ht H. unfold stupid_move_to_known_target in H.
  apply bind_Ok in H as [l [Hl H]].
  pose proof (path_avoids c _ gas Hpar _ _ Ht Hl) as Hnot.
  destruct (rev l) as [| r forward] eqn:Hrev; [discriminate|].
  inversion H; subst st1; clear H.
  assert (Hfwd : ~ In c forward).
  { intros Hin. apply Hnot. apply in_rev. rewrite Hrev. now right. }
  destruct (fold_walk_step forward st) as (Wt & Wo & Wc & Ws & Wp & Wi & Wout).
  repeat split; try assumption.
  - now rewrite Wc.
  - rewrite Wp. destruct (last_In_or forward (cur_pos st)) as [E | E].
    + now rewrite E.
    + intros Heq. apply Hfwd. now rewrite <- Heq.
  - intros p. rewrite Wt. apply Hpar.
  - now apply (avoids_requests c st _ forward).
Qed.

Lemma reconcile_keeps_away (c : cell_ptr) (gas : nat) (st st1 : state)
    (best : cell_ptr) :
  never_reached c st ->
  reconcile gas st best = Ok st1 ->
  never_reached c st1 /\ avoids c st st1
  /\ table st1 = table st /\ closed st1 = closed st /\ open st1 = open st.
Proof.
  intros Hnr H. unfold reconcile in H.
  destruct (negb (neighbour (cur_pos st) best)).
  - apply bind_Ok in H as [sb [Hb H]].
    destruct (return_to_start_keeps_away c gas _ _ Hnr Hb)
      as (A1 & A2 & A3 & A4 & A5).
    assert (Hnr2 : never_reached c (set_shield sb false)) by exact A1.
    assert (Ht : parent (table (set_shield sb false) best) <> Some c).
    { destruct A1 as (_ & _ & Hpar). apply Hpar. }
    destruct (move_to_known_target_keeps_away c gas _ _ _ Hnr2 Ht H)
      as (B1 & B2 & B3 & B4 & B5).
    simpl in B3, B4, B5. repeat split; try apply B1; try congruence.
    eapply avoids_trans; [exact A2|].
    destruct B2 as [m [Hm Hn]]. exists m. split; assumption.
  - inversion H; subst. auto using avoids_refl.
Qed.

Lemma update_then_check_cell_parent (cur : cell_ptr) (tn tm : Z)
    (tq : game_table * cell_priority_queue) (cn cm : Z) (p : cell_ptr) :
  parent (fst (update_then_check_cell cur tn tm tq cn cm) p) = parent (fst tq p)
  \/ parent (fst (update_then_check_cell cur tn tm tq cn cm) p) = Some cur.
Proof.
  destruct tq as [t o]. unfold update_then_check_cell.
  destruct (_ && _); [|now left].
  destruct (_ <? _); [|now left].
  simpl. unfold update. destruct (ptr_eqb p (cn, cm)); [now right | now left].
Qed.

Lemma open_neighbours_parent (cur : cell_ptr) (tn tm : Z)
    (tq : game_table * cell_priority_queue) (p : cell_ptr) :
  parent (fst (open_neighbours cur tn tm tq) p) = parent (fst tq p)
  \/ parent (fst (open_neighbours cur tn tm tq) p) = Some cur.
Proof.
  unfold open_neighbours.
  repeat match goal with
  | |- context [update_then_check_cell cur tn tm ?x ?a ?b] =>
      let H := fresh in
      destruct (update_then_check_cell_parent cur tn tm x a b p) as [H | H];
      [rewrite H; clear H | now right]
  end.
  now left.
Qed.

Lemma move_then_update_keeps_away (c : cell_ptr) (st st1 : state)
    (best : cell_ptr) (tn tm mode : Z) (found : bool) :
  never_reached c st -> best <> c ->
  move_then_update st best tn tm mode = Ok (found, st1) ->
  never_reached c st1 /\ avoids c st st1.
Proof.
  intros (Hc & Hp & Hpar) Hb H. unfold move_then_update in H.
  assert (Hav : forall s, output s = output st ++ [request best] ->
                          avoids c st s).
  { intros s Hs. apply (avoids_requests c st s [best]); [exact Hs|].
    intros [Hx | []]. now apply Hb. }
  simpl table in H. destruct (_ =? _)%char.
  - inversion H; subst. split; [repeat split; assumption|].
    now apply Hav.
  - simpl input in H. destruct (read_response (input st)) as [evs rest].
    apply bind_Ok in H as [[t1 cl1] [He H]].
    destruct (open_neighbours best tn tm (t1, _)) as [t2 o2] eqn:Eo.
    inversion H; subst; clear H.
    apply apply_events_frame in He as [Hincl Hfr]. split.
    + repeat split; simpl.
      * apply Hincl. apply set_insert_In. now right.
      * exact Hb.
      * intros p.
        destruct (open_neighbours_parent best tn tm
                    (t1, open (emit st (MoveReq (ptr_m best) (ptr_n best)))) p)
          as [E | E]; rewrite Eo in E; simpl in E; rewrite E.
        -- destruct (Hfr p) as (_ & _ & -> & _). apply Hpar.
        -- intros Heq. inversion Heq. now apply Hb.
    + now apply Hav.
Qed.

Lemma iteration_keeps_away (c : cell_ptr) (gas : nat) (st st1 : state)
    (tn tm mode : Z) (found : bool) :
  never_reached c st ->
  a_star_iteration gas st tn tm mode = Ok (found, st1) ->
  never_reached c st1 /\ avoids c st st1.
Proof.
  intros Hnr H. unfold a_star_iteration in H.
  apply bind_Ok in H as [[best o1] [He H]].
  apply bind_Ok in H as [st2 [Hr H]].
  apply extract_best_Ok in He as (Hfresh & _ & _).
  assert (Hb : best <> c).
  { intros ->. destruct Hnr as (Hc & _). apply contains_In in Hc. congruence. }
  assert (Hnr0 : never_reached c (with_open st o1)) by exact Hnr.
  destruct (reconcile_keeps_away c gas _ _ _ Hnr0 Hr) as (A1 & A2 & _).
  destruct (move_then_update_keeps_away c _ _ _ _ _ _ _ A1 Hb H) as (B1 & B2).
  split; [exact B1|].
  eapply avoids_trans; [|exact B2].
  destruct A2 as [m [Hm Hn]]. exists m. split; assumption.
Qed.

Lemma loop_keeps_away (c : cell_ptr) (gas fuel : nat) (tn tm mode : Z) :
  forall (st st1 : state) (found : bool),
  never_reached c st ->
  a_star_loop gas fuel st tn tm mode = Ok (found, st1) ->
  never_reached c st1 /\ avoids c st st1.
Proof.
  induction fuel as [| f IH]; intros st st1 found Hnr H; simpl in H.
  - destruct (open st); [|discriminate]. inversion H; subst.
    auto using avoids_refl.
  - destruct (open st) eqn:Ho.
    + inversion H; subst. auto using avoids_refl.
    + apply bind_Ok in H as [[b s] [Hi H]].
      destruct (iteration_keeps_away c gas _ _ _ _ _ _ Hnr Hi) as (A1 & A2).
      destruct b.
      * inversion H; subst. auto.
      * destruct (IH _ _ _ A1 H) as (B1 & B2).
        split; [exact B1 | eapply avoids_trans; eassumption].
Qed.

Lemma cell_less_total (t : game_table) (a b : cell_ptr) :
  cell_less t a b = false -> cell_less t b a = false -> a = b.
Proof.
  destruct a as [an am], b as [bn bm]. unfold cell_less, ptr_n, ptr_m.
  simpl fst; simpl snd.
  repeat match goal with
  | |- context [negb (?x =? ?y)] =>
      let E := fresh "E" in
      destruct (Z.eqb_spec x y) as [E | E]; simpl negb; cbv iota
  end; rewrite ?Z.ltb_ge; intros; try lia.
  f_equal; lia.
Qed.

Lemma open_insert_In (t : game_table) (c : cell_ptr) (o : cell_priority_queue) :
  In c (open_insert t c o).
Proof.
  induction o as [| x o IH]; simpl; [now left|].
  destruct (cell_less t c x) eqn:E1; [now left|].
  destruct (cell_less t x c) eqn:E2; [right; exact IH|].
  left. symmetry. now apply (cell_less_total t).
Qed.

(** A hazard report on a cell puts the cell in the closed set. *)
Lemma hazard_report_closes (mode : Z) (t t' : game_table)
    (cl cl' : restricted_cells) (e : event) :
  apply_event mode (t, cl) e = Ok (t', cl') ->
  is_dangerous (ev_status e) = true ->
  In (ev_n e, ev_m e) cl'.
Proof.
  unfold apply_event. destruct (in_borders _ _); [|discriminate].
  intros H Hd. inversion H; subst; clear H.
  rewrite update_same. unfold dangerous_status at 1. simpl cell_status.
  rewrite Hd. apply set_insert_In. now left.
Qed.

Lemma strictly_better_cost_reenters (cur c : cell_ptr) (tn tm : Z)
    (t : game_table) (o : cell_priority_queue) :
  in_borders (ptr_n c) (ptr_m c) = true ->
  dangerous_status (t c) = false ->
  from_player_cost (t cur) + 1 < from_player_cost (t c) ->
  let tq := update_then_check_cell cur tn tm (t, o) (ptr_n c) (ptr_m c) in
  In c (snd tq) /\ from_player_cost (fst tq c) = from_player_cost (t cur) + 1.
Proof.
  intros Hb Hd Hlt. destruct c as [cn cm]. unfold ptr_n, ptr_m in *.
  simpl fst in *; simpl snd in *. unfold update_then_check_cell.
  rewrite Hb, Hd. simpl andb. cbv iota.
  apply Z.ltb_lt in Hlt. rewrite Hlt. simpl. split.
  - apply open_insert_In.
  - now rewrite update_same.
Qed.

Lemma init_game_table_parent (tn tm : Z) (p : cell_ptr) :
  parent (init_game_table tn tm p) = None.
Proof.
  unfold init_game_table, update.
  destruct (ptr_eqb p (tn, tm)); [reflexivity|].
  destruct (ptr_eqb p (0, 0)); reflexivity.
Qed.

Lemma move_then_update_parent (st st1 : state) (best : cell_ptr)
    (tn tm mode : Z) (found : bool) (p : cell_ptr) :
  move_then_update st best tn tm mode = Ok (found, st1) ->
  parent (table st1 p) = parent (table st p)
  \/ (found = false /\ parent (table st1 p) = Some (cur_pos st1)).
Proof.
  unfold move_then_update. simpl table. destruct (_ =? _)%char.
  - intros H. inversion H; subst. now left.
  - simpl input. destruct (read_response (input st)) as [evs rest].
    intros H. apply bind_Ok in H as [[t1 cl1] [He H]].
    destruct (open_neighbours best tn tm (t1, _)) as [t2 o2] eqn:Eo.
    inversion H; subst; clear H. simpl.
    apply apply_events_frame in He as [_ Hfr].
    destruct (open_neighbours_parent best tn tm
                (t1, open (emit st (MoveReq (ptr_m best) (ptr_n best)))) p)
      as [E | E]; rewrite Eo in E; simpl in E; rewrite E.
    + left. apply Hfr.
    + right. auto.
Qed.

Lemma reconcile_table (gas : nat) (st st1 : state) (best : cell_ptr) :
  reconcile gas st best = Ok st1 -> table st1 = table st.
Proof.
  unfold reconcile. destruct (negb _).
  - intros H. apply bind_Ok in H as [sb [Hb H]].
    assert (Htb : table sb = table st).
    { clear H. revert st Hb. induction gas as [| g IH]; intros st Hb;
        simpl in Hb; destruct (parent (table st (cur_pos st)));
        try discriminate; try (inversion Hb; subst; reflexivity).
      now rewrite (IH _ Hb). }
    unfold stupid_move_to_known_target in H.
    apply bind_Ok in H as [l [_ H]].
    destruct (rev l) as [| r forward]; [discriminate|].
    inversion H; subst.
    destruct (fold_walk_step forward (set_shield sb false)) as (Wt & _).
    rewrite Wt. exact Htb.
  - intros H. inversion H. reflexivity.
Qed.

Lemma iteration_parent (gas : nat) (st st1 : state) (tn tm mode : Z)
    (found : bool) (p : cell_ptr) :
  a_star_iteration gas st tn tm mode = Ok (found, st1) ->
  parent (table st1 p) = parent (table st p)
  \/ (found = false /\ parent (table st1 p) = Some (cur_pos st1)).
Proof.
  unfold a_star_iteration. intros H.
  apply bind_Ok in H as [[best o1] [_ H]].
  apply bind_Ok in H as [st2 [Hr H]].
  apply reconcile_table in Hr. simpl in Hr.
  destruct (move_then_update_parent _ _ _ _ _ _ _ p H) as [E | E].
  - left. now rewrite E, Hr.
  - now right.
Qed.

(** C3 (as stated) fails.  In a run toward (0,4), (0,1) is reported
    hazardous by the first response and neutral by the second.  The
    expansion of (1,1) gives it cost 3, strictly better than the recorded
    [INF], and it re-enters the frontier as its first element; the next
    extraction drops it because it is closed and takes (1,2) instead.  The
    run ends with cost 6 without ever requesting a move onto (0,1). *)
Lemma reopened_cell_is_discarded :
  In (hazard 1 0) (nth 0 reopened [])
  /\ In (0, 1) (closed (reopened_state 1))
  /\ In (neutral 1 0) (nth 1 reopened [])
  /\ dangerous_status (table (reopened_state 2) (0, 1)) = false
  /\ from_player_cost (table (reopened_state 2) (0, 1)) = INF
  /\ cur_pos (reopened_state 3) = (1, 1)
  /\ from_player_cost (table (reopened_state 3) (0, 1)) = 3
  /\ open (reopened_state 3) = [(0, 1); (1, 2); (2, 1); (2, 0)]
  /\ extract_best (open (reopened_state 3)) (closed (reopened_state 3))
     = Ok ((1, 2), [(2, 1); (2, 0)])
  /\ main 100 100 0 4 0 reopened
     = Ok [MoveReq 0 0; MoveReq 0 1; MoveReq 1 1; MoveReq 2 1; MoveReq 2 0;
           MoveReq 3 0; MoveReq 4 0; Exit 6]
  /\ request (0, 1) = MoveReq 1 0.
Proof.
  repeat split; try (vm_compute; reflexivity); vm_compute; auto.
Qed.

(** *** Two runs that agree on everything the engine reads *)

Section Simulation.

Variable CR : cell_ptr -> cell -> cell -> Prop.
Variable IR : list response -> list response -> Prop.
Variables mode1 mode2 : Z.

Hypothesis CR_view : forall p a b, CR p a b -> same_view a b.

Hypothesis CR_update : forall p a b g h par,
  CR p a b ->
  CR p (mk_cell g h (cell_status a) par (possibly_picked_by a))
       (mk_cell g h (cell_status b) par (possibly_picked_by b)).

Hypothesis IR_read : forall i1 i2,
  IR i1 i2 ->
  events_rel CR mode1 mode2 (fst (read_response i1)) (fst (read_response i2))
  /\ IR (snd (read_response i1)) (snd (read_response i2)).

Lemma path_sim (fuel : nat) (t1 t2 : game_table) :
  table_rel CR t1 t2 ->
  forall c, path fuel t1 c = path fuel t2 c.
Proof.
  intros Ht. induction fuel as [| f IH]; intros [p|]; simpl; auto.
  destruct (CR_view _ _ _ (Ht p)) as (_ & _ & Hp & _).
  now rewrite Hp, IH.
Qed.

Lemma stupid_move_sim (s1 s2 : state) (c : cell_ptr) :
  state_rel CR IR s1 s2 ->
  state_rel CR IR (stupid_move s1 c) (stupid_move s2 c).
Proof.
  intros (Ht & Ho & Hc & Hp & Hout & Hi).
  repeat split; simpl; try assumption.
  - now rewrite Hout.
  - apply IR_read. exact Hi.
Qed.

Lemma set_shield_sim (s1 s2 : state) (b1 b2 : bool) :
  state_rel CR IR s1 s2 ->
  state_rel CR IR (set_shield s1 b1) (set_shield s2 b2).
Proof. intros H. exact H. Qed.

Lemma walk_step_sim (s1 s2 : state) (c : cell_ptr) :
  state_rel CR IR s1 s2 ->
  state_rel CR IR (walk_step s1 c) (walk_step s2 c).
Proof.
  intros H. apply (stupid_move_sim _ _ c) in H. unfold walk_step.
  destruct (_ =? _)%char, (_ =? _)%char; exact H.
Qed.

Lemma fold_walk_step_sim (cells : list cell_ptr) :
  forall s1 s2,
  state_rel CR IR s1 s2 ->
  state_rel CR IR (fold_left walk_step cells s1) (fold_left walk_step cells s2).
Proof.
  induction cells as [| c cells IH]; intros s1 s2 H; simpl; [exact H|].
  apply IH. now apply walk_step_sim.
Qed.

Lemma return_to_start_sim (fuel : nat) :
  forall s1 s2,
  state_rel CR IR s1 s2 ->
  res_rel (state_rel CR IR) (return_to_start fuel s1) (return_to_start fuel s2).
Proof.
  induction fuel as [| f IH]; intros s1 s2 H;
    pose proof H as (Ht & _ & _ & Hp & _);
    destruct (CR_view _ _ _ (Ht (cur_pos s1))) as (_ & _ & Hpar & _);
    simpl; rewrite <- Hp, <- Hpar;
    destruct (parent (table s1 (cur_pos s1))); simpl; auto.
  apply IH. now apply stupid_move_sim.
Qed.

Lemma stupid_move_to_known_target_sim (fuel : nat) (s1 s2 : state)
    (target : option cell_ptr) :
  state_rel CR IR s1 s2 ->
  res_rel (state_rel CR IR)
    (stupid_move_to_known_target fuel s1 target)
    (stupid_move_to_known_target fuel s2 target).
Proof.
  intros H. unfold stupid_move_to_known_target.
  rewrite <- (path_sim fuel (table s1) (table s2) (proj1 H) target).
  destruct (path fuel (table s1) target) as [l | e]; simpl; [|reflexivity].
  destruct (rev l); simpl; [reflexivity|].
  now apply fold_walk_step_sim.
Qed.

Lemma res_rel_bind {A B : Type} (RA : A -> A -> Prop) (RB : B -> B -> Prop)
    (r1 r2 : res A) (k1 k2 : A -> res B) :
  res_rel RA r1 r2 ->
  (forall a1 a2, RA a1 a2 -> res_rel RB (k1 a1) (k2 a2)) ->
  res_rel RB (bind r1 k1) (bind r2 k2).
Proof.
  destruct r1, r2; simpl; intros H K; try contradiction; auto.
Qed.

Lemma reconcile_sim (gas : nat) (s1 s2 : state) (best : cell_ptr) :
  state_rel CR IR s1 s2 ->
  res_rel (state_rel CR IR) (reconcile gas s1 best) (reconcile gas s2 best).
Proof.
  intros H. unfold reconcile.
  pose proof H as (_ & _ & _ & Hp & _). rewrite <- Hp.
  destruct (negb (neighbour (cur_pos s1) best)); [|exact H].
  eapply res_rel_bind; [apply return_to_start_sim; exact H|].
  intros a1 a2 Ha. simpl table.
  destruct (CR_view _ _ _ (proj1 Ha best)) as (_ & _ & Hpar & _).
  rewrite <- Hpar.
  apply stupid_move_to_known_target_sim.
  now apply set_shield_sim.
Qed.

Lemma cell_less_sim (t1 t2 : game_table) (a b : cell_ptr) :
  table_rel CR t1 t2 -> cell_less t1 a b = cell_less t2 a b.
Proof.
  intros Ht.
  destruct (CR_view _ _ _ (Ht a)) as (Ag & Ah & _).
  destruct (CR_view _ _ _ (Ht b)) as (Bg & Bh & _).
  unfold cell_less, sum_cost. now rewrite Ag, Ah, Bg, Bh.
Qed.

Lemma open_insert_sim (t1 t2 : game_table) (c : cell_ptr)
    (o : cell_priority_queue) :
  table_rel CR t1 t2 -> open_insert t1 c o = open_insert t2 c o.
Proof.
  intros Ht. induction o as [| x o IH]; simpl; [reflexivity|].
  rewrite !(cell_less_sim t1 t2) by exact Ht. now rewrite IH.
Qed.

Lemma open_erase_sim (t1 t2 : game_table) (c : cell_ptr)
    (o : cell_priority_queue) :
  table_rel CR t1 t2 -> open_erase t1 c o = open_erase t2 c o.
Proof.
  intros Ht. unfold open_erase. apply filter_ext. intros x.
  unfold cell_equiv. now rewrite !(cell_less_sim t1 t2) by exact Ht.
Qed.

Lemma update_sim (t1 t2 : game_table) (p : cell_ptr) (a b : cell) :
  table_rel CR t1 t2 -> CR p a b ->
  table_rel CR (update t1 p a) (update t2 p b).
Proof.
  intros Ht Hab q. unfold update. destruct (ptr_eqb q p) eqn:E.
  - apply ptr_eqb_eq in E. now subst.
  - apply Ht.
Qed.

Lemma update_then_check_cell_sim (cur : cell_ptr) (tn tm : Z)
    (t1 t2 : game_table) (o : cell_priority_queue) (cn cm : Z) :
  table_rel CR t1 t2 ->
  table_rel CR (fst (update_then_check_cell cur tn tm (t1, o) cn cm))
               (fst (update_then_check_cell cur tn tm (t2, o) cn cm))
  /\ snd (update_then_check_cell cur tn tm (t1, o) cn cm)
     = snd (update_then_check_cell cur tn tm (t2, o) cn cm).
Proof.
  intros Ht. unfold update_then_check_cell.
  destruct (CR_view _ _ _ (Ht (cn, cm))) as (Ng & _ & _ & Nd & _).
  destruct (CR_view _ _ _ (Ht cur)) as (Cg & _).
  rewrite <- Nd, <- Ng, <- Cg.
  destruct (in_borders cn cm && negb (dangerous_status (t1 (cn, cm))));
    [|split; [exact Ht | reflexivity]].
  destruct (from_player_cost (t1 cur) + 1 <? from_player_cost (t1 (cn, cm)));
    [|split; [exact Ht | reflexivity]].
  cbn [fst snd].
  assert (Ht' : table_rel CR
            (update t1 (cn, cm)
               (mk_cell (from_player_cost (t1 cur) + 1)
                  (manhattan_distance cn cm tn tm) (cell_status (t1 (cn, cm)))
                  (Some cur) (possibly_picked_by (t1 (cn, cm)))))
            (update t2 (cn, cm)
               (mk_cell (from_player_cost (t1 cur) + 1)
                  (manhattan_distance cn cm tn tm) (cell_status (t2 (cn, cm)))
                  (Some cur) (possibly_picked_by (t2 (cn, cm)))))).
  { apply update_sim; [exact Ht|]. apply CR_update. apply Ht. }
  split; [exact Ht'|].
  rewrite (open_erase_sim t1 t2) by exact Ht.
  now apply open_insert_sim.
Qed.

Lemma open_neighbours_sim (cur : cell_ptr) (tn tm : Z)
    (t1 t2 : game_table) (o : cell_priority_queue) :
  table_rel CR t1 t2 ->
  table_rel CR (fst (open_neighbours cur tn tm (t1, o)))
               (fst (open_neighbours cur tn tm (t2, o)))
  /\ snd (open_neighbours cur tn tm (t1, o))
     = snd (open_neighbours cur tn tm (t2, o)).
Proof.
  intros Ht. unfold open_neighbours.
  assert (step : forall a b cn cm,
            table_rel CR (fst a) (fst b) /\ snd a = snd b ->
            table_rel CR (fst (update_then_check_cell cur tn tm a cn cm))
                         (fst (update_then_check_cell cur tn tm b cn cm))
            /\ snd (update_then_check_cell cur tn tm a cn cm)
               = snd (update_then_check_cell cur tn tm b cn cm)).
  { intros [ta oa] [tb ob] cn cm [Hab Ho]. simpl in Hab, Ho. subst ob.
    now apply update_then_check_cell_sim. }
  apply step. apply step. apply step. apply step. now split.
Qed.

Lemma emit_sim (s1 s2 : state) (l : line) :
  state_rel CR IR s1 s2 -> state_rel CR IR (emit s1 l) (emit s2 l).
Proof.
  intros (Ht & Ho & Hc & Hp & Hout & Hi).
  repeat split; simpl; try assumption. now rewrite Hout.
Qed.

Lemma move_then_update_sim (s1 s2 : state) (best : cell_ptr) (tn tm : Z) :
  state_rel CR IR s1 s2 ->
  res_rel (fun r1 r2 => fst r1 = fst r2 /\ state_rel CR IR (snd r1) (snd r2))
    (move_then_update s1 best tn tm mode1)
    (move_then_update s2 best tn tm mode2).
Proof.
  intros H. unfold move_then_update.
  pose proof (emit_sim _ _ (MoveReq (ptr_m best) (ptr_n best)) H) as He.
  destruct (CR_view _ _ _ (proj1 H best)) as (_ & _ & _ & _ & HI).
  simpl table. rewrite <- HI.
  destruct (cell_status (table s1 best) =? "I")%char.
  - simpl. split; [reflexivity | exact He].
  - destruct H as (Ht & Ho & Hc & Hp & Hout & Hi).
    simpl input. destruct (IR_read _ _ Hi) as [Hev Hrest].
    destruct (read_response (input s1)) as [evs1 rest1].
    destruct (read_response (input s2)) as [evs2 rest2].
    simpl in Hev, Hrest. simpl closed. rewrite <- Hc.
    eapply res_rel_bind; [apply Hev; exact Ht|].
    intros [t1 cl1] [t2 cl2] [Ht12 Hcl]. simpl in Ht12, Hcl. subst cl2.
    simpl open. rewrite <- Ho.
    destruct (open_neighbours_sim best tn tm t1 t2 (open s1) Ht12)
      as [Hto Hoo].
    destruct (open_neighbours best tn tm (t1, open s1)) as [ta oa].
    destruct (open_neighbours best tn tm (t2, open s1)) as [tb ob].
    simpl in Hto, Hoo. subst ob. simpl.
    split; [reflexivity|].
    repeat split; simpl; try assumption; try reflexivity.
    now rewrite Hout.
Qed.

Lemma a_star_iteration_sim (gas : nat) (s1 s2 : state) (tn tm : Z) :
  state_rel CR IR s1 s2 ->
  res_rel (fun r1 r2 => fst r1 = fst r2 /\ state_rel CR IR (snd r1) (snd r2))
    (a_star_iteration gas s1 tn tm mode1)
    (a_star_iteration gas s2 tn tm mode2).
Proof.
  intros H. unfold a_star_iteration.
  pose proof H as (Ht & Ho & Hc & Hp & Hout & Hi).
  rewrite <- Ho, <- Hc.
  destruct (extract_best (open s1) (closed s1)) as [[best o1] | e];
    simpl; [|reflexivity].
  apply (res_rel_bind (state_rel CR IR)).
  - apply reconcile_sim. repeat split; simpl; assumption.
  - intros a1 a2 Ha. now apply move_then_update_sim.
Qed.

Lemma a_star_loop_sim (gas fuel : nat) (tn tm : Z) :
  forall s1 s2,
  state_rel CR IR s1 s2 ->
  res_rel (fun r1 r2 => fst r1 = fst r2 /\ state_rel CR IR (snd r1) (snd r2))
    (a_star_loop gas fuel s1 tn tm mode1)
    (a_star_loop gas fuel s2 tn tm mode2).
Proof.
  induction fuel as [| f IH]; intros s1 s2 H;
    pose proof H as (_ & Ho & _); simpl; rewrite <- Ho;
    destruct (open s1); simpl; auto.
  eapply res_rel_bind; [apply a_star_iteration_sim; exact H|].
  intros [b1 a1] [b2 a2] [Hb Ha]. simpl in Hb, Ha. subst b2.
  destruct b1; simpl; auto.
Qed.

Lemma main_sim (gas fuel : nat) (tm tn : Z) (i1 i2 : list response) :
  table_rel CR (init_game_table tn tm) (init_game_table tn tm) ->
  IR i1 i2 ->
  main gas fuel mode1 tm tn i1 = main gas fuel mode2 tm tn i2.
Proof.
  intros Ht Hi. unfold main. destruct (in_borders tn tm); [|reflexivity].
  unfold launch_a_star.
  assert (H : state_rel CR IR
            (mk_state (table (init_state tn tm i1)) (open (init_state tn tm i1))
               (closed (init_state tn tm i1)) (0, 0)
               (has_shield (init_state tn tm i1)) (input (init_state tn tm i1))
               (output (init_state tn tm i1)))
            (mk_state (table (init_state tn tm i2)) (open (init_state tn tm i2))
               (closed (init_state tn tm i2)) (0, 0)
               (has_shield (init_state tn tm i2)) (input (init_state tn tm i2))
               (output (init_state tn tm i2)))).
  { repeat split; simpl; assumption. }
  pose proof (a_star_loop_sim gas fuel tn tm _ _ H) as Hl.
  destruct (a_star_loop gas fuel _ tn tm mode1) as [[b1 a1] | e1];
    destruct (a_star_loop gas fuel _ tn tm mode2) as [[b2 a2] | e2];
    simpl in Hl; try contradiction.
  - destruct Hl as [Hb (Hta & _ & _ & _ & Hout & _)]. simpl in *. subst b2.
    destruct (CR_view _ _ _ (Hta (tn, tm))) as (Hg & _).
    rewrite Hout, Hg. reflexivity.
  - simpl. now subst.
Qed.

End Simulation.

(** *** The perception flag *)

Lemma same_but_attribution_view (p : cell_ptr) (a b : cell) :
  same_but_attribution p a b -> same_view a b.
Proof.
  intros (Hg & Hh & Hs & Hp). unfold same_view, dangerous_status.
  now rewrite Hg, Hh, Hs, Hp.
Qed.

Lemma apply_event_flag (mode1 mode2 : Z) (t1 t2 : game_table)
    (cl : restricted_cells) (e : event) :
  table_rel same_but_attribution t1 t2 ->
  res_rel (fun tc1 tc2 => table_rel same_but_attribution (fst tc1) (fst tc2)
                          /\ snd tc1 = snd tc2)
          (apply_event mode1 (t1, cl) e) (apply_event mode2 (t2, cl) e).
Proof.
  intros Ht. unfold apply_event.
  destruct (in_borders (ev_n e) (ev_m e)); simpl; [|reflexivity].
  rewrite !update_same. unfold dangerous_status. simpl cell_status. split.
  - intros p. destruct (Ht p) as (Hg & Hh & Hs & Hp).
    destruct (Ht (ev_n e, ev_m e)) as (Eg & Eh & Es & Ep).
    destruct (_ && _ && _), (_ && _ && _); unfold update;
      destruct (ptr_eqb p (ev_n e, ev_m e)); simpl;
      repeat split; assumption.
  - reflexivity.
Qed.

Lemma apply_events_flag (mode1 mode2 : Z) (evs : response) :
  events_rel same_but_attribution mode1 mode2 evs evs.
Proof.
  unfold events_rel. induction evs as [| e evs IH]; intros t1 t2 cl Ht.
  - simpl. auto.
  - cbn [apply_events].
    pose proof (apply_event_flag mode1 mode2 t1 t2 cl e Ht) as He.
    destruct (apply_event mode1 (t1, cl) e) as [[ta ca] | e1];
      destruct (apply_event mode2 (t2, cl) e) as [[tb cb] | e2];
      simpl in He; try contradiction; cbn [bind].
    + destruct He as [Hab Hc]. subst cb. now apply IH.
    + exact He.
Qed.

(** The requests and the final line of the best-first program do not depend
    on the perception flag. *)
Lemma main_flag_independent (gas fuel : nat) (mode1 mode2 tm tn : Z)
    (inp : list response) :
  main gas fuel mode1 tm tn inp = main gas fuel mode2 tm tn inp.
Proof.
  apply (main_sim same_but_attribution eq mode1 mode2).
  - exact same_but_attribution_view.
  - intros p a b g h par (Hg & Hh & Hs & Hp). repeat split; assumption.
  - intros i1 i2 <-. split; [apply apply_events_flag | reflexivity].
  - intros p. repeat split.
  - reflexivity.
Qed.

(** *** Hazard-free oracles *)

Lemma hazard_free_view_view (target p : cell_ptr) (a b : cell) :
  hazard_free_view target p a b -> same_view a b.
Proof.
  intros (Hg & Hh & Hp & Da & Db & Ia & Ib). unfold same_view.
  rewrite Hg, Hh, Hp, Da, Db, Ia, Ib. auto.
Qed.

Lemma hazard_free_view_sym (target : cell_ptr) (t1 t2 : game_table) :
  table_rel (hazard_free_view target) t1 t2 ->
  table_rel (hazard_free_view target) t2 t1.
Proof.
  intros H p. destruct (H p) as (Hg & Hh & Hp & Da & Db & Ia & Ib).
  repeat split; auto.
Qed.

(** A harmless response changes nothing the engine reads. *)
Lemma apply_events_harmless (target : cell_ptr) (mode : Z) (evs : response) :
  Forall (harmless target) evs ->
  forall t1 t2 cl,
  table_rel (hazard_free_view target) t1 t2 ->
  exists t1', apply_events mode (t1, cl) evs = Ok (t1', cl)
              /\ table_rel (hazard_free_view target) t1' t2.
Proof.
  induction 1 as [| e evs (Hr & Hd & Hi) _ IH]; intros t1 t2 cl Ht.
  - exists t1. split; [reflexivity | exact Ht].
  - cbn [apply_events]. unfold apply_event. unfold in_range in Hr.
    rewrite Hr. rewrite !update_same. unfold dangerous_status at 1 2.
    simpl cell_status. rewrite Hd. simpl andb. cbv iota. cbn [bind].
    apply IH. intros p. unfold update.
    destruct (ptr_eqb p (ev_n e, ev_m e)) eqn:E; [|apply Ht].
    apply ptr_eqb_eq in E. subst p.
    destruct (Ht (ev_n e, ev_m e)) as (Hg & Hh & Hp & Da & Db & Ia & Ib).
    unfold hazard_free_view, dangerous_status. simpl. auto 10.
Qed.

Lemma hazard_free_read (target : cell_ptr) (mode1 mode2 : Z)
    (i1 i2 : list response) :
  hazard_free_inputs target i1 i2 ->
  events_rel (hazard_free_view target) mode1 mode2
    (fst (read_response i1)) (fst (read_response i2))
  /\ hazard_free_inputs target (snd (read_response i1))
                               (snd (read_response i2)).
Proof.
  intros [H1 H2].
  assert (Hhd : forall i, hazard_free target i ->
            Forall (harmless target) (fst (read_response i))
            /\ hazard_free target (snd (read_response i))).
  { intros i Hi. destruct Hi; simpl; auto. split; constructor. }
  destruct (Hhd _ H1) as [A1 A2]. destruct (Hhd _ H2) as [B1 B2].
  split; [|split; assumption].
  intros t1 t2 cl Ht.
  destruct (apply_events_harmless target mode1 _ A1 t1 t2 cl Ht)
    as (t1' & E1 & Ht1).
  apply hazard_free_view_sym in Ht1.
  destruct (apply_events_harmless target mode2 _ B1 t2 t1' cl Ht1)
    as (t2' & E2 & Ht2).
  rewrite E1, E2. simpl. split; [|reflexivity].
  now apply hazard_free_view_sym.
Qed.

Lemma init_game_table_hazard_free (tn tm : Z) :
  table_rel (hazard_free_view (tn, tm))
    (init_game_table tn tm) (init_game_table tn tm).
Proof.
  intros p. unfold init_game_table, update, hazard_free_view.
  destruct (ptr_eqb p (tn, tm)) eqn:E; [simpl; auto 10|].
  destruct (ptr_eqb p (0, 0)); simpl; auto 10.
Qed.

(** With a hazard-free oracle the program prints what it prints when the
    oracle reports nothing at all. *)
Lemma main_hazard_free (gas fuel : nat) (mode tm tn : Z)
    (inp : list response) :
  hazard_free (tn, tm) inp ->
  main gas fuel mode tm tn inp = main gas fuel 0 tm tn [].
Proof.
  intros H.
  apply (main_sim (hazard_free_view (tn, tm)) (hazard_free_inputs (tn, tm))
           mode 0).
  - apply hazard_free_view_view.
  - intros p a b g h par (Hg & Hh & Hp & Da & Db & Ia & Ib).
    unfold hazard_free_view, dangerous_status in *. simpl. auto 10.
  - apply hazard_free_read.
  - apply init_game_table_hazard_free.
  - split; [exact H | constructor].
Qed.

(** **** More fuel does not change a result *)

Lemma path_mono_le (f f' : nat) (t : game_table) (c : option cell_ptr)
    (l : list cell_ptr) :
  (f <= f')%nat -> path f t c = Ok l -> path f' t c = Ok l.
Proof.
  induction 1 as [| f' _ IH]; intros H; [exact H|].
  apply path_mono. now apply IH.
Qed.

Lemma return_to_start_mono (f : nat) :
  forall st r, return_to_start f st = Ok r -> return_to_start (S f) st = Ok r.
Proof.
  induction f as [| f IH]; intros st r H.
  - simpl in *. destruct (parent (table st (cur_pos st))); [discriminate|].
    exact H.
  - change (return_to_start (S (S f)) st)
      with (match parent (table st (cur_pos st)) with
            | None => Ok st
            | Some p => return_to_start (S f) (stupid_move st p)
            end).
    change (return_to_start (S f) st)
      with (match parent (table st (cur_pos st)) with
            | None => Ok st
            | Some p => return_to_start f (stupid_move st p)
            end) in H.
    destruct (parent (table st (cur_pos st))); [|exact H].
    now apply IH.
Qed.

Lemma reconcile_mono (gas : nat) (st r : state) (best : cell_ptr) :
  reconcile gas st best = Ok r -> reconcile (S gas) st best = Ok r.
Proof.
  unfold reconcile. destruct (negb _); [|auto].
  intros H. apply bind_Ok in H as [sb [Hb H]].
  rewrite (return_to_start_mono _ _ _ Hb). cbn [bind].
  unfold stupid_move_to_known_target in *.
  apply bind_Ok in H as [l [Hl H]].
  rewrite (path_mono _ _ _ _ Hl). exact H.
Qed.

Lemma a_star_iteration_mono (gas : nat) (st : state) (tn tm mode : Z)
    (r : bool * state) :
  a_star_iteration gas st tn tm mode = Ok r ->
  a_star_iteration (S gas) st tn tm mode = Ok r.
Proof.
  unfold a_star_iteration. intros H.
  apply bind_Ok in H as [[best o1] [He H]]. rewrite He. cbn [bind].
  apply bind_Ok in H as [st2 [Hr H]].
  rewrite (reconcile_mono _ _ _ _ Hr). exact H.
Qed.

Lemma a_star_loop_mono_gas (gas fuel : nat) (tn tm mode : Z) :
  forall st r,
  a_star_loop gas fuel st tn tm mode = Ok r ->
  a_star_loop (S gas) fuel st tn tm mode = Ok r.
Proof.
  induction fuel as [| f IH]; intros st r H; simpl in *;
    destruct (open st); try exact H.
  apply bind_Ok in H as [[b s] [Hi H]].
  rewrite (a_star_iteration_mono _ _ _ _ _ _ Hi). cbn [bind].
  destruct b; [exact H | now apply IH].
Qed.

Lemma a_star_loop_mono_fuel (gas fuel : nat) (tn tm mode : Z) :
  forall st r,
  a_star_loop gas fuel st tn tm mode = Ok r ->
  a_star_loop gas (S fuel) st tn tm mode = Ok r.
Proof.
  induction fuel as [| f IH]; intros st r H.
  - simpl in *. destruct (open st); [exact H | discriminate].
  - change (a_star_loop gas (S f) st tn tm mode)
      with (match open st with
            | [] => Ok (false, st)
            | _ :: _ =>
                '(is_stone_found, st1) <-
                   a_star_iteration gas st tn tm mode ;;
                if is_stone_found then Ok (true, st1)
                else a_star_loop gas f st1 tn tm mode
            end) in H.
    change (a_star_loop gas (S (S f)) st tn tm mode)
      with (match open st with
            | [] => Ok (false, st)
            | _ :: _ =>
                '(is_stone_found, st1) <-
                   a_star_iteration gas st tn tm mode ;;
                if is_stone_found then Ok (true, st1)
                else a_star_loop gas (S f) st1 tn tm mode
            end).
    destruct (open st); [exact H|].
    apply bind_Ok in H as [[b s] [Hi H]]. rewrite Hi. cbn [bind].
    destruct b; [exact H | now apply IH].
Qed.

Lemma main_mono (gas gas' fuel fuel' : nat) (mode tm tn : Z)
    (inp : list response) (l : list line) :
  (gas <= gas')%nat -> (fuel <= fuel')%nat ->
  main gas fuel mode tm tn inp = Ok l ->
  main gas' fuel' mode tm tn inp = Ok l.
Proof.
  intros Hg Hf. unfold main. destruct (in_borders tn tm); [|discriminate].
  unfold launch_a_star. intros H. apply bind_Ok in H as [r [Hl H]].
  assert (Hl' : a_star_loop gas' fuel'
                  (mk_state (table (init_state tn tm inp))
                     (open (init_state tn tm inp))
                     (closed (init_state tn tm inp)) (0, 0)
                     (has_shield (init_state tn tm inp))
                     (input (init_state tn tm inp))
                     (output (init_state tn tm inp))) tn tm mode = Ok r).
  { clear H. induction Hg as [| g' _ IHg].
    - induction Hf as [| f' _ IHf]; [exact Hl|].
      now apply a_star_loop_mono_fuel.
    - now apply a_star_loop_mono_gas. }
  rewrite Hl'. exact H.
Qed.

(** **** The runs of an oracle that reports nothing *)

Lemma targets_In (tn tm : Z) :
  in_borders tn tm = true -> (tn, tm) <> (0, 0) -> In (tn, tm) targets.
Proof.
  intros Hb Hne. unfold targets. apply filter_In. split.
  - now apply all_cells_In.
  - apply negb_true_iff. now apply ptr_eqb_neq.
Qed.

Lemma ends_with_exit_shape (cost : Z) (r : res (list line)) :
  ends_with_exit cost r = true ->
  exists moves, r = Ok (moves ++ [Exit cost]) /\ Forall is_request moves.
Proof.
  unfold ends_with_exit. destruct r as [l | e]; [|discriminate].
  destruct (rev l) as [| [col row | c] before] eqn:Hrev; try discriminate.
  rewrite andb_true_iff, Z.eqb_eq, forallb_forall. intros [-> Hall].
  exists (rev before). split.
  - f_equal. rewrite <- (rev_involutive l), Hrev. reflexivity.
  - apply Forall_forall. intros x Hx. apply in_rev in Hx.
    specialize (Hall x Hx). destruct x as [col row | c]; [|discriminate].
    now exists col, row.
Qed.

Lemma silent_runs_report_distance :
  forallb (fun c => ends_with_exit (manhattan_distance 0 0 (fst c) (snd c))
                      (main 0 17 0 (snd c) (fst c) []))
          targets = true.
Proof. vm_compute. reflexivity. Qed.

(** C6.  For every target of the data model (a table cell other than the
    start), every perception flag and every oracle that answers with
    harmless reports only (inside the table, never a hazard status, the
    stone marker on the target and nowhere else), the best-first program
    returns within 17 turns of its main loop: it prints move requests and
    then the line [e d], where [d] is the Manhattan distance from (0,0) to
    the target.  For target (3,3) the line is [e 6]. *)
Theorem hazard_free_run_reports_distance (gas fuel : nat) (mode tm tn : Z)
    (inp : list response) :
  in_borders tn tm = true ->
  (tn, tm) <> (0, 0) ->
  hazard_free (tn, tm) inp ->
  (17 <= fuel)%nat ->
  exists moves,
    main gas fuel mode tm tn inp
    = Ok (moves ++ [Exit (manhattan_distance 0 0 tn tm)])
    /\ Forall is_request moves
    /\ render (Exit (manhattan_distance 0 0 tn tm))
       = ("e " ++ show_Z (manhattan_distance 0 0 tn tm))%string
    /\ ((tn, tm) = (3, 3) ->
        render (Exit (manhattan_distance 0 0 tn tm)) = "e 6"%string).
Proof.
  intros Hb Hne Hfree Hfuel.
  pose proof (targets_In tn tm Hb Hne) as Hin.
  pose proof silent_runs_report_distance as Hall.
  rewrite forallb_forall in Hall. specialize (Hall _ Hin).
  cbn [fst snd] in Hall.
  apply ends_with_exit_shape in Hall as (moves & Hrun & Hmoves).
  exists moves. split; [|split; [exact Hmoves|split]].
  - rewrite (main_hazard_free gas fuel mode tm tn inp Hfree).
    apply (main_mono 0 gas 17 fuel); [lia | exact Hfuel | exact Hrun].
  - reflexivity.
  - intros H. inversion H; subst. reflexivity.
Qed.

Lemma hazard_free_run_reports_distance_witness :
  exists moves,
    main 0 17 1 3 3 shield_only = Ok (moves ++ [Exit 6])
    /\ render (Exit 6) = "e 6"%string.
Proof.
  destruct (hazard_free_run_reports_distance 0 17 1 3 3 shield_only)
    as (moves & Hrun & _ & _ & Hline).
  - reflexivity.
  - discriminate.
  - repeat constructor.
  - apply Nat.le_refl.
  - exists moves. split; [exact Hrun | now apply Hline].
Defined.

(** *** Costs only improve *)

(** The single place where the best-first engine writes a cost: the cell is
    left alone or gets a strictly smaller cost. *)
Lemma update_then_check_cell_cost (cur : cell_ptr) (tn tm : Z)
    (tq : game_table * cell_priority_queue) (cn cm : Z) (p : cell_ptr) :
  fst (update_then_check_cell cur tn tm tq cn cm) p = fst tq p
  \/ from_player_cost (fst (update_then_check_cell cur tn tm tq cn cm) p)
     < from_player_cost (fst tq p).
Proof.
  destruct tq as [t o]. unfold update_then_check_cell.
  destruct (_ && _); [|now left].
  destruct (_ <? _) eqn:Hlt; [|now left].
  apply Z.ltb_lt in Hlt. simpl. unfold update.
  destruct (ptr_eqb p (cn, cm)) eqn:E; [|now left].
  apply ptr_eqb_eq in E. subst p. right. simpl. exact Hlt.
Qed.

Lemma open_neighbours_cost (cur : cell_ptr) (tn tm : Z)
    (tq : game_table * cell_priority_queue) (p : cell_ptr) :
  from_player_cost (fst (open_neighbours cur tn tm tq) p)
  <= from_player_cost (fst tq p).
Proof.
  unfold open_neighbours.
  assert (step : forall x cn cm,
            from_player_cost (fst (update_then_check_cell cur tn tm x cn cm) p)
            <= from_player_cost (fst x p)).
  { intros x cn cm.
    destruct (update_then_check_cell_cost cur tn tm x cn cm p) as [-> | H]; lia. }
  eapply Z.le_trans; [apply step|].
  eapply Z.le_trans; [apply step|].
  eapply Z.le_trans; [apply step|].
  apply step.
Qed.

Lemma move_then_update_cost (st st1 : state) (best : cell_ptr)
    (tn tm mode : Z) (found : bool) (p : cell_ptr) :
  move_then_update st best tn tm mode = Ok (found, st1) ->
  from_player_cost (table st1 p) <= from_player_cost (table st p).
Proof.
  unfold move_then_update. simpl table. destruct (_ =? _)%char.
  - intros H. inversion H; subst. simpl. lia.
  - simpl input. destruct (read_response (input st)) as [evs rest].
    intros H. apply bind_Ok in H as [[t1 cl1] [He H]].
    pose proof (open_neighbours_cost best tn tm
                  (t1, open (emit st (MoveReq (ptr_m best) (ptr_n best)))) p)
      as Hc.
    destruct (open_neighbours best tn tm (t1, _)) as [t2 o2].
    inversion H; subst; clear H. simpl in *.
    apply apply_events_frame in He as [_ Hfr].
    destruct (Hfr p) as (Hg & _). lia.
Qed.

Lemma a_star_iteration_cost (gas : nat) (st st1 : state) (tn tm mode : Z)
    (found : bool) (p : cell_ptr) :
  a_star_iteration gas st tn tm mode = Ok (found, st1) ->
  from_player_cost (table st1 p) <= from_player_cost (table st p).
Proof.
  unfold a_star_iteration. intros H.
  apply bind_Ok in H as [[best o1] [_ H]].
  apply bind_Ok in H as [st2 [Hr H]].
  apply reconcile_table in Hr. simpl in Hr.
  apply (move_then_update_cost _ _ _ _ _ _ _ p) in H. now rewrite Hr in H.
Qed.

(** *** The final line *)

(** Whenever [main] returns, it has printed the engine's requests followed by
    one [e] line: the stone cell's cost after a successful search, [-1]
    after a failed one. *)
Lemma main_final_line (gas fuel : nat) (mode tm tn : Z) (inp : list response)
    (out : list line) :
  main gas fuel mode tm tn inp = Ok out ->
  exists found st,
    launch_a_star gas fuel (init_state tn tm inp) tn tm mode = Ok (found, st)
    /\ out = output st
             ++ [Exit (if found then from_player_cost (table st (tn, tm))
                       else -1)].
Proof.
  unfold main. destruct (in_borders tn tm); [|discriminate].
  intros H. apply bind_Ok in H as [[found st] [Hl H]].
  exists found, st. split; [exact Hl|].
  destruct found; inversion H; reflexivity.
Qed.

(** *** The comparator and the ordered frontier *)

Import AStarMore.

Lemma cell_less_iff (t : game_table) (a b : cell_ptr) :
  cell_less t a b = true <->
  sum_cost (t a) < sum_cost (t b)
  \/ (sum_cost (t a) = sum_cost (t b)
      /\ (to_target_cost (t a) < to_target_cost (t b)
          \/ (to_target_cost (t a) = to_target_cost (t b)
              /\ (from_player_cost (t a) < from_player_cost (t b)
                  \/ (from_player_cost (t a) = from_player_cost (t b)
                      /\ (ptr_n a < ptr_n b
                          \/ (ptr_n a = ptr_n b /\ ptr_m a < ptr_m b))))))).
Proof.
  unfold cell_less.
  repeat match goal with
  | |- context [negb (?x =? ?y)] =>
      destruct (Z.eqb_spec x y); simpl negb; cbv iota
  end; rewrite Z.ltb_lt; lia.
Qed.

(** [std::less<cell_ptr>] is a strict total order on cell pointers: the
    requirement [std::set] puts on its comparator, and the reason two
    distinct cells are never equivalent keys. *)
Theorem cell_less_strict_total_order (t : game_table) (a b c : cell_ptr) :
  cell_less t a a = false
  /\ (cell_less t a b = true -> cell_less t b a = false)
  /\ (cell_less t a b = true -> cell_less t b c = true ->
      cell_less t a c = true)
  /\ (a <> b -> cell_less t a b = true \/ cell_less t b a = true).
Proof.
  split; [|split; [|split]].
  - destruct (cell_less t a a) eqn:E; [|reflexivity].
    apply cell_less_iff in E. lia.
  - intros H. destruct (cell_less t b a) eqn:E; [|reflexivity].
    apply cell_less_iff in H. apply cell_less_iff in E. lia.
  - intros H1 H2. apply cell_less_iff in H1. apply cell_less_iff in H2.
    apply cell_less_iff. lia.
  - intros Hne. destruct (cell_less t a b) eqn:E1; [now left|].
    destruct (cell_less t b a) eqn:E2; [now right|].
    exfalso. apply Hne. now apply (cell_less_total t).
Qed.

Lemma cell_less_trans (t : game_table) (a b c : cell_ptr) :
  cell_less t a b = true -> cell_less t b c = true -> cell_less t a c = true.
Proof.
  intros H1 H2. apply cell_less_iff in H1. apply cell_less_iff in H2.
  apply cell_less_iff. lia.
Qed.

Lemma cell_less_irrefl (t : game_table) (a : cell_ptr) :
  cell_less t a a = false.
Proof.
  destruct (cell_less t a a) eqn:E; [|reflexivity].
  apply cell_less_iff in E. lia.
Qed.

Lemma cell_equiv_eq (t : game_table) (a b : cell_ptr) :
  cell_equiv t a b = true <-> a = b.
Proof.
  unfold cell_equiv. rewrite andb_true_iff, !negb_true_iff. split.
  - intros [H1 H2]. now apply (cell_less_total t).
  - intros ->. now rewrite cell_less_irrefl.
Qed.

Lemma open_insert_mem (t : game_table) (c x : cell_ptr)
    (o : cell_priority_queue) :
  In x (open_insert t c o) <-> x = c \/ In x o.
Proof.
  induction o as [| y o IH]; simpl.
  - intuition.
  - destruct (cell_less t c y) eqn:E1; [simpl; intuition|].
    destruct (cell_less t y c) eqn:E2.
    + simpl. rewrite IH. intuition.
    + assert (c = y) by now apply (cell_less_total t). subst y.
      simpl. intuition.
Qed.

Lemma open_erase_mem (t : game_table) (c x : cell_ptr)
    (o : cell_priority_queue) :
  In x (open_erase t c o) <-> In x o /\ x <> c.
Proof.
  unfold open_erase. rewrite filter_In, negb_true_iff. split.
  - intros [Hin Hne]. split; [exact Hin|]. intros ->.
    rewrite (proj2 (cell_equiv_eq t c c) eq_refl) in Hne. discriminate.
  - intros [Hin Hne]. split; [exact Hin|].
    destruct (cell_equiv t c x) eqn:E; [|reflexivity].
    apply cell_equiv_eq in E. congruence.
Qed.

Lemma open_insert_sorted (t : game_table) (c : cell_ptr)
    (o : cell_priority_queue) :
  sorted_open t o -> sorted_open t (open_insert t c o).
Proof.
  unfold sorted_open. induction 1 as [| y o Hs IH Hall]; simpl.
  - constructor; constructor.
  - destruct (cell_less t c y) eqn:E1.
    + constructor; [now constructor|]. constructor; [exact E1|].
      rewrite Forall_forall in *. intros x Hx.
      apply (cell_less_trans t c y x E1). now apply Hall.
    + destruct (cell_less t y c) eqn:E2; [|now constructor].
      constructor; [exact IH|].
      rewrite Forall_forall in *. intros x Hx.
      apply open_insert_mem in Hx as [-> | Hx]; auto.
Qed.

Lemma sorted_filter (t : game_table) (f : cell_ptr -> bool)
    (o : cell_priority_queue) :
  sorted_open t o -> sorted_open t (filter f o).
Proof.
  unfold sorted_open. induction 1 as [| y o Hs IH Hall]; simpl.
  - constructor.
  - destruct (f y); [|exact IH]. constructor; [exact IH|].
    rewrite Forall_forall in *. intros x Hx.
    apply filter_In in Hx as [Hx _]. now apply Hall.
Qed.

(** Sortedness only looks at the two costs of the members. *)
Lemma sorted_open_ext (t t' : game_table) (o : cell_priority_queue) :
  (forall x, In x o ->
     from_player_cost (t' x) = from_player_cost (t x)
     /\ to_target_cost (t' x) = to_target_cost (t x)) ->
  sorted_open t o -> sorted_open t' o.
Proof.
  unfold sorted_open. intros Hsame Hs. induction Hs as [| y o Hs IH Hall].
  - constructor.
  - constructor.
    + apply IH. intros x Hx. apply Hsame. now right.
    + rewrite Forall_forall in *. intros x Hx.
      specialize (Hall x Hx).
      destruct (Hsame y (or_introl eq_refl)) as [Yg Yh].
      destruct (Hsame x (or_intror Hx)) as [Xg Xh].
      apply cell_less_iff in Hall. apply cell_less_iff.
      unfold sum_cost in *. rewrite Yg, Yh, Xg, Xh. exact Hall.
Qed.

Lemma update_then_check_cell_sorted (cur : cell_ptr) (tn tm : Z)
    (t : game_table) (o : cell_priority_queue) (cn cm : Z) :
  sorted_open t o ->
  sorted_open (fst (update_then_check_cell cur tn tm (t, o) cn cm))
              (snd (update_then_check_cell cur tn tm (t, o) cn cm)).
Proof.
  intros Hs. unfold update_then_check_cell.
  destruct (_ && _); [|exact Hs].
  destruct (_ <? _); [|exact Hs].
  cbn [fst snd]. apply open_insert_sorted.
  apply (sorted_open_ext t).
  - intros x Hx. apply open_erase_mem in Hx as [_ Hne].
    now rewrite update_other.
  - now apply sorted_filter.
Qed.

Lemma open_neighbours_sorted (cur : cell_ptr) (tn tm : Z)
    (t : game_table) (o : cell_priority_queue) :
  sorted_open t o ->
  sorted_open (fst (open_neighbours cur tn tm (t, o)))
              (snd (open_neighbours cur tn tm (t, o))).
Proof.
  intros Hs. unfold open_neighbours.
  assert (step : forall x cn cm,
            sorted_open (fst x) (snd x) ->
            sorted_open (fst (update_then_check_cell cur tn tm x cn cm))
                        (snd (update_then_check_cell cur tn tm x cn cm))).
  { intros [tx ox] cn cm H. now apply update_then_check_cell_sorted. }
  apply step, step, step, step. exact Hs.
Qed.

(** What the extraction loop leaves and returns. *)
Lemma extract_best_split (o rest : cell_priority_queue)
    (cl : restricted_cells) (best : cell_ptr) :
  extract_best o cl = Ok (best, rest) ->
  exists skipped,
    o = skipped ++ best :: rest
    /\ (forall x, In x skipped -> contains cl x = true)
    /\ contains cl best = false.
Proof.
  induction o as [| b o IH]; simpl; [discriminate|].
  destruct (contains cl b) eqn:E.
  - intros H. destruct (IH H) as (sk & -> & Hsk & Hb).
    exists (b :: sk). split; [reflexivity|]. split; [|exact Hb].
    intros x [<- | Hx]; auto.
  - intros H. inversion H; subst. exists []. split; [reflexivity|].
    split; [intros x []|exact E].
Qed.

Lemma sorted_open_app_r (t : game_table) (l1 l2 : cell_priority_queue) :
  sorted_open t (l1 ++ l2) -> sorted_open t l2.
Proof.
  unfold sorted_open. induction l1 as [| x l1 IH]; simpl; [auto|].
  intros H. inversion H; subst. auto.
Qed.

(** On an ordered frontier the extraction loop returns the least cell that
    is not closed, drops the closed cells before it and keeps the cells
    after it. *)
Theorem extract_best_is_least_fresh (t : game_table)
    (o rest : cell_priority_queue) (cl : restricted_cells) (best : cell_ptr) :
  sorted_open t o ->
  extract_best o cl = Ok (best, rest) ->
  contains cl best = false
  /\ (forall x, In x o -> contains cl x = false ->
        x = best \/ cell_less t best x = true)
  /\ (forall x, In x rest <-> In x o /\ cell_less t best x = true)
  /\ sorted_open t rest.
Proof.
  intros Hs He. apply extract_best_split in He as (sk & -> & Hsk & Hb).
  pose proof (sorted_open_app_r _ _ _ Hs) as Hs2.
  inversion Hs2 as [| ? ? Hrest Hall]; subst.
  rewrite Forall_forall in Hall.
  assert (Hlt : forall x, In x sk -> cell_less t x best = true).
  { clear - Hs. unfold sorted_open in Hs.
    induction sk as [| y sk IH]; intros x Hx; [destruct Hx|].
    simpl in Hs. inversion Hs as [| ? ? Hs' Hall']; subst.
    destruct Hx as [<- | Hx]; [|now apply IH].
    rewrite Forall_forall in Hall'. apply Hall'.
    apply in_or_app. right. now left. }
  split; [exact Hb|]. split; [|split; [|exact Hrest]].
  - intros x Hx Hfresh. apply in_app_or in Hx as [Hx | [<- | Hx]].
    + rewrite (Hsk x Hx) in Hfresh. discriminate.
    + now left.
    + right. now apply Hall.
  - intros x. split.
    + intros Hx. split; [|now apply Hall].
      apply in_or_app. right. now right.
    + intros [Hx Hlx]. apply in_app_or in Hx as [Hx | [<- | Hx]].
      * pose proof (cell_less_trans t x best x (Hlt x Hx) Hlx) as Hc.
        rewrite cell_less_irrefl in Hc. discriminate.
      * rewrite cell_less_irrefl in Hlx. discriminate.
      * exact Hx.
Qed.

Lemma return_to_start_is_walk (fuel : nat) :
  forall st st1,
  return_to_start fuel st = Ok st1 ->
  exists back, st1 = fold_left stupid_move back st.
Proof.
  induction fuel as [| f IH]; intros st st1 H; simpl in H;
    destruct (parent (table st (cur_pos st))) as [q|];
    try discriminate; try (inversion H; subst; now exists []).
  destruct (IH _ _ H) as [back ->]. now exists (q :: back).
Qed.

Lemma reconcile_frame (gas : nat) (st st1 : state) (best : cell_ptr) :
  reconcile gas st best = Ok st1 ->
  table st1 = table st /\ open st1 = open st /\ closed st1 = closed st.
Proof.
  unfold reconcile. destruct (negb _).
  - intros H. apply bind_Ok in H as [sb [Hb H]].
    apply return_to_start_is_walk in Hb as [back ->].
    destruct (fold_stupid_move back st) as (Bt & Bo & Bc & _).
    unfold stupid_move_to_known_target in H.
    apply bind_Ok in H as [l [_ H]].
    destruct (rev l) as [| r forward]; [discriminate|].
    inversion H; subst.
    destruct (fold_walk_step forward
                (set_shield (fold_left stupid_move back st) false))
      as (Wt & Wo & Wc & _).
    simpl in Wt, Wo, Wc. repeat split; congruence.
  - intros H. inversion H. auto.
Qed.

Lemma move_then_update_sorted (st st1 : state) (best : cell_ptr)
    (tn tm mode : Z) (found : bool) :
  sorted_open (table st) (open st) ->
  move_then_update st best tn tm mode = Ok (found, st1) ->
  sorted_open (table st1) (open st1).
Proof.
  intros Hs. unfold move_then_update. simpl table. destruct (_ =? _)%char.
  - intros H. inversion H; subst. exact Hs.
  - simpl input. destruct (read_response (input st)) as [evs rest].
    intros H. apply bind_Ok in H as [[t1 cl1] [He H]].
    apply apply_events_frame in He as [_ Hfr].
    assert (Hs1 : sorted_open t1 (open st)).
    { apply (sorted_open_ext (table st)); [|exact Hs].
      intros x _. destruct (Hfr x) as (Hg & Hh & _). auto. }
    pose proof (open_neighbours_sorted best tn tm t1 (open st) Hs1) as Hn.
    simpl open in H.
    destruct (open_neighbours best tn tm (t1, open st)) as [t2 o2].
    inversion H; subst. exact Hn.
Qed.

Lemma a_star_iteration_sorted (gas : nat) (st st1 : state) (tn tm mode : Z)
    (found : bool) :
  sorted_open (table st) (open st) ->
  a_star_iteration gas st tn tm mode = Ok (found, st1) ->
  sorted_open (table st1) (open st1).
Proof.
  intros Hs H. unfold a_star_iteration in H.
  apply bind_Ok in H as [[best o1] [He H]].
  apply bind_Ok in H as [st2 [Hr H]].
  apply extract_best_split in He as (sk & Ho & _).
  apply reconcile_frame in Hr as (Rt & Ro & _). simpl in Rt, Ro.
  apply (move_then_update_sorted st2 st1 best tn tm mode found); [|exact H].
  rewrite Rt, Ro. rewrite Ho in Hs.
  apply sorted_open_app_r in Hs. unfold sorted_open in Hs.
  now inversion Hs.
Qed.

Lemma extract_best_is_least_fresh_witness :
  contains (closed (reopened_state 3)) (1, 2) = false
  /\ cell_less (table (reopened_state 3)) (1, 2) (2, 1) = true.
Proof.
  destruct (extract_best_is_least_fresh (table (reopened_state 3))
              (open (reopened_state 3)) [(2, 1); (2, 0)]
              (closed (reopened_state 3)) (1, 2)) as (H1 & H2 & _).
  - assert (Ho : open (reopened_state 3) = [(0, 1); (1, 2); (2, 1); (2, 0)])
      by (vm_compute; reflexivity).
    rewrite Ho. repeat constructor.
  - vm_compute. reflexivity.
  - split; [exact H1|].
    destruct (H2 (2, 1)) as [Heq | Hlt].
    + vm_compute. auto.
    + vm_compute. reflexivity.
    + discriminate.
    + exact Hlt.
Defined.

(** *** Parent chains *)

Lemma path_linked (fuel : nat) (t : game_table) :
  forall c l, path fuel t (Some c) = Ok l ->
  exists rest, l = c :: rest /\ linked t l.
Proof.
  induction fuel as [| f IH]; intros c l H; [discriminate|].
  apply path_Some in H as (f' & rest & Hf & -> & Hrest).
  inversion Hf; subst f'. exists rest. split; [reflexivity|].
  destruct (parent (t c)) as [q|] eqn:Hq.
  - destruct (IH q rest Hrest) as (r' & -> & Hl). simpl. auto.
  - assert (rest = []) as -> by (destruct f; simpl in Hrest; congruence).
    simpl. exact Hq.
Qed.

Lemma linked_determined (t : game_table) (a : cell_ptr) :
  forall l1 l2, linked t (a :: l1) -> linked t (a :: l2) -> l1 = l2.
Proof.
  intros l1. revert a. induction l1 as [| b l1 IH]; intros a l2 H1 H2.
  - destruct l2 as [| c l2]; [reflexivity|]. simpl in H1, H2.
    destruct H2 as [H2 _]. congruence.
  - destruct l2 as [| c l2]; simpl in H1, H2.
    + destruct H1 as [H1 _]. congruence.
    + destruct H1 as [H1 L1]. destruct H2 as [H2 L2].
      assert (b = c) by congruence. subst c. f_equal.
      now apply (IH b).
Qed.

Lemma linked_suffix (t : game_table) (l1 l2 : list cell_ptr) :
  linked t (l1 ++ l2) -> linked t l2.
Proof.
  induction l1 as [| a l1 IH]; [auto|].
  intros H. apply IH. simpl in H.
  destruct (l1 ++ l2) eqn:E; [simpl; exact I | apply H].
Qed.

Lemma linked_NoDup (t : game_table) (l : list cell_ptr) :
  linked t l -> NoDup l.
Proof.
  induction l as [| a l IH]; intros H; constructor.
  - intros Hin. apply in_split in Hin as (x & y & Hl).
    assert (Hay : linked t (a :: y)).
    { apply (linked_suffix t (a :: x)). simpl. rewrite <- Hl. exact H. }
    pose proof (linked_determined t a l y H Hay) as Heq.
    rewrite Heq in Hl at 1. apply (f_equal (@List.length _)) in Hl.
    rewrite length_app in Hl. simpl in Hl. lia.
  - apply IH. apply (linked_suffix t [a]). exact H.
Qed.

Lemma path_length (fuel : nat) (t : game_table) :
  forall (c : option cell_ptr) (l : list cell_ptr),
  path fuel t c = Ok l -> (List.length l <= fuel)%nat.
Proof.
  induction fuel as [| f IH]; intros [p|] l H; simpl in H;
    try discriminate; try (inversion H; subst; simpl; lia).
  apply bind_Ok in H as [rest [Hr H]]. inversion H; subst.
  apply IH in Hr. simpl. lia.
Qed.

(** Whenever the parent links from a cell end, the walk along them is
    produced as soon as the bound allows it. *)
Lemma linked_path (t : game_table) (l : list cell_ptr) :
  forall (fuel : nat) (c : cell_ptr),
  hd_error l = Some c -> linked t l -> (List.length l <= fuel)%nat ->
  path fuel t (Some c) = Ok l.
Proof.
  induction l as [| a rest IH]; intros fuel c Hd Hl Hf; [discriminate|].
  simpl in Hd. inversion Hd; subst a.
  destruct fuel as [| f]; [simpl in Hf; lia|].
  change (path (S f) t (Some c))
    with (bind (path f t (parent (t c))) (fun r => Ok (c :: r))).
  destruct rest as [| b rest'].
  - simpl in Hl. rewrite Hl. destruct f; reflexivity.
  - destruct Hl as [Hp Hl]. rewrite Hp.
    rewrite (IH f b eq_refl Hl); [reflexivity|].
    simpl in Hf |- *. lia.
Qed.

(** [cell::path] returns exactly when the parent links from the given cell
    end, and then it returns the chain of these links: the list that starts
    with the cell, in which every cell is followed by its parent and the
    last cell has none.  The model's loop returns it for every bound that is
    at least the length of the chain, and fails for smaller bounds and for
    parent links that run in a circle (on which the source loop does not
    end).  No cell occurs twice in the chain. *)
Theorem path_is_simple_chain (fuel : nat) (t : game_table)
    (c : cell_ptr) (l : list cell_ptr) :
  (path fuel t (Some c) = Ok l
   <-> hd_error l = Some c /\ linked t l /\ (List.length l <= fuel)%nat)
  /\ (linked t l -> NoDup l)
  /\ (forall fuel' l',
        path fuel t (Some c) = Ok l -> path fuel' t (Some c) = Ok l' ->
        l' = l)
  /\ (forall e, path fuel t (Some c) = Err e -> e = OutOfFuel).
Proof.
  split; [|split; [|split]].
  - split.
    + intros H. pose proof (path_length _ _ _ _ H) as Hlen.
      destruct (path_linked _ _ _ _ H) as (rest & -> & Hl).
      split; [reflexivity|]. split; assumption.
    + intros (Hd & Hl & Hlen). now apply linked_path.
  - apply linked_NoDup.
  - intros fuel' l' H H'.
    destruct (path_linked _ _ _ _ H) as (rest & -> & Hl).
    destruct (path_linked _ _ _ _ H') as (rest' & -> & Hl').
    f_equal. now apply (linked_determined t c).
  - revert c. induction fuel as [| f IH]; intros c e H.
    + simpl in H. now inversion H.
    + change (path (S f) t (Some c))
        with (bind (path f t (parent (t c))) (fun r => Ok (c :: r))) in H.
      destruct (parent (t c)) as [q|] eqn:Hq.
      * destruct (path f t (Some q)) as [r | e'] eqn:Hr;
          cbn [bind] in H; [discriminate|].
        inversion H; subst. now apply (IH q).
      * destruct f; simpl in H; discriminate.
Qed.

Lemma path_is_simple_chain_witness :
  path 3 (table detour_state) (Some (0, 2)) = Ok [(0, 2); (0, 1); (0, 0)]
  /\ NoDup [(0, 2); (0, 1); (0, 0)].
Proof.
  destruct (path_is_simple_chain 3 (table detour_state) (0, 2)
              [(0, 2); (0, 1); (0, 0)]) as ([_ H1] & H2 & _).
  assert (Hl : linked (table detour_state) [(0, 2); (0, 1); (0, 0)]).
  { cbn [linked]. repeat split; vm_compute; reflexivity. }
  split; [|exact (H2 Hl)].
  apply H1. split; [reflexivity|]. split; [exact Hl|]. simpl. lia.
Defined.

Lemma return_to_lca_loop_to_root (root : cell_ptr) (fuel : nat) :
  forall st above,
  path fuel (table st) (Some (cur_pos st)) = Ok (above ++ [root]) ->
  return_to_lca_loop fuel (Some root) st = return_to_start fuel st.
Proof.
  induction fuel as [| f IH]; intros st above H; [discriminate|].
  pose proof H as Hp.
  apply path_Some in H as (f' & rest & Hf & Hl & Hrest).
  inversion Hf; subst f'.
  cbn [return_to_lca_loop return_to_start].
  destruct (parent (table st (cur_pos st))) as [q|] eqn:Hq.
  - pose proof (path_Some _ _ _ _ Hrest) as (f'' & r'' & _ & Hr & _).
    destruct above as [| a above']; simpl in Hl.
    { inversion Hl; subst. discriminate. }
    inversion Hl as [[Ha Hab]]. subst a.
    assert (Hroot : parent (table st root) = None).
    { pose proof (path_ends_at_root _ _ _ (above' ++ [root]) Hp) as Hr0.
      rewrite last_last in Hr0. exact Hr0. }
    assert (Hne : ptr_eqb (cur_pos st) root = false).
    { apply ptr_eqb_neq. intros Heq. rewrite Heq in Hq. congruence. }
    rewrite Hne. apply (IH (stupid_move st q) above').
    simpl. rewrite Hab. exact Hrest.
  - assert (rest = []) as -> by (destruct f; simpl in Hrest; congruence).
    destruct above as [| a above']; simpl in Hl.
    + inversion Hl; subst. now rewrite ptr_eqb_refl.
    + inversion Hl. destruct above'; discriminate.
Qed.

(** When both parent chains end in the same cell, [return_to_lca] makes
    exactly the moves of [return_to_start]: the ancestor it computes is that
    last cell, so it walks the whole chain. *)
Theorem return_to_lca_is_return_to_start (fuel : nat) (st : state)
    (target root : cell_ptr) (above second_path : list cell_ptr) :
  path fuel (table st) (Some (cur_pos st)) = Ok (above ++ [root]) ->
  cell_path_as_set fuel (table st) (Some target) = Ok second_path ->
  In root second_path ->
  return_to_lca fuel st target = return_to_start fuel st.
Proof.
  intros Hfirst Hsecond Hroot. unfold return_to_lca, least_common_ancestor.
  rewrite Hfirst, Hsecond. cbn [bind].
  rewrite rev_app_distr. simpl rev. cbn [app find].
  apply contains_In in Hroot. rewrite Hroot.
  now apply (return_to_lca_loop_to_root root fuel st above).
Qed.

Lemma return_to_lca_is_return_to_start_witness :
  return_to_lca 100 detour_state (1, 1) = return_to_start 100 detour_state.
Proof.
  apply (return_to_lca_is_return_to_start 100 detour_state (1, 1) (0, 0)
           [(0, 2); (0, 1)] [(1, 1); (0, 1); (0, 0)]).
  - vm_compute. reflexivity.
  - vm_compute. reflexivity.
  - simpl. auto.
Defined.

(** *** What the search keeps true of its state *)

Lemma neighbour_sym (a b : cell_ptr) : neighbour a b = neighbour b a.
Proof.
  unfold neighbour. f_equal. lia.
Qed.

Lemma neighbour_refl (a : cell_ptr) : neighbour a a = true.
Proof. unfold neighbour. apply Z.ltb_lt. lia. Qed.

Lemma neighbour_distance (a b : cell_ptr) :
  neighbour a b = true ->
  manhattan_distance 0 0 (ptr_n b) (ptr_m b)
  <= manhattan_distance 0 0 (ptr_n a) (ptr_m a) + 1.
Proof.
  unfold neighbour, manhattan_distance. rewrite Z.ltb_lt. lia.
Qed.

Lemma last_app_last {A : Type} (l1 l2 : list A) (d : A) :
  last (l1 ++ l2) d = last l2 (last l1 d).
Proof.
  revert d. induction l1 as [| a l1 IH]; intros d; [reflexivity|].
  simpl app. rewrite !last_cons. apply IH.
Qed.

Lemma last_rev_hd {A : Type} (l : list A) (d : A) :
  last (rev l) d = hd d l.
Proof.
  destruct l as [| a l]; [reflexivity|]. simpl. now rewrite last_last.
Qed.

Lemma hops_stepwise (a : cell_ptr) (cells : list cell_ptr) :
  in_table a -> hops a cells -> stepwise (a :: cells).
Proof.
  revert a. induction cells as [| c cells IH]; intros a Ha H.
  - simpl. auto.
  - destruct H as (Hn & Hc & Hrest).
    split; [exact Ha|]. split; [exact Hn|]. now apply IH.
Qed.

Lemma stepwise_hops (l cells : list cell_ptr) (d : cell_ptr) :
  stepwise l -> l <> [] -> hops (last l d) cells -> stepwise (l ++ cells).
Proof.
  induction l as [| a l IH]; intros Hs Hne Hh; [congruence|].
  destruct l as [| b l].
  - simpl in *. apply hops_stepwise; tauto.
  - rewrite !last_cons in Hh. rewrite <- (last_cons b d l) in Hh.
    destruct Hs as (Ha & Hab & Hrest).
    change ((a :: b :: l) ++ cells) with (a :: ((b :: l) ++ cells)).
    split; [exact Ha|]. split; [exact Hab|].
    apply IH; [exact Hrest | discriminate | exact Hh].
Qed.

Lemma hops_app (a : cell_ptr) (l1 l2 : list cell_ptr) :
  hops a l1 -> hops (last l1 a) l2 -> hops a (l1 ++ l2).
Proof.
  revert a. induction l1 as [| c l1 IH]; intros a H1 H2; [exact H2|].
  destruct H1 as (Hn & Hc & Hrest). rewrite last_cons in H2.
  simpl. repeat split; auto.
Qed.

Lemma hops_last_in_table (a : cell_ptr) (cells : list cell_ptr) :
  in_table a -> hops a cells -> in_table (last cells a).
Proof.
  revert a. induction cells as [| c cells IH]; intros a Ha H; [exact Ha|].
  destruct H as (_ & Hc & Hrest). rewrite last_cons. now apply IH.
Qed.

Lemma astar_well_formed_skipn (k : nat) (inp : list response) :
  BacktrackingAux.well_formed inp ->
  BacktrackingAux.well_formed (skipn k inp).
Proof.
  unfold BacktrackingAux.well_formed. revert inp.
  induction k as [| k IH]; intros inp H; [exact H|].
  destruct inp as [| r inp]; [exact H|]. inversion H; subst. now apply IH.
Qed.

Section TableOk.

Variable t : game_table.
Variable o : cell_priority_queue.
Variable n : Z.
Hypothesis Hok : table_ok t o n.

Lemma rooted_cost_nonneg (p : cell_ptr) :
  rooted t p -> 0 <= from_player_cost (t p).
Proof.
  intros Hr. pose proof (ok_lower _ _ _ Hok p Hr) as H.
  unfold manhattan_distance in H. lia.
Qed.

(** Walking down the parent links of a cell. *)
Lemma hops_linked (c : cell_ptr) (back : list cell_ptr) :
  linked t (c :: back) -> hops c back.
Proof.
  revert c. induction back as [| b back IH]; intros c H; [exact I|].
  destruct H as [Hp Hl].
  destruct (ok_link _ _ _ Hok c b Hp) as (_ & _ & Hn & Hb & _).
  simpl. rewrite neighbour_sym. auto.
Qed.

(** Walking a chain of parent links upward, from its last cell. *)
Lemma hops_reverse (body : list cell_ptr) (root : cell_ptr) :
  linked t (body ++ [root]) -> hops root (rev body).
Proof.
  induction body as [| a body IH]; intros H; [exact I|].
  assert (Hrest : linked t (body ++ [root])).
  { apply (linked_suffix t [a]). exact H. }
  simpl rev. apply hops_app; [now apply IH|].
  rewrite last_rev_hd.
  assert (Hp : parent (t a) = Some (hd root body)).
  { simpl in H. destruct body as [| b body]; simpl in *; apply H. }
  destruct (ok_link _ _ _ Hok a _ Hp) as (_ & _ & Hn & _ & Ha).
  simpl. auto.
Qed.

(** The parent chain of a rooted cell is never longer than its cost plus
    one. *)
Lemma path_exists (k : nat) :
  forall p, rooted t p -> from_player_cost (t p) <= Z.of_nat k ->
  exists l, path (S k) t (Some p) = Ok l.
Proof.
  induction k as [| k IH]; intros p Hr Hc.
  - destruct (parent (t p)) as [q|] eqn:Hp.
    + destruct (ok_link _ _ _ Hok p q Hp) as (Hq & Hlt & _).
      pose proof (rooted_cost_nonneg q Hq). lia.
    + exists [p]. simpl. now rewrite Hp.
  - destruct (parent (t p)) as [q|] eqn:Hp.
    + destruct (ok_link _ _ _ Hok p q Hp) as (Hq & Hlt & _).
      destruct (IH q Hq) as [l Hl]; [lia|].
      exists (p :: l).
      change (path (S (S k)) t (Some p))
        with (bind (path (S k) t (parent (t p))) (fun r => Ok (p :: r))).
      now rewrite Hp, Hl.
    + exists [p].
      change (path (S (S k)) t (Some p))
        with (bind (path (S k) t (parent (t p))) (fun r => Ok (p :: r))).
      now rewrite Hp.
Qed.

(** A chain of parent links ends at the start cell. *)
Lemma linked_root (p : cell_ptr) (l : list cell_ptr) :
  rooted t p -> linked t (p :: l) -> last l p = (0, 0).
Proof.
  revert p. induction l as [| b l IH]; intros p Hr H.
  - simpl in *. destruct Hr as [-> | Hr]; [reflexivity | contradiction].
  - destruct H as [Hp Hl]. rewrite last_cons.
    destruct (ok_link _ _ _ Hok p b Hp) as (Hb & _).
    now apply IH.
Qed.

End TableOk.

Lemma closed_bound (st : state) :
  sound st -> (List.length (closed st) <= 81)%nat.
Proof.
  intros Hs. destruct (s_closed _ Hs) as [Hi Hn].
  rewrite <- all_cells_length. now apply NoDup_incl_length.
Qed.

Lemma rooted_cost_bound (st : state) (p : cell_ptr) :
  sound st -> rooted (table st) p ->
  0 <= from_player_cost (table st p) <= 81.
Proof.
  intros Hs Hr. pose proof (s_table _ Hs) as Hok.
  pose proof (rooted_cost_nonneg _ _ _ Hok p Hr) as H0.
  pose proof (closed_bound st Hs) as Hc.
  destruct (parent (table st p)) as [q|] eqn:Hp.
  - assert (Hb := ok_bound _ _ _ Hok p). rewrite Hp in Hb.
    specialize (Hb ltac:(discriminate)). lia.
  - destruct Hr as [-> | Hr]; [|contradiction].
    destruct (ok_start _ _ _ Hok) as [-> _]. lia.
Qed.

Lemma rooted_path (st : state) (gas : nat) (p : cell_ptr) :
  sound st -> (82 <= gas)%nat -> rooted (table st) p ->
  exists rest, path gas (table st) (Some p) = Ok (p :: rest)
               /\ linked (table st) (p :: rest)
               /\ last rest p = (0, 0).
Proof.
  intros Hs Hgas Hr. pose proof (s_table _ Hs) as Hok.
  pose proof (rooted_cost_bound st p Hs Hr) as Hc.
  destruct (path_exists _ _ _ Hok 81 p Hr) as [l Hl]; [lia|].
  apply (path_mono_le 82 gas) in Hl; [|exact Hgas].
  destruct (path_linked _ _ _ _ Hl) as (rest & -> & Hlk).
  exists rest. repeat split; auto.
  now apply (linked_root _ _ _ Hok).
Qed.

(** A walk along neighbours leaves a sound state sound. *)
Lemma sound_after_walk (st st' : state) (cells : list cell_ptr) :
  sound st ->
  hops (cur_pos st) cells ->
  table st' = table st -> open st' = open st -> closed st' = closed st ->
  cur_pos st' = last cells (cur_pos st) ->
  input st' = skipn (List.length cells) (input st) ->
  output st' = output st ++ map request cells ->
  rooted (table st) (cur_pos st') ->
  In (0, 0) (closed st) \/ cur_pos st' = (0, 0) ->
  sound st'.
Proof.
  intros Hs Hh Ht Ho Hc Hp Hi Hout Hr Hf.
  destruct (s_trail _ Hs) as (cells0 & T1 & T2 & T3).
  constructor.
  - rewrite Ht, Ho, Hc. apply (s_table _ Hs).
  - rewrite Hc, Ho. destruct Hf as [Hf | Hf]; [now left|].
    destruct (s_first _ Hs) as [H1 | [_ H1]]; [now left|]. right. auto.
  - rewrite Hc. apply (s_closed _ Hs).
  - rewrite Ht. split; [exact Hr|]. rewrite Hp.
    apply hops_last_in_table; [apply (s_pos _ Hs) | exact Hh].
  - rewrite Hi. apply astar_well_formed_skipn. apply (s_input _ Hs).
  - exists (cells0 ++ cells). split; [|split].
    + now rewrite Hout, T1, map_app.
    + change ((0, 0) :: cells0 ++ cells) with (((0, 0) :: cells0) ++ cells).
      apply (stepwise_hops _ _ (0, 0)); [exact T2 | discriminate|].
      rewrite last_cons, T3. exact Hh.
    + rewrite last_app_last, T3. now symmetry.
Qed.

Lemma return_to_start_sound (gas : nat) (st : state) :
  sound st -> (82 <= gas)%nat ->
  exists st1,
    return_to_start gas st = Ok st1 /\ sound st1 /\ cur_pos st1 = (0, 0)
    /\ table st1 = table st /\ open st1 = open st /\ closed st1 = closed st.
Proof.
  intros Hs Hgas. pose proof (s_table _ Hs) as Hok.
  destruct (s_pos _ Hs) as [Hr Hin].
  destruct (rooted_path st gas (cur_pos st) Hs Hgas Hr)
    as (back & Hp & Hl & Hlast).
  apply path_Some in Hp as (f & rest & Hf & Hrest & Hchain).
  inversion Hrest; subst rest. subst gas.
  apply path_mono in Hchain.
  pose proof (return_to_start_walks_chain _ _ _ Hchain) as Hret.
  destruct (fold_stupid_move back st) as (Bt & Bo & Bc & Bs & Bp & Bi & Bout).
  exists (fold_left stupid_move back st).
  split; [exact Hret|]. split; [|rewrite Bp; auto].
  apply (sound_after_walk st _ back); auto.
  - now apply (hops_linked _ _ _ Hok).
  - rewrite Bp, Hlast. now left.
  - right. now rewrite Bp.
Qed.

Lemma forward_walk_sound (gas : nat) (st : state) (q0 : cell_ptr) (b : bool) :
  sound st -> (82 <= gas)%nat ->
  cur_pos st = (0, 0) -> In (0, 0) (closed st) ->
  rooted (table st) q0 ->
  exists st1,
    stupid_move_to_known_target gas (set_shield st b) (Some q0) = Ok st1
    /\ sound st1 /\ cur_pos st1 = q0
    /\ table st1 = table st /\ open st1 = open st /\ closed st1 = closed st.
Proof.
  intros Hs Hgas Hcur Hfirst Hr. pose proof (s_table _ Hs) as Hok.
  destruct (rooted_path st gas q0 Hs Hgas Hr) as (rest & Hp & Hl & Hlast).
  unfold stupid_move_to_known_target. simpl table. rewrite Hp. cbn [bind].
  assert (Hsplit : q0 :: rest = removelast (q0 :: rest) ++ [(0, 0)]).
  { rewrite <- Hlast, <- (last_cons q0 q0 rest).
    apply app_removelast_last. discriminate. }
  remember (removelast (q0 :: rest)) as body eqn:Hbody. clear Hbody.
  rewrite Hsplit, rev_app_distr. simpl rev. cbn [app].
  destruct (fold_walk_step (rev body) (set_shield st b))
    as (Wt & Wo & Wc & Ws & Wp & Wi & Wout).
  simpl in Wt, Wo, Wc, Wp, Wi, Wout.
  assert (Hend : last (rev body) (cur_pos st) = q0).
  { rewrite last_rev_hd, Hcur. destruct body as [| x body'].
    - simpl in Hsplit. inversion Hsplit. reflexivity.
    - simpl in Hsplit. inversion Hsplit. reflexivity. }
  exists (fold_left walk_step (rev body) (set_shield st b)).
  split; [reflexivity|]. split; [|rewrite Wp, Hend; auto].
  apply (sound_after_walk st _ (rev body)); auto.
  - rewrite Hcur. apply (hops_reverse _ _ _ Hok).
    rewrite Hsplit in Hl. exact Hl.
  - now rewrite Wp, Hend.
Qed.

(** The reconciliation block: afterwards the agent stands next to [best]. *)
Lemma reconcile_sound (gas : nat) (st : state) (best : cell_ptr) :
  sound st -> (82 <= gas)%nat ->
  rooted (table st) best -> ~ In best (closed st) ->
  In (0, 0) (closed st) \/ (best = (0, 0) /\ cur_pos st = (0, 0)) ->
  exists st1,
    reconcile gas st best = Ok st1 /\ sound st1
    /\ neighbour (cur_pos st1) best = true
    /\ table st1 = table st /\ open st1 = open st /\ closed st1 = closed st.
Proof.
  intros Hs Hgas Hr Hfresh Hcase. unfold reconcile.
  destruct (neighbour (cur_pos st) best) eqn:Hn; simpl negb; cbv iota.
  - exists st. split; [reflexivity|]. split; [exact Hs|].
    split; [exact Hn | auto].
  - pose proof (s_table _ Hs) as Hok.
    assert (Hfirst : In (0, 0) (closed st)).
    { destruct Hcase as [H | [Hb Hc]]; [exact H|].
      rewrite Hb, Hc, neighbour_refl in Hn. discriminate. }
    assert (Hq : exists q0, parent (table st best) = Some q0).
    { destruct (parent (table st best)) as [q0|] eqn:Hq; [now exists q0|].
      destruct Hr as [Hb | Hr]; [|contradiction].
      exfalso. apply Hfresh. now rewrite Hb. }
    destruct Hq as [q0 Hq].
    destruct (ok_link _ _ _ Hok best q0 Hq) as (Hq0 & _ & Hnq & _ & Hbt).
    destruct (return_to_start_sound gas st Hs Hgas)
      as (sb & Hret & Hsb & Hpb & Htb & Hob & Hcb).
    rewrite Hret. cbn [bind]. simpl table. rewrite Htb, Hq.
    destruct (forward_walk_sound gas sb q0 false Hsb Hgas Hpb)
      as (s1 & Hfw & Hs1 & Hp1 & Ht1 & Ho1 & Hc1).
    + now rewrite Hcb.
    + now rewrite Htb.
    + exists s1. split; [exact Hfw|]. split; [exact Hs1|].
      rewrite Hp1. split; [exact Hnq|]. repeat split; congruence.
Qed.

Lemma rooted_dec_update (t : game_table) (c best : cell_ptr) (nc : cell)
    (p : cell_ptr) :
  parent nc = Some best ->
  (rooted t p -> rooted (update t c nc) p)
  /\ (rooted (update t c nc) p -> p = c \/ rooted t p).
Proof.
  intros Hnc. unfold rooted, update.
  destruct (ptr_eqb p c) eqn:E.
  - apply ptr_eqb_eq in E. subst p. rewrite Hnc. split.
    + intros _. right. discriminate.
    + intros _. now left.
  - split; [auto | intros H; now right].
Qed.

(** One neighbour of the expanded cell [best]. *)
Lemma expand_cell_ok (best : cell_ptr) (tn tm : Z) (t : game_table)
    (o : cell_priority_queue) (n cn cm : Z) :
  table_ok t o n ->
  rooted t best -> in_table best ->
  from_player_cost (t best) + 1 <= n ->
  neighbour best (cn, cm) = true ->
  let r := update_then_check_cell best tn tm (t, o) cn cm in
  table_ok (fst r) (snd r) n
  /\ rooted (fst r) best
  /\ from_player_cost (fst r best) = from_player_cost (t best).
Proof.
  intros Hok Hrb Hib Hn Hadj. unfold update_then_check_cell.
  destruct (in_borders cn cm && negb (dangerous_status (t (cn, cm)))) eqn:Hc;
    [|simpl; auto].
  destruct (from_player_cost (t best) + 1 <? from_player_cost (t (cn, cm)))
    eqn:Hlt; [|simpl; auto].
  apply andb_true_iff in Hc as [Hcb _]. apply Z.ltb_lt in Hlt.
  pose proof (rooted_cost_nonneg _ _ _ Hok best Hrb) as Hb0.
  destruct (ok_start _ _ _ Hok) as [H00 Hp00].
  set (c := (cn, cm)) in *.
  set (nc := mk_cell (from_player_cost (t best) + 1)
               (manhattan_distance cn cm tn tm) (cell_status (t c))
               (Some best) (possibly_picked_by (t c))).
  assert (Hcb' : c <> best) by (intros E; rewrite E in Hlt; lia).
  assert (Hc0 : c <> (0, 0)) by (intros E; rewrite E, H00 in Hlt; lia).
  assert (Hsame : update t c nc c = nc) by apply update_same.
  assert (Hoth : forall p, p <> c -> update t c nc p = t p)
    by (intros p Hp; now apply update_other).
  assert (Hroot := fun p => rooted_dec_update t c best nc p eq_refl).
  assert (Hle : forall p, from_player_cost (update t c nc p)
                          <= from_player_cost (t p)).
  { intros p. destruct (ptr_eqb p c) eqn:E.
    - apply ptr_eqb_eq in E. subst p. rewrite Hsame. simpl. lia.
    - apply ptr_eqb_neq in E. rewrite Hoth by exact E. lia. }
  cbn [fst snd]. split; [|split].
  - constructor.
    + rewrite Hoth by congruence. auto.
    + intros p q Hpq. destruct (ptr_eqb p c) eqn:E.
      * apply ptr_eqb_eq in E. subst p. rewrite Hsame in *. simpl in Hpq.
        inversion Hpq; subst q. rewrite (Hoth best) by congruence.
        simpl. repeat split; auto; try lia.
        now apply Hroot.
      * apply ptr_eqb_neq in E. rewrite (Hoth p) in * by exact E.
        destruct (ok_link _ _ _ Hok p q Hpq) as (L1 & L2 & L3 & L4 & L5).
        repeat split; auto.
        -- now apply Hroot.
        -- specialize (Hle q). lia.
    + intros p Hp. destruct (ptr_eqb p c) eqn:E.
      * apply ptr_eqb_eq in E. subst p. rewrite Hsame. simpl. lia.
      * apply ptr_eqb_neq in E. rewrite (Hoth p) in * by exact E.
        now apply (ok_bound _ _ _ Hok).
    + intros p Hp. destruct (ptr_eqb p c) eqn:E.
      * apply ptr_eqb_eq in E. subst p. rewrite Hsame. simpl.
        pose proof (ok_lower _ _ _ Hok best Hrb) as Hlb.
        pose proof (neighbour_distance best c Hadj) as Hd.
        unfold manhattan_distance, ptr_n, ptr_m, c in Hd, Hlb |- *.
        cbn [fst snd] in Hd, Hlb |- *. lia.
      * apply ptr_eqb_neq in E. rewrite (Hoth p) by exact E.
        apply (ok_lower _ _ _ Hok). apply Hroot in Hp as [Hp | Hp]; tauto.
    + intros p Hp. destruct (ptr_eqb p c) eqn:E.
      * apply ptr_eqb_eq in E. subst p. exfalso. apply Hp.
        right. rewrite Hsame. discriminate.
      * apply ptr_eqb_neq in E. rewrite (Hoth p) by exact E.
        apply (ok_fresh _ _ _ Hok). intros Hr. apply Hp. now apply Hroot.
    + intros x Hx. apply open_insert_mem in Hx as [-> | Hx].
      * split; [exact Hcb|]. right. rewrite Hsame. discriminate.
      * apply open_erase_mem in Hx as [Hx _].
        destruct (ok_open _ _ _ Hok x Hx) as [X1 X2].
        split; [exact X1 | now apply Hroot].
  - now apply Hroot.
  - now rewrite Hoth by congruence.
Qed.

Lemma open_neighbours_ok (best : cell_ptr) (tn tm : Z) (t : game_table)
    (o : cell_priority_queue) (n : Z) :
  table_ok t o n ->
  rooted t best -> in_table best ->
  from_player_cost (t best) + 1 <= n ->
  let r := open_neighbours best tn tm (t, o) in
  table_ok (fst r) (snd r) n /\ rooted (fst r) best.
Proof.
  intros Hok Hrb Hib Hn. unfold open_neighbours.
  assert (step : forall x cn cm,
            table_ok (fst x) (snd x) n /\ rooted (fst x) best
            /\ from_player_cost (fst x best) = from_player_cost (t best) ->
            neighbour best (cn, cm) = true ->
            let r := update_then_check_cell best tn tm x cn cm in
            table_ok (fst r) (snd r) n /\ rooted (fst r) best
            /\ from_player_cost (fst r best) = from_player_cost (t best)).
  { intros [tx ox] cn cm (X1 & X2 & X3) Hadj. simpl in X1, X2, X3.
    destruct (expand_cell_ok best tn tm tx ox n cn cm X1 X2 Hib) as (A & B & C);
      [lia | exact Hadj|].
    split; [exact A|]. split; [exact B|]. now rewrite C. }
  assert (Hadj : forall cn cm,
            Z.abs (ptr_n best - cn) + Z.abs (ptr_m best - cm) = 1 ->
            neighbour best (cn, cm) = true).
  { intros cn cm Hd. unfold neighbour, ptr_n, ptr_m in *. simpl.
    apply Z.ltb_lt. lia. }
  assert (H4 : table_ok (fst (t, o)) (snd (t, o)) n /\ rooted (fst (t, o)) best
               /\ from_player_cost (fst (t, o) best) = from_player_cost (t best))
    by (simpl; auto).
  pose proof (step _ (ptr_n best - 1) (ptr_m best) H4
                (Hadj (ptr_n best - 1) (ptr_m best) ltac:(lia))) as H5.
  pose proof (step _ (ptr_n best + 1) (ptr_m best) H5
                (Hadj (ptr_n best + 1) (ptr_m best) ltac:(lia))) as H6.
  pose proof (step _ (ptr_n best) (ptr_m best - 1) H6
                (Hadj (ptr_n best) (ptr_m best - 1) ltac:(lia))) as H7.
  pose proof (step _ (ptr_n best) (ptr_m best + 1) H7
                (Hadj (ptr_n best) (ptr_m best + 1) ltac:(lia))) as H8.
  cbv zeta in H8. destruct H8 as (A & B & _). split; assumption.
Qed.


Lemma table_ok_ext (t t' : game_table) (o o' : cell_priority_queue)
    (n n' : Z) :
  table_ok t o n ->
  (forall p, from_player_cost (t' p) = from_player_cost (t p)
             /\ parent (t' p) = parent (t p)) ->
  incl o' o -> n <= n' ->
  table_ok t' o' n'.
Proof.
  intros Hok Hfr Ho Hn.
  assert (Hc : forall p, from_player_cost (t' p) = from_player_cost (t p))
    by (intros p; apply Hfr).
  assert (Hp : forall p, parent (t' p) = parent (t p))
    by (intros p; apply Hfr).
  assert (Hr : forall p, rooted t' p <-> rooted t p)
    by (intros p; unfold rooted; now rewrite Hp).
  constructor.
  - rewrite Hc, Hp. apply (ok_start _ _ _ Hok).
  - intros p q Hpq. rewrite Hp in Hpq. rewrite Hr, !Hc.
    apply (ok_link _ _ _ Hok p q Hpq).
  - intros p Hpp. rewrite Hp in Hpp. rewrite Hc.
    pose proof (ok_bound _ _ _ Hok p Hpp). lia.
  - intros p Hrp. rewrite Hc. apply (ok_lower _ _ _ Hok). now apply Hr.
  - intros p Hrp. rewrite Hc. apply (ok_fresh _ _ _ Hok).
    intros H. apply Hrp. now apply Hr.
  - intros c Hc'. destruct (ok_open _ _ _ Hok c (Ho c Hc')) as [A B].
    split; [exact A | now apply Hr].
Qed.

(** The closed set stays a duplicate-free set of table cells. *)
Lemma apply_events_closed (mode : Z) (evs : response) :
  forall (t t' : game_table) (cl cl' : restricted_cells),
  apply_events mode (t, cl) evs = Ok (t', cl') ->
  incl cl all_cells -> NoDup cl ->
  incl cl' all_cells /\ NoDup cl'.
Proof.
  induction evs as [| e evs IH]; intros t t' cl cl' H Hi Hn.
  - simpl in H. inversion H; subst. auto.
  - simpl in H. apply bind_Ok in H as [[t1 cl1] [H1 H2]].
    apply (IH _ _ _ _ H2).
    + unfold apply_event in H1.
      destruct (in_borders (ev_n e) (ev_m e)) eqn:Hb; [|discriminate].
      inversion H1; subst; clear H1.
      destruct (dangerous_status _); [|exact Hi].
      intros x Hx. apply set_insert_In in Hx as [-> | Hx]; [|now apply Hi].
      now apply all_cells_In.
    + unfold apply_event in H1.
      destruct (in_borders (ev_n e) (ev_m e)) eqn:Hb; [|discriminate].
      inversion H1; subst; clear H1.
      destruct (dangerous_status _); [|exact Hn].
      now apply set_insert_NoDup.
Qed.

Lemma set_insert_fresh_length (s : restricted_cells) (c : cell_ptr) :
  ~ In c s -> List.length (set_insert s c) = S (List.length s).
Proof.
  intros H. unfold set_insert. apply contains_false in H. now rewrite H.
Qed.

(** The move onto [best] and the expansion of [best]. *)
Lemma move_then_update_sound (st : state) (best : cell_ptr) (tn tm mode : Z) :
  sound st ->
  rooted (table st) best -> in_table best -> ~ In best (closed st) ->
  neighbour (cur_pos st) best = true ->
  In (0, 0) (closed st) \/ best = (0, 0) ->
  exists found st1,
    move_then_update st best tn tm mode = Ok (found, st1)
    /\ if found then settled st1
       else sound st1
            /\ (List.length (closed st) < List.length (closed st1))%nat.
Proof.
  intros Hs Hr Hin Hfresh Hnb Hfirst.
  pose proof (s_table _ Hs) as Hok.
  destruct (s_trail _ Hs) as (cells & T1 & T2 & T3).
  destruct (s_closed _ Hs) as [Hci Hcn].
  assert (Hwalk : stepwise ((0, 0) :: cells ++ [best])).
  { change ((0, 0) :: cells ++ [best]) with (((0, 0) :: cells) ++ [best]).
    apply (stepwise_hops _ _ (0, 0)); [exact T2 | discriminate|].
    rewrite last_cons, T3. simpl. auto. }
  assert (Hout : output st ++ [MoveReq (ptr_m best) (ptr_n best)]
                 = map request (cells ++ [best])).
  { now rewrite T1, map_app. }
  unfold move_then_update. simpl table.
  destruct (cell_status (table st best) =? "I")%char.
  - exists true. eexists. split; [reflexivity|]. split.
    + exists (cells ++ [best]). simpl output. auto.
    + exists (Z.of_nat (List.length (closed st))). simpl.
      split; [exact Hok|]. pose proof (closed_bound st Hs). lia.
  - simpl input. simpl closed. simpl open. simpl has_shield. simpl output.
    pose proof (s_input _ Hs) as Hwf. unfold BacktrackingAux.well_formed in Hwf.
    assert (Hevs : Forall in_range (fst (read_response (input st)))
                   /\ BacktrackingAux.well_formed
                        (snd (read_response (input st)))).
    { destruct (input st) as [| r rest]; simpl.
      - split; constructor.
      - inversion Hwf; subst. auto. }
    destruct (read_response (input st)) as [evs rest]. simpl in Hevs.
    destruct Hevs as [Hevs Hrest].
    destruct (apply_events_in_range mode evs (table st)
                (set_insert (closed st) best) Hevs) as (t1 & cl1 & He).
    rewrite He. cbn [bind].
    destruct (apply_events_frame _ _ _ _ _ _ He) as [Hincl Hfr].
    destruct (apply_events_closed _ _ _ _ _ _ He) as [Hci1 Hcn1].
    { intros x Hx. apply set_insert_In in Hx as [-> | Hx]; [|now apply Hci].
      now apply all_cells_In. }
    { now apply set_insert_NoDup. }
    assert (Hlen : (S (List.length (closed st)) <= List.length cl1)%nat).
    { rewrite <- (set_insert_fresh_length _ _ Hfresh).
      apply NoDup_incl_length; [now apply set_insert_NoDup | exact Hincl]. }
    assert (Hok1 : table_ok t1 (open st) (Z.of_nat (List.length cl1))).
    { apply (table_ok_ext (table st) t1 (open st) (open st)
               (Z.of_nat (List.length (closed st)))); auto.
      - intros p. destruct (Hfr p) as (A & _ & B & _). auto.
      - apply incl_refl.
      - lia. }
    assert (Hr1 : rooted t1 best).
    { unfold rooted in *. destruct (Hfr best) as (_ & _ & B & _).
      now rewrite B. }
    assert (Hcost : from_player_cost (t1 best) + 1
                    <= Z.of_nat (List.length cl1)).
    { destruct (Hfr best) as (A & _). rewrite A.
      destruct (parent (table st best)) as [q|] eqn:Hp.
      - assert (Hb := ok_bound _ _ _ Hok best). rewrite Hp in Hb.
        specialize (Hb ltac:(discriminate)). lia.
      - destruct Hr as [-> | Hr]; [|contradiction].
        destruct (ok_start _ _ _ Hok) as [-> _]. lia. }
    pose proof (open_neighbours_ok best tn tm t1 (open st) _ Hok1 Hr1 Hin Hcost)
      as Hexp.
    cbv zeta in Hexp.
    destruct (open_neighbours best tn tm (t1, open st)) as [t2 o2].
    simpl in Hexp. destruct Hexp as [Hok2 Hr2].
    exists false. eexists. split; [reflexivity|]. split.
    + constructor; simpl.
      * exact Hok2.
      * left. apply Hincl. apply set_insert_In.
        destruct Hfirst as [H | H]; [now right | left; now symmetry].
      * auto.
      * auto.
      * exact Hrest.
      * exists (cells ++ [best]). split; [exact Hout|]. split; [exact Hwalk|].
        now rewrite last_last.
    + simpl. lia.
Qed.

Lemma sound_with_open (st : state) (o1 : cell_priority_queue) :
  sound st -> incl o1 (open st) -> sound (with_open st o1).
Proof.
  intros Hs Hi. constructor; simpl.
  - apply (table_ok_ext (table st) (table st) (open st) o1 _ _ (s_table _ Hs));
      auto; lia.
  - destruct (s_first _ Hs) as [H | [H1 H2]]; [now left|]. right. auto.
  - apply (s_closed _ Hs).
  - apply (s_pos _ Hs).
  - apply (s_input _ Hs).
  - apply (s_trail _ Hs).
Qed.

(** One turn of the main loop: the frontier turns out to hold closed cells
    only, or the stone is found, or the closed set grows. *)
Lemma iteration_sound (gas : nat) (st : state) (tn tm mode : Z) :
  sound st -> (82 <= gas)%nat ->
  a_star_iteration gas st tn tm mode = Err EmptyFrontier
  \/ exists found st1,
       a_star_iteration gas st tn tm mode = Ok (found, st1)
       /\ if found then settled st1
          else sound st1
               /\ (List.length (closed st) < List.length (closed st1))%nat.
Proof.
  intros Hs Hgas. unfold a_star_iteration.
  destruct (extract_best (open st) (closed st)) as [[best o1] | e] eqn:He.
  - right. cbn [bind].
    apply extract_best_split in He as (sk & Ho & Hsk & Hb).
    apply contains_false in Hb.
    assert (Hio : incl o1 (open st)).
    { intros x Hx. rewrite Ho. apply in_or_app. right. now right. }
    assert (Hbo : In best (open st)).
    { rewrite Ho. apply in_or_app. right. now left. }
    destruct (ok_open _ _ _ (s_table _ Hs) best Hbo) as [Hbt Hbr].
    pose proof (sound_with_open st o1 Hs Hio) as Hs1.
    assert (Hcase : In (0, 0) (closed st)
                    \/ (best = (0, 0) /\ cur_pos st = (0, 0))).
    { destruct (s_first _ Hs) as [H | [H1 H2]]; [now left|]. right. auto. }
    destruct (reconcile_sound gas (with_open st o1) best Hs1 Hgas Hbr Hb Hcase)
      as (st2 & Hrec & Hs2 & Hnb & Ht2 & Ho2 & Hc2).
    rewrite Hrec. cbn [bind].
    simpl in Ht2, Hc2.
    destruct (move_then_update_sound st2 best tn tm mode Hs2)
      as (found & st3 & Hm & Hres).
    + now rewrite Ht2.
    + exact Hbt.
    + now rewrite Hc2.
    + exact Hnb.
    + rewrite Hc2. destruct Hcase as [H | [H _]]; auto.
    + exists found, st3. split; [exact Hm|].
      destruct found; [exact Hres|]. now rewrite <- Hc2.
  - left. cbn [bind]. f_equal.
    clear - He. induction (open st) as [| b o IH]; simpl in He.
    + now inversion He.
    + destruct (contains (closed st) b); [auto | discriminate].
Qed.

Lemma sound_settled (st : state) : sound st -> settled st.
Proof.
  intros Hs. split.
  - destruct (s_trail _ Hs) as (cells & T1 & T2 & _). exists cells. auto.
  - exists (Z.of_nat (List.length (closed st))). split; [apply (s_table _ Hs)|].
    pose proof (closed_bound st Hs). lia.
Qed.

(** The main loop ends within 82 turns. *)
Lemma loop_sound (gas : nat) (tn tm mode : Z) :
  (82 <= gas)%nat ->
  forall fuel st,
  sound st -> (82 <= fuel + List.length (closed st))%nat ->
  a_star_loop gas fuel st tn tm mode = Err EmptyFrontier
  \/ exists found st1,
       a_star_loop gas fuel st tn tm mode = Ok (found, st1) /\ settled st1.
Proof.
  intros Hgas. induction fuel as [| fuel IH]; intros st Hs Hf.
  - pose proof (closed_bound st Hs). lia.
  - cbn [a_star_loop]. destruct (open st) as [| b o] eqn:Ho.
    + right. exists false, st. split; [reflexivity | now apply sound_settled].
    + destruct (iteration_sound gas st tn tm mode Hs Hgas)
        as [He | (found & st1 & Hi & Hres)].
      * left. now rewrite He.
      * rewrite Hi. cbn [bind]. destruct found.
        -- right. exists true, st1. auto.
        -- destruct Hres as [Hs1 Hlen]. apply IH; [exact Hs1 | lia].
Qed.

Lemma init_state_sound (tn tm : Z) (inp : list response) :
  in_borders tn tm = true -> (tn, tm) <> (0, 0) ->
  BacktrackingAux.well_formed inp ->
  sound (init_state tn tm inp).
Proof.
  intros Hb Hne Hwf.
  assert (H00 : init_game_table tn tm (0, 0) = new_cell 0
                  (manhattan_distance 0 0 tn tm) "A").
  { unfold init_game_table. rewrite update_other by congruence.
    apply update_same. }
  constructor; simpl.
  - constructor.
    + rewrite H00. auto.
    + intros p q H. rewrite init_game_table_parent in H. discriminate.
    + intros p H. rewrite init_game_table_parent in H. congruence.
    + intros p [-> | H].
      * rewrite H00. reflexivity.
      * rewrite init_game_table_parent in H. congruence.
    + intros p H. unfold init_game_table, update.
      destruct (ptr_eqb p (tn, tm)); [reflexivity|].
      destruct (ptr_eqb p (0, 0)) eqn:E; [|reflexivity].
      apply ptr_eqb_eq in E. exfalso. apply H. now left.
    + intros c [<- | []]. split; [reflexivity | now left].
  - right. split; [reflexivity|]. intros c [<- | []]. reflexivity.
  - split; [intros x [] | constructor].
  - split; [now left | reflexivity].
  - exact Hwf.
  - exists []. repeat split.
Qed.

(** The whole run from a well-formed oracle. *)
Lemma main_sound (gas fuel : nat) (mode tm tn : Z) (inp : list response) :
  (82 <= gas)%nat -> (82 <= fuel)%nat ->
  in_borders tn tm = true -> (tn, tm) <> (0, 0) ->
  BacktrackingAux.well_formed inp ->
  main gas fuel mode tm tn inp = Err EmptyFrontier
  \/ exists cells cost,
       main gas fuel mode tm tn inp = Ok (map request cells ++ [Exit cost])
       /\ stepwise ((0, 0) :: cells)
       /\ (cost = -1
           \/ manhattan_distance 0 0 tn tm <= cost <= 81
           \/ cost = INF).
Proof.
  intros Hgas Hfuel Hb Hne Hwf. unfold main. rewrite Hb.
  assert (Hlaunch : launch_a_star gas fuel (init_state tn tm inp) tn tm mode
                    = a_star_loop gas fuel (init_state tn tm inp) tn tm mode)
    by reflexivity.
  rewrite Hlaunch. clear Hlaunch.
  pose proof (init_state_sound tn tm inp Hb Hne Hwf) as Hs.
  destruct (loop_sound gas tn tm mode Hgas fuel (init_state tn tm inp) Hs)
    as [He | (found & st1 & Hl & Hset)].
  - simpl. lia.
  - left. now rewrite He.
  - right. rewrite Hl. cbn [bind].
    destruct Hset as [(cells & Hout & Hw) (n & Hok & Hn)].
    exists cells. destruct found.
    + exists (from_player_cost (table st1 (tn, tm))).
      split; [now rewrite Hout|]. split; [exact Hw|]. right.
      destruct (parent (table st1 (tn, tm))) as [q|] eqn:Hp.
      * left. split.
        -- apply (ok_lower _ _ _ Hok (tn, tm)). right. congruence.
        -- assert (H := ok_bound _ _ _ Hok (tn, tm)). rewrite Hp in H.
           specialize (H ltac:(discriminate)). lia.
      * right. apply (ok_fresh _ _ _ Hok). intros [H | H]; congruence.
    + exists (-1). split; [now rewrite Hout|]. split; [exact Hw|]. now left.
Qed.
(** *** Whole runs of the best-first program *)

(** With the stone on the start cell, [init_game_table] overwrites the start
    cell by the stone cell, whose cost is [INF]: the program requests the
    move onto (0,0), reads no response and reports 32767, whatever the
    oracle and the flag. *)
Theorem stone_on_start_reports_inf (gas fuel : nat) (mode : Z)
    (inp : list response) :
  main gas (S fuel) mode 0 0 inp = Ok [MoveReq 0 0; Exit INF].
Proof. reflexivity. Qed.

(** Under an oracle whose reports lie inside the table, a run toward a
    target other than the start cell ends: within 82 turns of the main loop
    and walks of at most 82 steps it prints its exit line, unless the
    extraction loop runs into the empty frontier.  No walk follows a null
    parent, no walk runs past the end of a path, no index leaves the
    table. *)
Theorem search_ends_or_empties_frontier (gas fuel : nat) (mode tm tn : Z)
    (inp : list response) :
  (82 <= gas)%nat -> (82 <= fuel)%nat ->
  in_borders tn tm = true -> (tn, tm) <> (0, 0) ->
  BacktrackingAux.well_formed inp ->
  main gas fuel mode tm tn inp = Err EmptyFrontier
  \/ exists out, main gas fuel mode tm tn inp = Ok out.
Proof.
  intros Hgas Hfuel Hb Hne Hwf.
  destruct (main_sound gas fuel mode tm tn inp Hgas Hfuel Hb Hne Hwf)
    as [H | (cells & cost & H & _)]; [now left | right; eauto].
Qed.

Lemma search_ends_or_empties_frontier_witness :
  main 82 82 0 8 8 walled_corner = Err EmptyFrontier
  \/ exists out, main 82 82 0 8 8 walled_corner = Ok out.
Proof.
  apply search_ends_or_empties_frontier.
  - apply Nat.le_refl.
  - apply Nat.le_refl.
  - reflexivity.
  - discriminate.
  - repeat constructor.
Defined.

Lemma main_Ok_sound (gas fuel : nat) (mode tm tn : Z) (inp : list response)
    (out : list line) :
  BacktrackingAux.well_formed inp ->
  main gas fuel mode tm tn inp = Ok out ->
  exists cells cost,
    out = map request cells ++ [Exit cost]
    /\ stepwise ((0, 0) :: cells)
    /\ (cost = -1
        \/ manhattan_distance 0 0 tn tm <= cost <= 81
        \/ cost = INF).
Proof.
  intros Hwf H.
  assert (Hb : in_borders tn tm = true).
  { unfold main in H. destruct (in_borders tn tm); [reflexivity|discriminate]. }
  destruct (ptr_eqb (tn, tm) (0, 0)) eqn:E.
  - apply ptr_eqb_eq in E. inversion E; subst tn tm.
    destruct fuel as [| fuel]; [discriminate|].
    change (main gas (S fuel) mode 0 0 inp)
      with (Ok [MoveReq 0 0; Exit INF]) in H.
    inversion H; subst out.
    exists [(0, 0)], INF. split; [reflexivity|]. split; [|auto].
    repeat split.
  - apply ptr_eqb_neq in E.
    apply (main_mono gas (gas + 82) fuel (fuel + 82)) in H; [|lia|lia].
    destruct (main_sound (gas + 82) (fuel + 82) mode tm tn inp) as
      [He | (cells & cost & Hm & Hw & Hc)]; auto; try lia.
    + rewrite He in H. discriminate.
    + rewrite Hm in H. inversion H; subst out. eauto.
Qed.

(** The move requests of a run are a walk on the grid: the first requested
    cell is the start cell or one of its neighbours, every later one is the
    cell requested before it or one of its neighbours, all of them lie
    inside the table, and the exit line comes last. *)
Theorem requests_walk_the_grid (gas fuel : nat) (mode tm tn : Z)
    (inp : list response) (out : list line) :
  BacktrackingAux.well_formed inp ->
  main gas fuel mode tm tn inp = Ok out ->
  exists cells cost,
    out = map request cells ++ [Exit cost] /\ stepwise ((0, 0) :: cells).
Proof.
  intros Hwf H.
  destruct (main_Ok_sound gas fuel mode tm tn inp out Hwf H)
    as (cells & cost & Ho & Hw & _).
  eauto.
Qed.

Lemma requests_walk_the_grid_witness :
  exists cells cost,
    [MoveReq 0 0; MoveReq 1 0; MoveReq 1 1; Exit 2]
    = map request cells ++ [Exit cost]
    /\ stepwise ((0, 0) :: cells).
Proof.
  apply (requests_walk_the_grid 1 3 0 1 1 []).
  - constructor.
  - vm_compute. reflexivity.
Defined.

(** The cost in the exit line is -1, or lies between the Manhattan distance
    of the target from the start cell and 81, or is 32767 (the search
    stopped on a cell that carries the stone marker while the target cell
    was never opened). *)
Theorem reported_cost_is_bounded (gas fuel : nat) (mode tm tn : Z)
    (inp : list response) (out : list line) :
  BacktrackingAux.well_formed inp ->
  main gas fuel mode tm tn inp = Ok out ->
  exists moves cost,
    out = moves ++ [Exit cost]
    /\ (cost = -1
        \/ manhattan_distance 0 0 tn tm <= cost <= 81
        \/ cost = INF).
Proof.
  intros Hwf H.
  destruct (main_Ok_sound gas fuel mode tm tn inp out Hwf H)
    as (cells & cost & Ho & _ & Hc).
  eauto.
Qed.

Lemma reported_cost_is_bounded_witness :
  exists moves cost,
    [MoveReq 0 0; MoveReq 1 0; MoveReq 1 1; Exit 2] = moves ++ [Exit cost]
    /\ (cost = -1
        \/ manhattan_distance 0 0 1 1 <= cost <= 81
        \/ cost = INF).
Proof.
  apply (reported_cost_is_bounded 1 3 0 1 1 []).
  - constructor.
  - vm_compute. reflexivity.
Defined.
(** *** What the search reads of a status *)

Lemma same_view_refl (p : cell_ptr) (a : cell) : same_view a a.
Proof. repeat split. Qed.

Lemma apply_event_alike (mode : Z) (t1 t2 : game_table)
    (cl : restricted_cells) (e1 e2 : event) :
  alike e1 e2 ->
  table_rel (fun _ => same_view) t1 t2 ->
  res_rel (fun tc1 tc2 => table_rel (fun _ => same_view) (fst tc1) (fst tc2)
                          /\ snd tc1 = snd tc2)
          (apply_event mode (t1, cl) e1) (apply_event mode (t2, cl) e2).
Proof.
  intros (Hm & Hn & Hd & Hi) Ht. unfold apply_event. rewrite <- Hm, <- Hn.
  destruct (in_borders (ev_n e1) (ev_m e1)); simpl; [|reflexivity].
  rewrite !update_same. unfold dangerous_status. simpl cell_status.
  rewrite <- Hd. split; [|reflexivity].
  intros p. destruct (Ht p) as (Hg & Hh & Hp & Hdp & Hip).
  destruct (Ht (ev_n e1, ev_m e1)) as (Eg & Eh & Ep & _).
  unfold same_view, dangerous_status in *.
  destruct (_ && _ && _), (_ && _ && _); unfold update;
    destruct (ptr_eqb p (ev_n e1, ev_m e1)); simpl;
    repeat split; assumption.
Qed.

Lemma apply_events_alike (mode : Z) (evs1 evs2 : response) :
  Forall2 alike evs1 evs2 ->
  events_rel (fun _ => same_view) mode mode evs1 evs2.
Proof.
  unfold events_rel. induction 1 as [| e1 e2 evs1 evs2 He _ IH];
    intros t1 t2 cl Ht.
  - simpl. auto.
  - cbn [apply_events].
    pose proof (apply_event_alike mode t1 t2 cl e1 e2 He Ht) as Hev.
    destruct (apply_event mode (t1, cl) e1) as [[ta ca] | x1];
      destruct (apply_event mode (t2, cl) e2) as [[tb cb] | x2];
      simpl in Hev; try contradiction; cbn [bind].
    + destruct Hev as [Hab Hc]. subst cb. now apply IH.
    + exact Hev.
Qed.

(** The best-first program reads a reported status in two ways only: is it
    a hazard, and is it the stone marker.  Two oracles whose reports agree
    on the cells and on these two tests get the same requests and the same
    exit line, or the same failure; in particular a reported shield is
    treated like any harmless status, and the shield flag it raises is never
    read. *)
Theorem status_is_read_as_hazard_or_stone (gas fuel : nat) (mode tm tn : Z)
    (i1 i2 : list response) :
  alike_inputs i1 i2 ->
  main gas fuel mode tm tn i1 = main gas fuel mode tm tn i2.
Proof.
  intros Hi.
  apply (main_sim (fun _ => same_view) alike_inputs mode mode).
  - auto.
  - intros p a b g h par (Hg & Hh & Hp & Hd & HI). repeat split; assumption.
  - intros j1 j2 Hj. destruct Hj as [| r1 r2 j1 j2 Hr Hj]; simpl.
    + split; [apply apply_events_alike|]; constructor.
    + split; [now apply apply_events_alike | exact Hj].
  - intros p. apply (same_view_refl p).
  - exact Hi.
Qed.

Lemma status_is_read_as_hazard_or_stone_witness :
  main 82 82 0 3 3 shield_only = main 82 82 0 3 3 [ [neutral 1 0] ].
Proof.
  apply status_is_read_as_hazard_or_stone.
  repeat constructor.
Defined.

(** *** Progress of the main loop *)

(** A turn of the main loop that does not find the stone moves the agent
    onto a cell that was not closed and closes it; no cell leaves the closed
    set. *)
Theorem turn_closes_a_fresh_cell (gas : nat) (st st1 : state)
    (tn tm mode : Z) :
  a_star_iteration gas st tn tm mode = Ok (false, st1) ->
  ~ In (cur_pos st1) (closed st)
  /\ In (cur_pos st1) (open st)
  /\ In (cur_pos st1) (closed st1)
  /\ incl (closed st) (closed st1).
Proof.
  unfold a_star_iteration. intros H.
  apply bind_Ok in H as [[best o1] [He H]].
  apply bind_Ok in H as [st2 [Hr Hm]]. cbv beta iota zeta in Hm.
  apply extract_best_split in He as (sk & Ho & _ & Hb).
  apply contains_false in Hb.
  apply reconcile_frame in Hr as (_ & _ & Hc2).
  simpl in Hc2.
  unfold move_then_update in Hm. simpl table in Hm.
  destruct (cell_status (table st2 best) =? "I")%char; [discriminate|].
  simpl input in Hm. simpl closed in Hm.
  destruct (read_response (input st2)) as [evs rest].
  apply bind_Ok in Hm as [[t1 cl1] [Hev Hm]].
  destruct (open_neighbours best tn tm (t1, _)) as [t2 o2].
  inversion Hm; subst st1; clear Hm. simpl.
  apply apply_events_frame in Hev as [Hincl _].
  split; [exact Hb|]. split; [|split].
  - rewrite Ho. apply in_or_app. right. now left.
  - apply Hincl, set_insert_In. now left.
  - intros x Hx. apply Hincl, set_insert_In. right. now rewrite Hc2.
Qed.

Lemma turn_closes_a_fresh_cell_witness :
  match a_star_iteration 0 (init_state 3 3 []) 3 3 0 with
  | Ok (false, st1) =>
      ~ In (cur_pos st1) (closed (init_state 3 3 []))
      /\ In (cur_pos st1) (closed st1)
  | _ => False
  end.
Proof.
  destruct (a_star_iteration 0 (init_state 3 3 []) 3 3 0)
    as [[[|] st1] | e] eqn:E.
  - assert (Hc : match a_star_iteration 0 (init_state 3 3 []) 3 3 0 with
                 | Ok (false, _) => true | _ => false end = true)
      by (vm_compute; reflexivity).
    rewrite E in Hc. discriminate.
  - destruct (turn_closes_a_fresh_cell 0 (init_state 3 3 []) st1 3 3 0 E)
      as (H1 & _ & H3 & _).
    split; assumption.
  - assert (Hc : match a_star_iteration 0 (init_state 3 3 []) 3 3 0 with
                 | Ok (false, _) => true | _ => false end = true)
      by (vm_compute; reflexivity).
    rewrite E in Hc. discriminate.
Defined.
(** *** Recorded paths and recorded costs *)

Lemma a_star_loop_mono (gas gas' fuel fuel' : nat) (tn tm mode : Z)
    (st : state) (r : bool * state) :
  (gas <= gas')%nat -> (fuel <= fuel')%nat ->
  a_star_loop gas fuel st tn tm mode = Ok r ->
  a_star_loop gas' fuel' st tn tm mode = Ok r.
Proof.
  intros Hg Hf H. induction Hg as [| g' _ IHg].
  - induction Hf as [| f' _ IHf]; [exact H|].
    now apply a_star_loop_mono_fuel.
  - now apply a_star_loop_mono_gas.
Qed.

Lemma linked_length (t : game_table) (o : cell_priority_queue) (n : Z) :
  table_ok t o n ->
  forall l p, rooted t p -> linked t (p :: l) ->
  Z.of_nat (List.length l) <= from_player_cost (t p).
Proof.
  intros Hok. induction l as [| b l IH]; intros p Hr Hl.
  - simpl. now apply (rooted_cost_nonneg t o n).
  - destruct Hl as [Hp Hl].
    destruct (ok_link _ _ _ Hok p b Hp) as (Hb & Hc & _).
    specialize (IH b Hb Hl).
    change (List.length (b :: l)) with (S (List.length l)). lia.
Qed.

Lemma run_settled (gas fuel : nat) (tn tm mode : Z) (inp : list response)
    (found : bool) (st : state) :
  in_borders tn tm = true -> (tn, tm) <> (0, 0) ->
  BacktrackingAux.well_formed inp ->
  a_star_loop gas fuel (init_state tn tm inp) tn tm mode = Ok (found, st) ->
  settled st.
Proof.
  intros Hb Hne Hwf H.
  apply (a_star_loop_mono gas (gas + 82) fuel (fuel + 82)) in H; [|lia|lia].
  pose proof (init_state_sound tn tm inp Hb Hne Hwf) as Hs.
  destruct (loop_sound (gas + 82) tn tm mode ltac:(lia) (fuel + 82)
              (init_state tn tm inp) Hs ltac:(lia))
    as [He | (found' & st' & Hl & Hset)].
  - rewrite He in H. discriminate.
  - rewrite Hl in H. inversion H; subst. exact Hset.
Qed.

(** The parent links recorded by the search are a real way back: in every
    state a run ends in, the recorded path of a cell that has a parent is a
    walk from neighbour to neighbour inside the table that ends on the
    start cell, and it has at most as many steps as the cell's recorded
    cost, which is at most 81. *)
Theorem recorded_path_walks_within_cost (gas fuel : nat) (tn tm mode : Z)
    (inp : list response) (found : bool) (st : state) (p : cell_ptr) :
  in_borders tn tm = true -> (tn, tm) <> (0, 0) ->
  BacktrackingAux.well_formed inp ->
  a_star_loop gas fuel (init_state tn tm inp) tn tm mode = Ok (found, st) ->
  parent (table st p) <> None ->
  exists rest,
    path 82 (table st) (Some p) = Ok (p :: rest)
    /\ hops p rest
    /\ last rest p = (0, 0)
    /\ Z.of_nat (List.length rest) <= from_player_cost (table st p) <= 81.
Proof.
  intros Hb Hne Hwf H Hp.
  destruct (run_settled gas fuel tn tm mode inp found st Hb Hne Hwf H)
    as [_ (n & Hok & Hn)].
  assert (Hr : rooted (table st) p) by now right.
  pose proof (ok_bound _ _ _ Hok p Hp) as Hc.
  destruct (path_exists _ _ _ Hok 81 p Hr) as [l Hl]; [lia|].
  destruct (path_linked _ _ _ _ Hl) as (rest & -> & Hlk).
  exists rest. split; [exact Hl|]. split; [|split].
  - now apply (hops_linked _ _ _ Hok).
  - now apply (linked_root _ _ _ Hok).
  - split; [now apply (linked_length _ _ _ Hok) | lia].
Qed.

Lemma recorded_path_walks_within_cost_witness :
  match a_star_loop 0 17 (init_state 3 3 []) 3 3 0 with
  | Ok (_, st) =>
      exists rest,
        path 82 (table st) (Some (3, 3)) = Ok ((3, 3) :: rest)
        /\ hops (3, 3) rest
        /\ last rest (3, 3) = (0, 0)
        /\ Z.of_nat (List.length rest)
           <= from_player_cost (table st (3, 3)) <= 81
  | Err _ => False
  end.
Proof.
  destruct (a_star_loop 0 17 (init_state 3 3 []) 3 3 0)
    as [[found st] | e] eqn:E.
  - apply (recorded_path_walks_within_cost 0 17 3 3 0 [] found st (3, 3)).
    + reflexivity.
    + discriminate.
    + constructor.
    + exact E.
    + assert (Hc : match a_star_loop 0 17 (init_state 3 3 []) 3 3 0 with
                   | Ok (_, s) =>
                       match parent (table s (3, 3)) with
                       | Some _ => true | None => false end
                   | Err _ => false end = true)
        by (vm_compute; reflexivity).
      rewrite E in Hc. destruct (parent (table st (3, 3))); discriminate.
  - assert (Hc : match a_star_loop 0 17 (init_state 3 3 []) 3 3 0 with
                 | Ok _ => true | Err _ => false end = true)
      by (vm_compute; reflexivity).
    rewrite E in Hc. discriminate.
Defined.
(** *** The states a run passes through *)

Lemma passes_trans (gas : nat) (tn tm mode : Z) (st s : state)
    (found : bool) (s' : state) :
  passes gas tn tm mode st false s ->
  passes gas tn tm mode s found s' ->
  passes gas tn tm mode st found s'.
Proof.
  intros H1 H2. induction H2 as [| x x1 b _ IH Ho Hi]; [exact H1|].
  exact (passes_turn gas tn tm mode st x x1 b IH Ho Hi).
Qed.

(** The state in which the loop returns is one of them. *)
Lemma loop_passes (gas fuel : nat) (tn tm mode : Z) :
  forall (st : state) (found : bool) (s' : state),
  a_star_loop gas fuel st tn tm mode = Ok (found, s') ->
  passes gas tn tm mode st found s'.
Proof.
  induction fuel as [| f IH]; intros st found s' H; simpl in H.
  - destruct (open st); [|discriminate]. inversion H; subst. constructor.
  - destruct (open st) as [| b o] eqn:Ho.
    + inversion H; subst. constructor.
    + apply bind_Ok in H as [[b1 s1] [Hi H]].
      assert (H1 : passes gas tn tm mode st b1 s1).
      { apply (passes_turn gas tn tm mode st st s1 b1); [constructor | | exact Hi].
        rewrite Ho. discriminate. }
      destruct b1.
      * inversion H; subst. exact H1.
      * apply (passes_trans gas tn tm mode st s1); [exact H1|].
        now apply IH.
Qed.

(** A run that fails fails in a turn started in one of them (or is cut
    short there by the bound of the model). *)
Lemma loop_fails_in_a_turn (gas fuel : nat) (tn tm mode : Z) :
  forall (st : state) (err : error),
  a_star_loop gas fuel st tn tm mode = Err err ->
  exists s,
    passes gas tn tm mode st false s /\ open s <> []
    /\ (err = OutOfFuel \/ a_star_iteration gas s tn tm mode = Err err).
Proof.
  induction fuel as [| f IH]; intros st err H; simpl in H.
  - destruct (open st) as [| b o] eqn:Ho; [discriminate|].
    inversion H; subst. exists st. split; [constructor|].
    split; [rewrite Ho; discriminate | now left].
  - destruct (open st) as [| b o] eqn:Ho; [discriminate|].
    assert (Hne : open st <> []) by (rewrite Ho; discriminate).
    destruct (a_star_iteration gas st tn tm mode) as [[b1 s1] | e1] eqn:Hi;
      cbn [bind] in H.
    + destruct b1; [discriminate|].
      destruct (IH s1 err H) as (s & Hp & Hs & Hr).
      exists s. split; [|split; assumption].
      apply (passes_trans gas tn tm mode st s1); [|exact Hp].
      apply (passes_turn gas tn tm mode st st s1 false);
        [constructor | exact Hne | exact Hi].
    + inversion H; subst. exists st. split; [constructor|].
      split; [exact Hne | now right].
Qed.

Lemma passes_sorted (gas : nat) (tn tm mode : Z) (st : state)
    (found : bool) (s : state) :
  sorted_open (table st) (open st) ->
  passes gas tn tm mode st found s ->
  sorted_open (table s) (open s).
Proof.
  intros Hs H. induction H as [| x x1 b _ IH Ho Hi]; [exact Hs|].
  exact (a_star_iteration_sorted _ _ _ _ _ _ _ IH Hi).
Qed.

(** The frontier is sorted under the comparator at every point of a run
    that starts with a sorted frontier, although the comparator reads costs
    that the search rewrites: at the top of every turn of the main loop and
    in the state in which the loop returns or fails; inside a turn, after
    the extraction, after the walks, after the response loop (which changes
    statuses only) and after the update of each neighbour (which erases the
    cell before its costs change and inserts it again afterwards).  So no
    operation of the ordered set meets a stale ordering. *)
Theorem frontier_stays_sorted (gas : nat) (tn tm mode : Z) (st : state) :
  sorted_open (table st) (open st) ->
  (forall found s,
     passes gas tn tm mode st found s -> sorted_open (table s) (open s))
  /\ (forall s best rest s2 evs cl t1 cl1,
        passes gas tn tm mode st false s ->
        extract_best (open s) (closed s) = Ok (best, rest) ->
        reconcile gas (with_open s rest) best = Ok s2 ->
        apply_events mode (table s2, cl) evs = Ok (t1, cl1) ->
        sorted_open (table s) rest
        /\ open s2 = rest
        /\ sorted_open (table s2) (open s2)
        /\ sorted_open t1 (open s2)
        /\ forall tq cn cm,
             sorted_open (fst tq) (snd tq) ->
             sorted_open (fst (update_then_check_cell best tn tm tq cn cm))
                         (snd (update_then_check_cell best tn tm tq cn cm)))
  /\ (forall fuel found s,
        a_star_loop gas fuel st tn tm mode = Ok (found, s) ->
        sorted_open (table s) (open s))
  /\ (forall fuel err,
        a_star_loop gas fuel st tn tm mode = Err err ->
        exists s,
          passes gas tn tm mode st false s
          /\ sorted_open (table s) (open s)
          /\ open s <> []
          /\ (err = OutOfFuel
              \/ a_star_iteration gas s tn tm mode = Err err)).
Proof.
  intros Hs. split; [|split; [|split]].
  - intros found s H. now apply (passes_sorted gas tn tm mode st found s).
  - intros s best rest s2 evs cl t1 cl1 Hp He Hr Hev.
    pose proof (passes_sorted gas tn tm mode st false s Hs Hp) as Hss.
    apply extract_best_split in He as (sk & Ho & _).
    assert (Hrest : sorted_open (table s) rest).
    { rewrite Ho in Hss. apply sorted_open_app_r in Hss.
      unfold sorted_open in *. now inversion Hss. }
    apply reconcile_frame in Hr as (Ht2 & Ho2 & _). simpl in Ht2, Ho2.
    apply apply_events_frame in Hev as [_ Hfr].
    split; [exact Hrest|]. split; [exact Ho2|].
    rewrite Ho2, Ht2. split; [exact Hrest|]. split.
    + apply (sorted_open_ext (table s) t1); [|exact Hrest].
      intros p. destruct (Hfr p) as (A & B & _). rewrite Ht2 in A, B. auto.
    + intros [t o] cn cm H. now apply update_then_check_cell_sorted.
  - intros fuel found s H.
    apply (passes_sorted gas tn tm mode st found s Hs).
    now apply (loop_passes gas fuel).
  - intros fuel err H.
    destruct (loop_fails_in_a_turn gas fuel tn tm mode st err H)
      as (s & Hp & Ho & Hr).
    exists s. split; [exact Hp|]. split; [|split; assumption].
    now apply (passes_sorted gas tn tm mode st false s).
Qed.

Lemma frontier_stays_sorted_witness :
  match a_star_loop 0 17 (init_state 3 3 []) 3 3 0 with
  | Ok (_, st') => sorted_open (table st') (open st')
  | Err _ => False
  end.
Proof.
  destruct (a_star_loop 0 17 (init_state 3 3 []) 3 3 0)
    as [[found st'] | e] eqn:E.
  - destruct (frontier_stays_sorted 0 3 3 0 (init_state 3 3 []))
      as (_ & _ & H & _); [repeat constructor|].
    exact (H 17%nat found st' E).
  - assert (Hc : match a_star_loop 0 17 (init_state 3 3 []) 3 3 0 with
                 | Ok _ => true | Err _ => false end = true)
      by (vm_compute; reflexivity).
    rewrite E in Hc. discriminate.
Defined.
(** *** Cells closed by a report *)

Lemma reconcile_output (gas : nat) (st st1 : state) (best : cell_ptr) :
  reconcile gas st best = Ok st1 ->
  exists cells, output st1 = output st ++ map request cells.
Proof.
  unfold reconcile. destruct (negb _).
  - intros H. apply bind_Ok in H as [sb [Hb H]].
    apply return_to_start_is_walk in Hb as [back ->].
    destruct (fold_stupid_move back st) as (_ & _ & _ & _ & _ & _ & Bout).
    unfold stupid_move_to_known_target in H.
    apply bind_Ok in H as [l [_ H]].
    destruct (rev l) as [| r forward]; [discriminate|].
    inversion H; subst.
    destruct (fold_walk_step forward
                (set_shield (fold_left stupid_move back st) false))
      as (_ & _ & _ & _ & _ & _ & Wout).
    simpl in Wout. exists (back ++ forward).
    now rewrite Wout, Bout, map_app, app_assoc.
  - intros H. inversion H. exists []. simpl. now rewrite app_nil_r.
Qed.

(** A turn only adds requests, and a turn that does not find the stone
    ends on the cell it has requested last. *)
Lemma iteration_output (gas : nat) (s s1 : state) (tn tm mode : Z)
    (found : bool) :
  a_star_iteration gas s tn tm mode = Ok (found, s1) ->
  (exists moves, output s1 = output s ++ moves)
  /\ (found = false -> In (request (cur_pos s1)) (output s1)).
Proof.
  unfold a_star_iteration. intros H.
  apply bind_Ok in H as [[best o1] [_ H]].
  apply bind_Ok in H as [s2 [Hr Hm]]. cbv beta iota zeta in Hm.
  apply reconcile_output in Hr as [cells Hout]. simpl in Hout.
  unfold move_then_update in Hm. simpl table in Hm.
  destruct (cell_status (table s2 best) =? "I")%char.
  - inversion Hm; subst. simpl. split; [|discriminate].
    exists (map request cells ++ [MoveReq (ptr_m best) (ptr_n best)]).
    now rewrite Hout, app_assoc.
  - simpl input in Hm. destruct (read_response (input s2)) as [evs rest].
    apply bind_Ok in Hm as [[t1 cl1] [_ Hm]].
    destruct (open_neighbours best tn tm (t1, _)) as [t2 o2].
    inversion Hm; subst. simpl. split.
    + exists (map request cells ++ [MoveReq (ptr_m best) (ptr_n best)]).
      now rewrite Hout, app_assoc.
    + intros _. apply in_or_app. right. now left.
Qed.

(** In a run from the initial state every parent link leads to a cell for
    which a move has been requested: the agent has stood on it. *)
Lemma passes_links_requested (gas : nat) (tn tm mode : Z)
    (inp : list response) (found : bool) (s : state) :
  passes gas tn tm mode (init_state tn tm inp) found s ->
  forall p q, parent (table s p) = Some q -> In (request q) (output s).
Proof.
  intros H. induction H as [| x x1 b _ IH Ho Hi]; intros p q Hp.
  - simpl in Hp. rewrite init_game_table_parent in Hp. discriminate.
  - destruct (iteration_output _ _ _ _ _ _ _ Hi) as [[moves Hout] Hcur].
    destruct (iteration_parent _ _ _ _ _ _ _ p Hi) as [E | [Hb E]].
    + rewrite E in Hp. rewrite Hout. apply in_or_app. left.
      now apply (IH p q).
    + rewrite E in Hp. inversion Hp; subst q. now apply Hcur.
Qed.

(** Every hazard report of an applied response closes its cell. *)
Lemma apply_events_closes (mode : Z) (evs : response) :
  forall (t t' : game_table) (cl cl' : restricted_cells) (e : event),
  apply_events mode (t, cl) evs = Ok (t', cl') ->
  In e evs -> is_dangerous (ev_status e) = true ->
  In (ev_n e, ev_m e) cl'.
Proof.
  induction evs as [| e0 evs IH]; intros t t' cl cl' e H Hin Hd;
    [destruct Hin|].
  simpl in H. apply bind_Ok in H as [[t1 cl1] [H1 H2]].
  destruct Hin as [-> | Hin].
  - apply apply_events_frame in H2 as [Hincl _]. apply Hincl.
    now apply (hazard_report_closes mode t t1 cl cl1 e).
  - now apply (IH t1 t' cl1 cl' e).
Qed.

Lemma hazard_turn_closes (gas : nat) (s st : state) (tn tm mode : Z)
    (e : event) :
  a_star_iteration gas s tn tm mode = Ok (false, st) ->
  applied gas s e ->
  is_dangerous (ev_status e) = true ->
  In (ev_n e, ev_m e) (closed st).
Proof.
  unfold a_star_iteration. intros H (best & o1 & s2 & He & Hr & _ & Hin) Hd.
  rewrite He in H. cbn [bind] in H. rewrite Hr in H. cbn [bind] in H.
  unfold move_then_update in H. simpl table in H.
  destruct (cell_status (table s2 best) =? "I")%char; [discriminate|].
  simpl input in H. destruct (read_response (input s2)) as [evs rest].
  simpl in Hin.
  apply bind_Ok in H as [[t1 cl1] [Hev H]].
  destruct (open_neighbours best tn tm (t1, _)) as [t2 o2].
  inversion H; subst. simpl.
  now apply (apply_events_closes mode evs _ _ _ _ e Hev).
Qed.

Lemma passes_keeps_away (c : cell_ptr) (gas : nat) (tn tm mode : Z)
    (st : state) (found : bool) (s : state) :
  never_reached c st ->
  passes gas tn tm mode st found s ->
  never_reached c s /\ avoids c st s.
Proof.
  intros Hnr H. induction H as [| x x1 b _ IH Ho Hi].
  - split; [exact Hnr | apply avoids_refl].
  - destruct IH as [A1 A2].
    destruct (iteration_keeps_away c gas _ _ _ _ _ _ A1 Hi) as (B1 & B2).
    split; [exact B1 | eapply avoids_trans; eassumption].
Qed.

(** C3 (as the code has it).  Take a run from the initial state and a turn
    of it whose search move gets a response that reports a hazard on [c],
    at a time when no move onto [c] has been requested.  The report is
    applied by [move_then_update] and puts [c] in the closed set.  From
    then on: whenever [c] is in range and not hazardous any more, an
    expansion with a strictly better cost records that cost and puts [c]
    back in the frontier; but in every state the run passes through
    afterwards [c] is still closed, no parent link leads to it and no move
    onto it has been requested, whatever the oracle reports.  This holds at
    the top of every later turn, inside a turn after the extraction (which
    never yields [c]), after the walk back and after the request of the
    search move, in the state in which the loop returns, and up to the turn
    in which a run fails. *)
Theorem closed_cell_is_never_entered (c : cell_ptr) (gas : nat)
    (tn tm mode : Z) (inp : list response) (s st : state) (e : event) :
  passes gas tn tm mode (init_state tn tm inp) false s ->
  open s <> [] ->
  a_star_iteration gas s tn tm mode = Ok (false, st) ->
  applied gas s e ->
  (ev_n e, ev_m e) = c ->
  is_dangerous (ev_status e) = true ->
  ~ In (request c) (output st) ->
  never_reached c st
  /\ (forall t cur o,
        in_borders (ptr_n c) (ptr_m c) = true ->
        dangerous_status (t c) = false ->
        from_player_cost (t cur) + 1 < from_player_cost (t c) ->
        let tq := update_then_check_cell cur tn tm (t, o)
                    (ptr_n c) (ptr_m c) in
        In c (snd tq)
        /\ from_player_cost (fst tq c) = from_player_cost (t cur) + 1)
  /\ (forall found s',
        passes gas tn tm mode st found s' ->
        never_reached c s' /\ avoids c st s')
  /\ (forall s' best o1,
        passes gas tn tm mode st false s' ->
        extract_best (open s') (closed s') = Ok (best, o1) ->
        best <> c
        /\ (forall sb,
              return_to_start gas (with_open s' o1) = Ok sb ->
              avoids c st sb)
        /\ (forall s2,
              reconcile gas (with_open s' o1) best = Ok s2 ->
              avoids c st (emit s2 (request best))))
  /\ (forall fuel found s',
        a_star_loop gas fuel st tn tm mode = Ok (found, s') ->
        never_reached c s' /\ avoids c st s')
  /\ (forall fuel err,
        a_star_loop gas fuel st tn tm mode = Err err ->
        exists s',
          passes gas tn tm mode st false s'
          /\ never_reached c s' /\ avoids c st s'
          /\ open s' <> []
          /\ (err = OutOfFuel
              \/ a_star_iteration gas s' tn tm mode = Err err)).
Proof.
  intros Hp Ho Hi Happ Hc Hd Hout.
  assert (Hst : passes gas tn tm mode (init_state tn tm inp) false st).
  { exact (passes_turn gas tn tm mode _ s st false Hp Ho Hi). }
  assert (Hnr : never_reached c st).
  { split; [|split].
    - rewrite <- Hc. now apply (hazard_turn_closes gas s st tn tm mode e).
    - intros Heq. apply Hout. rewrite <- Heq.
      now apply (iteration_output gas s st tn tm mode false Hi).
    - intros p Hpar. apply Hout.
      now apply (passes_links_requested gas tn tm mode inp false st Hst p c). }
  split; [exact Hnr|]. split; [|split; [|split; [|split]]].
  - intros t cur o Hb Hdg Hlt.
    apply (strictly_better_cost_reenters cur c tn tm t o Hb Hdg Hlt).
  - intros found s' H.
    exact (passes_keeps_away c gas tn tm mode st found s' Hnr H).
  - intros s' best o1 H He.
    destruct (passes_keeps_away c gas tn tm mode st false s' Hnr H)
      as [A1 A2].
    apply extract_best_Ok in He as (Hfresh & _ & _).
    assert (Hb : best <> c).
    { intros ->. destruct A1 as (Hcl & _). apply contains_In in Hcl.
      congruence. }
    assert (Hnr0 : never_reached c (with_open s' o1)) by exact A1.
    split; [exact Hb|]. split.
    + intros sb Hsb.
      destruct (return_to_start_keeps_away c gas _ _ Hnr0 Hsb) as (_ & B & _).
      eapply avoids_trans; [exact A2|].
      destruct B as [m [Hm Hn]]. exists m. split; assumption.
    + intros s2 Hr.
      destruct (reconcile_keeps_away c gas _ _ _ Hnr0 Hr) as (_ & B & _).
      eapply avoids_trans; [exact A2|].
      destruct B as [m [Hm Hn]]. simpl in Hm.
      exists (m ++ [request best]). split.
      * simpl. now rewrite Hm, app_assoc.
      * intros Hx. apply in_app_or in Hx as [Hx | [Hx | []]]; [auto|].
        apply request_inj in Hx. now apply Hb.
  - intros fuel found s' H.
    apply (passes_keeps_away c gas tn tm mode st found s' Hnr).
    now apply (loop_passes gas fuel).
  - intros fuel err H.
    destruct (loop_fails_in_a_turn gas fuel tn tm mode st err H)
      as (s' & Hps & Hos & Hr).
    destruct (passes_keeps_away c gas tn tm mode st false s' Hnr Hps)
      as [A1 A2].
    exists s'. auto.
Qed.

Lemma closed_cell_is_never_entered_witness :
  match a_star_iteration 100 (init_state 0 4 reopened) 0 4 0 with
  | Ok (false, st) =>
      never_reached (0, 1) st
      /\ match a_star_loop 100 100 st 0 4 0 with
         | Ok (_, st') => never_reached (0, 1) st' /\ avoids (0, 1) st st'
         | Err _ => False
         end
  | _ => False
  end.
Proof.
  assert (Hrun : match a_star_iteration 100 (init_state 0 4 reopened) 0 4 0
                 with
                 | Ok (false, st) =>
                     match a_star_loop 100 100 st 0 4 0 with
                     | Ok _ => true
                     | Err _ => false
                     end
                 | _ => false
                 end = true) by (vm_compute; reflexivity).
  assert (Hout : match a_star_iteration 100 (init_state 0 4 reopened) 0 4 0
                 with
                 | Ok (_, st) => output st = [MoveReq 0 0]
                 | Err _ => True
                 end) by (vm_compute; reflexivity).
  destruct (a_star_iteration 100 (init_state 0 4 reopened) 0 4 0)
    as [[[|] st] | err] eqn:E; try discriminate.
  destruct (closed_cell_is_never_entered (0, 1) 100 0 4 0 reopened
              (init_state 0 4 reopened) st (hazard 1 0))
    as (H1 & _ & _ & _ & H5 & _).
  - constructor.
  - simpl. discriminate.
  - exact E.
  - exists (0, 0), [], (with_open (init_state 0 4 reopened) []).
    split; [reflexivity|]. split; [reflexivity|].
    split; [reflexivity | simpl; auto].
  - reflexivity.
  - reflexivity.
  - rewrite Hout. intros [Hx | []]. discriminate.
  - split; [exact H1|].
    destruct (a_star_loop 100 100 st 0 4 0) as [[found st'] | err] eqn:El;
      [|discriminate].
    exact (H5 100%nat found st' El).
Defined.
End AStarFacts.

(* ------------------------------------------------------------------ *)
(** ** Facts about the exhaustive engine *)

Module BacktrackingFacts.
Import Backtracking BacktrackingAux.

Lemma bt_update_same (t : game_table) (p : cell_ptr) (c : cell) :
  update t p c p = c.
Proof. unfold update. now rewrite ptr_eqb_refl. Qed.

Lemma bt_update_other (t : game_table) (p q : cell_ptr) (c : cell) :
  q <> p -> update t p c q = t q.
Proof. intros H. unfold update. apply ptr_eqb_neq in H. now rewrite H. Qed.

Lemma bt_apply_events_frame (evs : response) :
  forall (t t' : game_table),
  apply_events t evs = Ok t' ->
  forall p,
    from_player_cost (t' p) = from_player_cost (t p)
    /\ cell_status (t' p) = last_status evs p (cell_status (t p)).
Proof.
  induction evs as [| e evs IH]; intros t t' H p.
  - simpl in H. inversion H; subst. auto.
  - simpl in H. apply bind_Ok in H as [t1 [H1 H2]].
    unfold apply_event in H1.
    destruct (in_borders (ev_n e) (ev_m e)); [|discriminate].
    inversion H1; subst t1; clear H1.
    destruct (IH _ _ H2 p) as [B1 B2]. rewrite B1, B2. simpl last_status.
    unfold update. destruct (ptr_eqb p (ev_n e, ev_m e)) eqn:E; simpl; auto.
    apply ptr_eqb_eq in E. subst p. auto.
Qed.

Lemma bt_apply_events_in_range (evs : response) :
  forall (t : game_table),
  Forall in_range evs -> exists t', apply_events t evs = Ok t'.
Proof.
  induction evs as [| e evs IH]; intros t H.
  - simpl. eauto.
  - inversion H as [| ? ? He Hevs]; subst.
    cbn [apply_events]. unfold apply_event. unfold in_range in He.
    rewrite He. cbn [bind]. apply IH. exact Hevs.
Qed.

(** *** Depth-first exploration *)

Lemma well_formed_skipn (k : nat) (inp : list response) :
  well_formed inp -> well_formed (skipn k inp).
Proof.
  unfold well_formed. revert inp. induction k as [| k IH]; intros inp H.
  - exact H.
  - destruct inp as [| r inp]; [exact H|]. inversion H; subst. now apply IH.
Qed.

Lemma bt_apply_events_err (evs : response) :
  forall (t : game_table) (e : error),
  apply_events t evs = Err e -> e = OutOfRange /\ ~ Forall in_range evs.
Proof.
  induction evs as [| ev evs IH]; intros t e H.
  - discriminate.
  - cbn [apply_events] in H. unfold apply_event in H.
    destruct (in_borders (ev_n ev) (ev_m ev)) eqn:Hb.
    + cbn [bind] in H. apply IH in H as [-> Hn]. split; [reflexivity|].
      intros HF. inversion HF; subst. contradiction.
    + simpl in H. inversion H; subst. split; [reflexivity|].
      intros HF. inversion HF as [| ? ? Hr _]; subst.
      unfold in_range in Hr. congruence.
Qed.

Lemma move_then_update_spec (st : state) (pos : cell_ptr) (mode : Z) :
  match move_then_update st pos mode with
  | Ok (_, st1) =>
      visited st1 = set_insert (visited st) pos
      /\ input st1 = tl (input st)
      /\ output st1 = output st ++ [MoveReq (ptr_m pos) (ptr_n pos)]
  | Err e => e = OutOfRange /\ ~ well_formed (input st)
  end.
Proof.
  unfold move_then_update.
  destruct (input st) as [| evs rest] eqn:Hi; simpl read_response; cbv iota beta.
  - simpl. auto.
  - destruct (apply_events (table st) evs) as [t1 | e] eqn:He; simpl.
    + auto.
    + apply bt_apply_events_err in He as [-> Hn]. split; [reflexivity|].
      intros HF. inversion HF; subst. contradiction.
Qed.

Lemma grown_trans (a b : nat) (s1 s2 s3 : state) :
  NoDup (visited s1) ->
  grown a s1 s2 -> grown b s2 s3 -> grown (a + b) s1 s3.
Proof.
  intros Hnd (A1 & A2 & A3 & [ka A4] & A5) (B1 & B2 & B3 & [kb B4] & B5).
  repeat split; auto.
  - eapply incl_tran; eassumption.
  - exists (kb + ka)%nat. now rewrite B4, A4, skipn_skipn.
  - lia.
Qed.

Lemma grown_length (d : nat) (s1 s2 : state) :
  NoDup (visited s1) -> grown d s1 s2 ->
  (List.length (visited s1) <= List.length (visited s2))%nat.
Proof.
  intros Hnd (A1 & _). now apply NoDup_incl_length.
Qed.

Lemma valid_neighbour_true (t : game_table) (vis : restricted_cells)
    (c : cell_ptr) :
  valid_neighbour t vis c = true ->
  in_borders (ptr_n c) (ptr_m c) = true /\ ~ In c vis.
Proof.
  unfold valid_neighbour. rewrite !andb_true_iff, !negb_true_iff.
  intros (Hb & _ & Hv). split; [exact Hb | now apply contains_false].
Qed.

(** The loop over the neighbours, given what the recursive calls do. *)
Lemma explore_children (f : nat) (mode : Z) (cur : cell_ptr) (st1 : state)
    (IH : forall st c,
        in_borders (ptr_n c) (ptr_m c) = true -> ~ In c (visited st) ->
        incl (visited st) all_cells -> NoDup (visited st) ->
        (81 <= f + List.length (visited st))%nat ->
        dfs_result st c (backtracking_dfs f c st mode)) :
  NoDup (visited st1) ->
  (81 <= f + List.length (visited st1))%nat ->
  forall (l : list cell_ptr) (acc : res (bool * state)),
  match acc with
  | Ok (_, s) => grown 0 st1 s
  | Err e => e = OutOfRange /\ ~ well_formed (input st1)
  end ->
  match fold_left
          (explore_child (fun c s => backtracking_dfs f c s mode) cur) l acc
  with
  | Ok (_, s) => grown 0 st1 s
  | Err e => e = OutOfRange /\ ~ well_formed (input st1)
  end.
Proof.
  intros Hnd Hfuel. induction l as [| c l IHl]; intros acc Hacc.
  - exact Hacc.
  - cbn [fold_left]. apply IHl.
    destruct acc as [[hc s] | e]; [|exact Hacc].
    unfold explore_child. cbn [bind].
    destruct (valid_neighbour (table s) (visited s) c) eqn:Hv; [|exact Hacc].
    apply valid_neighbour_true in Hv as [Hb Hnv].
    pose proof Hacc as (A1 & A2 & A3 & [k A4] & A5).
    pose proof (grown_length _ _ _ Hnd Hacc) as Hlen.
    assert (Hf : (81 <= f + List.length (visited s))%nat) by lia.
    specialize (IH s c Hb Hnv A2 A3 Hf).
    destruct (backtracking_dfs f c s mode) as [[r s1] | e]; cbn [bind].
    + destruct IH as [Hex _].
      pose proof (grown_trans 0 1 st1 s s1 Hnd Hacc Hex)
        as (B1 & B2 & B3 & [kb B4] & B5).
      unfold stupid_move. repeat split; simpl; auto.
      * exists (S kb). rewrite snd_read_response_tl, B4.
        apply tl_skipn_S.
      * rewrite length_app. simpl. lia.
    + destruct IH as [-> Hn]. split; [reflexivity|].
      intros Hw. apply Hn. rewrite A4. now apply well_formed_skipn.
Qed.

Lemma unvisited_bound (vis : restricted_cells) (c : cell_ptr) :
  In c all_cells -> ~ In c vis -> incl vis all_cells -> NoDup vis ->
  (List.length vis < 81)%nat.
Proof.
  intros Hc Hn Hi Hnd.
  assert (H : (List.length (c :: vis) <= List.length all_cells)%nat).
  { apply NoDup_incl_length; [now constructor|].
    intros x [<- | Hx]; auto. }
  rewrite all_cells_length in H. simpl in H. lia.
Qed.

Lemma backtracking_dfs_result (mode : Z) (fuel : nat) :
  forall (st : state) (cur : cell_ptr),
  in_borders (ptr_n cur) (ptr_m cur) = true -> ~ In cur (visited st) ->
  incl (visited st) all_cells -> NoDup (visited st) ->
  (81 <= fuel + List.length (visited st))%nat ->
  dfs_result st cur (backtracking_dfs fuel cur st mode).
Proof.
  induction fuel as [| f IH]; intros st cur Hb Hnv Hincl Hnd Hfuel.
  - exfalso. apply all_cells_In in Hb.
    pose proof (unvisited_bound _ _ Hb Hnv Hincl Hnd). lia.
  - cbn [backtracking_dfs].
    pose proof (move_then_update_spec st cur mode) as Hm.
    destruct (move_then_update st cur mode) as [[found st1] | e];
      cbn [bind]; [|exact Hm].
    destruct Hm as (Hv1 & Hi1 & Ho1).
    assert (Hvis : visited st1 = cur :: visited st).
    { rewrite Hv1. unfold set_insert.
      apply contains_false in Hnv. now rewrite Hnv. }
    assert (Hnd1 : NoDup (visited st1)) by (rewrite Hvis; now constructor).
    assert (Hf1 : (81 <= f + List.length (visited st1))%nat)
      by (rewrite Hvis; simpl; lia).
    assert (Hincl1 : incl (visited st1) all_cells).
    { rewrite Hvis. intros x [<- | Hx]; [now apply all_cells_In | auto]. }
    assert (H0 : grown 0 st1 st1).
    { repeat split; auto using incl_refl. exists 0%nat. reflexivity. }
    pose proof (explore_children f mode cur st1 IH Hnd1 Hf1
                  (next_positions cur) (Ok (false, st1)) H0) as Hfold.
    destruct (fold_left _ (next_positions cur) (Ok (false, st1)))
      as [[hc st2] | e]; cbn [bind].
    + destruct Hfold as (A1 & A2 & A3 & [k A4] & A5). split.
      * repeat split; auto.
        -- intros x Hx. apply A1. rewrite Hvis. now right.
        -- exists (S k). rewrite A4, Hi1.
           change (tl (input st)) with (skipn 1 (input st)).
           rewrite skipn_skipn. f_equal. lia.
        -- rewrite Hvis, Ho1, length_app in A5. simpl in A5. lia.
      * apply A1. rewrite Hvis. now left.
    + destruct Hfold as [-> Hn]. split; [reflexivity|].
      intros Hw. apply Hn. rewrite Hi1.
      change (tl (input st)) with (skipn 1 (input st)).
      now apply well_formed_skipn.
Qed.

(** C10.  Called on a table cell that is not yet visited, with a visited set
    of distinct table cells, the exploration finishes within a recursion
    depth of 81 less the number of cells already visited, whatever the
    oracle answers: it returns, or stops at the out-of-range index of an
    ill-formed response.  When it returns, the visited set has only grown
    and holds the cell of the call, it still consists of distinct table
    cells (at most 81), and the requests emitted are two per newly visited
    cell less one: every invocation visits one new cell. *)
Theorem backtracking_dfs_terminates (mode : Z) (fuel : nat) (st : state)
    (cur : cell_ptr) :
  in_borders (ptr_n cur) (ptr_m cur) = true ->
  ~ In cur (visited st) ->
  incl (visited st) all_cells ->
  NoDup (visited st) ->
  (81 <= fuel + List.length (visited st))%nat ->
  dfs_result st cur (backtracking_dfs fuel cur st mode)
  /\ backtracking_dfs fuel cur st mode <> Err OutOfFuel
  /\ (well_formed (input st) ->
      exists found st',
        backtracking_dfs fuel cur st mode = Ok (found, st')
        /\ explored st st' /\ In cur (visited st')
        /\ (List.length (visited st') <= 81)%nat).
Proof.
  intros Hb Hnv Hincl Hnd Hfuel.
  pose proof (backtracking_dfs_result mode fuel st cur Hb Hnv Hincl Hnd Hfuel)
    as Hres.
  split; [exact Hres|].
  destruct (backtracking_dfs fuel cur st mode) as [[found st'] | e].
  - split; [discriminate|]. intros _. exists found, st'.
    destruct Hres as [Hex Hin]. repeat split; auto; try apply Hex.
    destruct Hex as (_ & A2 & A3 & _).
    rewrite <- all_cells_length. now apply NoDup_incl_length.
  - destruct Hres as [-> Hn]. split; [discriminate|].
    intros Hw. contradiction.
Qed.

Lemma backtracking_dfs_terminates_witness :
  exists found st',
    backtracking_dfs 81 (0, 0) (mk_state (init_game_table 3 3) [] false [] [])
      0 = Ok (found, st')
    /\ (List.length (visited st') <= 81)%nat.
Proof.
  destruct (backtracking_dfs_terminates 0 81
              (mk_state (init_game_table 3 3) [] false [] []) (0, 0))
    as (_ & _ & H).
  - reflexivity.
  - simpl. tauto.
  - intros x [].
  - constructor.
  - simpl. lia.
  - destruct H as (found & st' & H1 & _ & _ & H2); [constructor|].
    exists found, st'. split; assumption.
Defined.

(** *** The perception flag *)

Lemma explore_child_ext (dfs1 dfs2 : cell_ptr -> state -> res (bool * state))
    (cur : cell_ptr) :
  (forall c s, dfs1 c s = dfs2 c s) ->
  forall l acc,
  fold_left (explore_child dfs1 cur) l acc
  = fold_left (explore_child dfs2 cur) l acc.
Proof.
  intros Hext. induction l as [| c l IH]; intros acc; [reflexivity|].
  cbn [fold_left]. rewrite IH. f_equal.
  unfold explore_child. destruct acc as [[hc s] | e]; [|reflexivity].
  cbn [bind]. destruct (valid_neighbour _ _ c); [|reflexivity].
  now rewrite Hext.
Qed.

Lemma backtracking_dfs_flag (mode1 mode2 : Z) (fuel : nat) :
  forall cur st,
  backtracking_dfs fuel cur st mode1 = backtracking_dfs fuel cur st mode2.
Proof.
  induction fuel as [| f IH]; intros cur st; [reflexivity|].
  cbn [backtracking_dfs].
  change (move_then_update st cur mode2) with (move_then_update st cur mode1).
  destruct (move_then_update st cur mode1) as [[found st1] | e];
    [|reflexivity].
  cbn [bind]. now rewrite (explore_child_ext _ _ cur IH).
Qed.

Lemma bt_main_flag_independent (gas fuel : nat) (mode1 mode2 tm tn : Z)
    (inp : list response) :
  main gas fuel mode1 tm tn inp = main gas fuel mode2 tm tn inp.
Proof.
  unfold main, launch_backtracking.
  now rewrite (backtracking_dfs_flag mode1 mode2).
Qed.

(** *** Breadth-first cost assignment *)

Lemma even_flip (a b : Z) :
  a = b + 1 \/ a = b - 1 -> Z.even a = negb (Z.even b).
Proof.
  intros [-> | ->].
  - rewrite Z.even_add. destruct (Z.even b); reflexivity.
  - rewrite Z.even_sub. destruct (Z.even b); reflexivity.
Qed.

Lemma next_positions_parity (cur c : cell_ptr) :
  In c (next_positions cur) ->
  Z.even (ptr_n c + ptr_m c) = negb (Z.even (ptr_n cur + ptr_m cur)).
Proof.
  unfold next_positions. intros H. apply even_flip.
  destruct H as [<- | [<- | [<- | [<- | []]]]]; unfold ptr_n, ptr_m; simpl; lia.
Qed.

Lemma visited_bound (vis : restricted_cells) :
  incl vis all_cells -> NoDup vis -> (List.length vis <= 81)%nat.
Proof.
  intros Hi Hnd. rewrite <- all_cells_length. now apply NoDup_incl_length.
Qed.

Lemma set_insert_length (s : restricted_cells) (c : cell_ptr) :
  (List.length s <= List.length (set_insert s c))%nat.
Proof. unfold set_insert. destruct (contains s c); simpl; lia. Qed.

Lemma bfs_inv_init (t0 : game_table) :
  start_costs t0 -> bfs_inv 0 (bfs_init t0).
Proof.
  intros [H0 Hinf]. unfold bfs_inv, bfs_init. simpl.
  assert (Hassigned : forall c, from_player_cost (t0 c) <> INF -> c = (0, 0)).
  { intros c Hc. destruct (ptr_eqb c (0, 0)) eqn:E.
    - now apply ptr_eqb_eq.
    - apply ptr_eqb_neq in E. now apply Hinf in E. }
  repeat split.
  - exists [(0, 0)], []. repeat split.
    + intros c [<- | []]. exact H0.
    + intros c [].
  - intros v [].
  - lia.
  - lia.
  - intros c Hc. rewrite (Hassigned c Hc), H0. reflexivity.
  - intros c Hc _. left. symmetry. now apply Hassigned.
  - intros c [<- | []]. reflexivity.
  - intros c [].
  - constructor.
Qed.

(** Taking the front of the queue and marking it visited. *)
Lemma bfs_inv_dequeue (d : Z) (s : bfs_state) (cur : cell_ptr)
    (q : list cell_ptr) :
  bfs_inv d s -> b_queue s = cur :: q ->
  exists dc,
    bfs_inv dc (mk_bfs (b_table s) q (set_insert (b_visited s) cur))
    /\ from_player_cost (b_table s cur) = dc.
Proof.
  intros ([q1 [q2 (Hq & H1 & H2)]] & Hv & Hd & Hpar & Hass & Hin & Hincl & Hnd)
         Hcur.
  assert (Hcb : in_borders (ptr_n cur) (ptr_m cur) = true).
  { apply Hin. rewrite Hcur. now left. }
  assert (Hincl' : incl (set_insert (b_visited s) cur) all_cells).
  { intros x Hx. apply set_insert_In in Hx as [-> | Hx]; auto.
    now apply all_cells_In. }
  assert (Hass' : forall c, from_player_cost (b_table s c) <> INF ->
                    ~ In c (set_insert (b_visited s) cur) -> In c q).
  { intros c Hc Hn.
    assert (Hcq : In c (b_queue s)).
    { apply Hass; [exact Hc|]. intros Hx. apply Hn. apply set_insert_In. auto. }
    rewrite Hcur in Hcq. destruct Hcq as [<- | Hcq]; [|exact Hcq].
    exfalso. apply Hn. apply set_insert_In. now left. }
  assert (Hin' : forall c, In c q -> in_borders (ptr_n c) (ptr_m c) = true).
  { intros c Hc. apply Hin. rewrite Hcur. now right. }
  pose proof (set_insert_length (b_visited s) cur) as Hlen.
  destruct q1 as [| x q1'].
  - (* the front opens the next level *)
    simpl in Hq. rewrite Hcur in Hq. destruct q2 as [| y q2']; [discriminate|].
    inversion Hq; subst y q. clear Hq.
    assert (Hc : from_player_cost (b_table s cur) = d + 1)
      by (apply H2; now left).
    assert (Hfresh : ~ In cur (b_visited s)).
    { intros Hx. apply Hv in Hx. lia. }
    exists (d + 1). split; [|exact Hc].
    unfold bfs_inv. simpl.
    assert (Hset : set_insert (b_visited s) cur = cur :: b_visited s).
    { unfold set_insert. apply contains_false in Hfresh. now rewrite Hfresh. }
    repeat split; try assumption.
    + exists q2', []. rewrite app_nil_r. repeat split.
      * intros c Hcq. apply H2. now right.
      * intros c [].
    + intros v Hx. apply set_insert_In in Hx as [-> | Hx]; [lia|].
      apply Hv in Hx. lia.
    + lia.
    + rewrite Hset. simpl List.length. lia.
    + now apply set_insert_NoDup.
  - (* the front belongs to the current level *)
    simpl in Hq. rewrite Hcur in Hq. inversion Hq; subst x q. clear Hq.
    assert (Hc : from_player_cost (b_table s cur) = d)
      by (apply H1; now left).
    exists d. split; [|exact Hc].
    unfold bfs_inv. simpl.
    repeat split; try assumption.
    + exists q1', q2. repeat split; auto.
      intros c Hcq. apply H1. now right.
    + intros v Hx. apply set_insert_In in Hx as [-> | Hx]; [lia|].
      now apply Hv.
    + lia.
    + lia.
    + now apply set_insert_NoDup.
Qed.

(** One neighbour of the dequeued cell [cur], whose cost is [dc]. *)
Lemma bfs_visit_inv (dc : Z) (s : bfs_state) (cur c : cell_ptr) :
  bfs_inv dc s ->
  In cur (b_visited s) ->
  from_player_cost (b_table s cur) = dc ->
  In c (next_positions cur) ->
  let s1 := fst (bfs_visit cur s c) in
  bfs_inv dc s1
  /\ b_visited s1 = b_visited s
  /\ from_player_cost (b_table s1 cur) = dc
  /\ forall x, from_player_cost (b_table s1 x) <= from_player_cost (b_table s x).
Proof.
  intros Hinv Hcur Hdc Hadj. unfold bfs_visit.
  destruct (valid_neighbour (b_table s) (b_visited s) c) eqn:Hvalid;
    [|simpl; split; [exact Hinv|]; split; [reflexivity|];
      split; [exact Hdc | intros; lia]].
  apply valid_neighbour_true in Hvalid as [Hcb Hcv].
  destruct Hinv
    as ([q1 [q2 (Hq & H1 & H2)]] & Hv & Hd & Hpar & Hass & Hin & Hincl & Hnd).
  pose proof (visited_bound _ Hincl Hnd) as Hbound.
  assert (Hsmall : dc < INF - 1) by (unfold INF; lia).
  assert (Hcc : c <> cur) by (intros ->; contradiction).
  pose proof (next_positions_parity cur c Hadj) as Hflip.
  assert (Hcurpar : Z.even dc = Z.even (ptr_n cur + ptr_m cur)).
  { rewrite <- Hdc. apply Hpar. rewrite Hdc. unfold INF in *. lia. }
  (* the cost recorded for [c] is [INF] or already [dc + 1] *)
  assert (Hold : from_player_cost (b_table s c) = INF
                 \/ from_player_cost (b_table s c) = dc + 1).
  { destruct (Z.eq_dec (from_player_cost (b_table s c)) INF) as [E | E];
      [now left | right].
    pose proof (Hass c E Hcv) as Hcq. rewrite Hq in Hcq.
    apply in_app_or in Hcq as [Hcq | Hcq]; [|now apply H2].
    exfalso. pose proof (Hpar c E) as Hp. rewrite (H1 c Hcq) in Hp.
    rewrite Hflip, <- Hcurpar in Hp. destruct (Z.even dc); discriminate. }
  assert (Hnq1 : ~ In c q1).
  { intros Hcq. apply H1 in Hcq. destruct Hold as [E | E]; rewrite E in Hcq;
      unfold INF in *; lia. }
  simpl. rewrite Hdc.
  assert (Hother : forall x, x <> c ->
            from_player_cost
              (update (b_table s) c (set_cost (b_table s c) (dc + 1)) x)
            = from_player_cost (b_table s x)).
  { intros x Hx. now rewrite bt_update_other. }
  assert (Hsame : from_player_cost
            (update (b_table s) c (set_cost (b_table s c) (dc + 1)) c)
          = dc + 1).
  { now rewrite bt_update_same. }
  split; [|split; [reflexivity | split]].
  - unfold bfs_inv. simpl. repeat split; try assumption; try lia.
    + exists q1, (q2 ++ [c]). rewrite Hq, <- app_assoc. repeat split.
      * intros x Hx. rewrite Hother; [now apply H1|].
        intros ->. contradiction.
      * intros x Hx. destruct (ptr_eqb x c) eqn:E.
        -- apply ptr_eqb_eq in E. subst x. exact Hsame.
        -- apply ptr_eqb_neq in E. rewrite Hother by exact E.
           apply in_app_or in Hx as [Hx | [Hx | []]]; [now apply H2|].
           congruence.
    + intros v Hx. rewrite Hother; [now apply Hv|]. intros ->. contradiction.
    + intros x Hx. destruct (ptr_eqb x c) eqn:E.
      * apply ptr_eqb_eq in E. subst x. rewrite Hsame, Hflip, <- Hcurpar.
        rewrite Z.even_add. destruct (Z.even dc); reflexivity.
      * apply ptr_eqb_neq in E. rewrite Hother in * by exact E.
        now apply Hpar.
    + intros x Hx Hnv. apply in_or_app. destruct (ptr_eqb x c) eqn:E.
      * apply ptr_eqb_eq in E. subst x. right. now left.
      * apply ptr_eqb_neq in E. rewrite Hother in Hx by exact E.
        left. now apply Hass.
    + intros x Hx. apply in_app_or in Hx as [Hx | [<- | []]]; auto.
  - rewrite Hother; [exact Hdc | congruence].
  - intros x. destruct (ptr_eqb x c) eqn:E.
    + apply ptr_eqb_eq in E. subst x. rewrite Hsame.
      destruct Hold as [-> | ->]; unfold INF in *; lia.
    + apply ptr_eqb_neq in E. rewrite Hother by exact E. lia.
Qed.

Lemma bfs_any_of_inv (dc : Z) (cur : cell_ptr) (next : list cell_ptr) :
  (forall c, In c next -> In c (next_positions cur)) ->
  forall s,
  bfs_inv dc s ->
  In cur (b_visited s) ->
  from_player_cost (b_table s cur) = dc ->
  let s1 := fst (bfs_any_of cur s next) in
  bfs_inv dc s1
  /\ forall x, from_player_cost (b_table s1 x) <= from_player_cost (b_table s x).
Proof.
  induction next as [| c next IH]; intros Hadj s Hinv Hcur Hdc.
  - simpl. split; [exact Hinv | intros; lia].
  - cbn [bfs_any_of].
    destruct (bfs_visit_inv dc s cur c Hinv Hcur Hdc (Hadj c (or_introl eq_refl)))
      as (A1 & A2 & A3 & A4).
    destruct (bfs_visit cur s c) as [s1 is_stone]. simpl in A1, A2, A3, A4.
    destruct is_stone; [simpl; split; assumption|].
    assert (Hadj' : forall x, In x next -> In x (next_positions cur))
      by (intros x Hx; apply Hadj; now right).
    assert (Hcur1 : In cur (b_visited s1)) by (rewrite A2; exact Hcur).
    destruct (IH Hadj' s1 A1 Hcur1 A3) as [B1 B2].
    split; [exact B1|]. intros x. specialize (A4 x). specialize (B2 x). lia.
Qed.

(** One turn of the loop keeps the invariant and raises no cost. *)
Lemma bfs_iteration_inv (d : Z) (s s1 : bfs_state) (found : bool) :
  bfs_inv d s -> bfs_iteration s = Some (s1, found) ->
  (exists d', bfs_inv d' s1)
  /\ forall x, from_player_cost (b_table s1 x) <= from_player_cost (b_table s x).
Proof.
  intros Hinv Hit. unfold bfs_iteration in Hit.
  destruct (b_queue s) as [| cur q] eqn:Hq; [discriminate|].
  destruct (bfs_inv_dequeue d s cur q Hinv Hq) as (dc & Hinv' & Hdc).
  set (s0 := mk_bfs (b_table s) q (set_insert (b_visited s) cur)) in *.
  assert (Heq : bfs_any_of cur s0 (next_positions cur) = (s1, found))
    by congruence.
  assert (Hcur : In cur (b_visited s0)).
  { simpl. apply set_insert_In. now left. }
  destruct (bfs_any_of_inv dc cur (next_positions cur) (fun c H => H)
              s0 Hinv' Hcur Hdc) as [A1 A2].
  rewrite Heq in A1, A2. simpl in A1, A2.
  split; [now exists dc | exact A2].
Qed.

Lemma bfs_reach_inv (t0 : game_table) (s : bfs_state) :
  start_costs t0 -> bfs_reach t0 s -> exists d, bfs_inv d s.
Proof.
  intros Hstart. induction 1 as [| s s1 _ [d IH] Hit].
  - exists 0. now apply bfs_inv_init.
  - now apply (bfs_iteration_inv d s s1 false IH Hit).
Qed.

(** The exploration phase writes no cost. *)
Lemma backtracking_dfs_costs (mode : Z) (fuel : nat) :
  forall cur st found st',
  backtracking_dfs fuel cur st mode = Ok (found, st') ->
  forall c, from_player_cost (table st' c) = from_player_cost (table st c).
Proof.
  induction fuel as [| f IH]; intros cur st found st' H c; [discriminate|].
  cbn [backtracking_dfs] in H.
  apply bind_Ok in H as [[hs st1] [Hm H]].
  apply bind_Ok in H as [[hc st2] [Hf H]].
  inversion H; subst; clear H.
  assert (H1 : from_player_cost (table st1 c) = from_player_cost (table st c)).
  { unfold move_then_update in Hm.
    destruct (read_response (input st)) as [evs rest].
    apply bind_Ok in Hm as [t1 [He Hm]]. inversion Hm; subst. simpl.
    apply (bt_apply_events_frame evs _ _ He c). }
  rewrite <- H1. clear H1 Hm.
  revert Hf. generalize (next_positions cur). intros l.
  assert (Hgen : forall acc,
            (forall b s, acc = Ok (b, s) ->
               from_player_cost (table s c) = from_player_cost (table st1 c)) ->
            fold_left (explore_child
                         (fun c0 s => backtracking_dfs f c0 s mode) cur) l acc
            = Ok (hc, st') ->
            from_player_cost (table st' c) = from_player_cost (table st1 c)).
  { induction l as [| n l IHl]; intros acc Hacc Hfold.
    - simpl in Hfold. now apply (Hacc hc).
    - cbn [fold_left] in Hfold. apply (IHl _ ) in Hfold; [exact Hfold|].
      intros b s Hs. unfold explore_child in Hs.
      destruct acc as [[b0 s0] | e]; [|discriminate]. cbn [bind] in Hs.
      specialize (Hacc b0 s0 eq_refl).
      destruct (valid_neighbour (table s0) (visited s0) n).
      + apply bind_Ok in Hs as [[r s1] [Hd Hs]]. inversion Hs; subst.
        simpl. rewrite (IH _ _ _ _ Hd c). exact Hacc.
      + inversion Hs; subst. exact Hacc. }
  apply Hgen. intros b s Hs. inversion Hs. reflexivity.
Qed.

Lemma init_game_table_start_costs (tn tm : Z) :
  (tn, tm) <> (0, 0) -> start_costs (init_game_table tn tm).
Proof.
  intros Hne. unfold start_costs, init_game_table, update. split.
  - apply ptr_eqb_neq in Hne. rewrite ptr_eqb_sym, Hne. reflexivity.
  - intros c Hc. destruct (ptr_eqb c (tn, tm)); [reflexivity|].
    apply ptr_eqb_neq in Hc. rewrite Hc. reflexivity.
Qed.

(** *** The final line *)

Lemma bt_main_final_line (gas fuel : nat) (mode tm tn : Z)
    (inp : list response) (out : list line) :
  main gas fuel mode tm tn inp = Ok out ->
  exists found st,
    launch_backtracking gas fuel (init_game_table tn tm) mode inp
    = Ok (found, st)
    /\ out = output st
             ++ [Exit (if found then from_player_cost (table st (tn, tm))
                       else -1)].
Proof.
  unfold main. destruct (in_borders tn tm); [|discriminate].
  intros H. apply bind_Ok in H as [[found st] [Hl H]].
  exists found, st. split; [exact Hl|].
  destruct found; inversion H; reflexivity.
Qed.

Import BacktrackingMore.

(** *** The walk of the exploration *)

Lemma next_positions_neighbour (cur c : cell_ptr) :
  In c (next_positions cur) -> AStar.neighbour cur c = true.
Proof.
  unfold next_positions, AStar.neighbour.
  intros [<- | [<- | [<- | [<- | []]]]]; unfold ptr_n, ptr_m; simpl;
    apply Z.ltb_lt; lia.
Qed.

Lemma next_positions_sym (a b : cell_ptr) :
  In a (next_positions b) -> In b (next_positions a).
Proof.
  destruct a as [an am], b as [bn bm]. unfold next_positions, ptr_n, ptr_m.
  simpl. intros [H | [H | [H | [H | []]]]]; inversion H; subst.
  - right. right. right. left. f_equal. lia.
  - right. right. left. f_equal. lia.
  - right. left. f_equal. lia.
  - left. f_equal. lia.
Qed.

Lemma strides_app (a : cell_ptr) (l1 l2 : list cell_ptr) :
  strides a l1 -> strides (last l1 a) l2 -> strides a (l1 ++ l2).
Proof.
  revert a. induction l1 as [| c l1 IH]; intros a H1 H2; [exact H2|].
  destruct H1 as (Hn & Hc & Hrest). rewrite last_cons in H2.
  simpl. split; [exact Hn|]. split; [exact Hc|]. now apply IH.
Qed.

Lemma strides_hops (a : cell_ptr) (l : list cell_ptr) :
  strides a l -> AStarMore.hops a l.
Proof.
  revert a. induction l as [| c l IH]; intros a H; [exact I|].
  destruct H as (Hn & Hc & Hrest).
  split; [now apply next_positions_neighbour|]. split; [exact Hc|].
  now apply IH.
Qed.

Lemma backtracking_dfs_round_trip (mode : Z) (fuel : nat) :
  forall (st : state) (cur : cell_ptr) (found : bool) (st' : state),
  in_borders (ptr_n cur) (ptr_m cur) = true ->
  backtracking_dfs fuel cur st mode = Ok (found, st') ->
  round_trip cur st st'.
Proof.
  induction fuel as [| f IH]; intros st cur found st' Hb H; [discriminate|].
  cbn [backtracking_dfs] in H.
  apply bind_Ok in H as [[hs st1] [Hm H]].
  apply bind_Ok in H as [[hc st2] [Hf H]].
  inversion H; subst; clear H.
  pose proof (move_then_update_spec st cur mode) as Hspec.
  rewrite Hm in Hspec. destruct Hspec as (_ & _ & Ho1).
  assert (Hgen : forall l acc,
            (forall c, In c l -> In c (next_positions cur)) ->
            (forall b s, acc = Ok (b, s) ->
               exists rest,
                 output s = output st1 ++ map AStarAux.request rest
                 /\ strides cur rest /\ last rest cur = cur) ->
            fold_left (explore_child
                         (fun c0 s => backtracking_dfs f c0 s mode) cur) l acc
            = Ok (hc, st') ->
            exists rest,
              output st' = output st1 ++ map AStarAux.request rest
              /\ strides cur rest /\ last rest cur = cur).
  { induction l as [| c l IHl]; intros acc Hl Hacc Hfold.
    - simpl in Hfold. now apply (Hacc hc).
    - cbn [fold_left] in Hfold. apply IHl in Hfold; [exact Hfold | |].
      + intros x Hx. apply Hl. now right.
      + intros b s Hs. unfold explore_child in Hs.
        destruct acc as [[b0 s0] | e]; [|discriminate]. cbn [bind] in Hs.
        destruct (Hacc b0 s0 eq_refl) as (rest & R1 & R2 & R3).
        destruct (valid_neighbour (table s0) (visited s0) c) eqn:Hv.
        * apply bind_Ok in Hs as [[r s1] [Hd Hs]]. inversion Hs; subst.
          apply valid_neighbour_true in Hv as [Hcb _].
          destruct (IH _ _ _ _ Hcb Hd) as (rc & C1 & C2 & C3).
          pose proof (Hl c (or_introl eq_refl)) as Hnb.
          exists (rest ++ (c :: rc) ++ [cur]). split; [|split].
          -- simpl output. rewrite C1, R1, !map_app, <- !app_assoc.
             reflexivity.
          -- apply strides_app; [exact R2|]. rewrite R3.
             change ((c :: rc) ++ [cur]) with (c :: (rc ++ [cur])).
             split; [exact Hnb|]. split; [exact Hcb|].
             apply strides_app; [exact C2|]. rewrite C3.
             split; [now apply next_positions_sym|]. split; [exact Hb | exact I].
          -- rewrite app_assoc. apply last_last.
        * inversion Hs; subst. eauto. }
  destruct (Hgen (next_positions cur) (Ok (false, st1))) as (rest & R1 & R2 & R3).
  - auto.
  - intros b s Hs. inversion Hs; subst. exists []. simpl.
    now rewrite app_nil_r.
  - exact Hf.
  - exists rest. split; [|auto].
    rewrite R1, Ho1, <- app_assoc. reflexivity.
Qed.
(** *** The breadth-first phase ends, and what it assigns *)

Lemma queue_weight_app (t : game_table) (q1 q2 : list cell_ptr) :
  queue_weight t (q1 ++ q2) = queue_weight t q1 + queue_weight t q2.
Proof.
  induction q1 as [| c q1 IH]; simpl; [reflexivity | rewrite IH; lia].
Qed.

Lemma queue_weight_ext (t t' : game_table) (q : list cell_ptr) :
  (forall c, In c q -> from_player_cost (t' c) = from_player_cost (t c)) ->
  queue_weight t' q = queue_weight t q.
Proof.
  induction q as [| c q IH]; intros H; simpl; [reflexivity|].
  rewrite IH by (intros x Hx; apply H; now right).
  rewrite (H c) by now left. reflexivity.
Qed.

Lemma queue_weight_nonneg (t : game_table) (q : list cell_ptr) :
  0 <= queue_weight t q.
Proof.
  induction q as [| c q IH]; simpl; [lia|].
  pose proof (Z.pow_nonneg 5 (82 - from_player_cost (t c))). lia.
Qed.

Lemma level_bound (d : Z) (s : bfs_state) : bfs_inv d s -> 0 <= d <= 81.
Proof.
  intros (_ & _ & Hd & _ & _ & _ & Hincl & Hnd).
  pose proof (visited_bound _ Hincl Hnd). lia.
Qed.

Lemma next_positions_other (cur c : cell_ptr) :
  In c (next_positions cur) -> c <> cur.
Proof.
  destruct cur as [n m]. unfold next_positions, ptr_n, ptr_m. simpl.
  intros [<- | [<- | [<- | [<- | []]]]] E; inversion E; lia.
Qed.

(** One neighbour of the dequeued cell [cur]: the queue gains at most one
    cell of cost [dc + 1], and the queued cells keep their costs. *)
Lemma bfs_visit_more (dc : Z) (s : bfs_state) (cur c : cell_ptr) :
  bfs_inv dc s ->
  from_player_cost (b_table s cur) = dc ->
  In c (next_positions cur) ->
  admissible (b_table s) ->
  let s1 := fst (bfs_visit cur s c) in
  queue_weight (b_table s1) (b_queue s1)
  <= queue_weight (b_table s) (b_queue s) + 5 ^ (81 - dc)
  /\ admissible (b_table s1).
Proof.
  intros Hinv Hdc Hadj Hadm. pose proof (level_bound dc s Hinv) as Hlev.
  unfold bfs_visit.
  destruct (valid_neighbour (b_table s) (b_visited s) c) eqn:Hvalid.
  2:{ simpl. split; [|exact Hadm]. pose proof (Z.pow_nonneg 5 (81 - dc)). lia. }
  apply valid_neighbour_true in Hvalid as [Hcb Hcv].
  destruct Hinv
    as ([q1 [q2 (Hq & H1 & H2)]] & Hv & Hd & Hpar & Hass & Hin & Hincl & Hnd).
  pose proof (next_positions_parity cur c Hadj) as Hflip.
  assert (Hcurpar : Z.even dc = Z.even (ptr_n cur + ptr_m cur)).
  { rewrite <- Hdc. apply Hpar. rewrite Hdc. unfold INF. lia. }
  assert (Hqueued : In c (b_queue s) -> from_player_cost (b_table s c) = dc + 1).
  { intros Hcq. rewrite Hq in Hcq.
    apply in_app_or in Hcq as [Hcq | Hcq]; [|now apply H2].
    exfalso. pose proof (H1 c Hcq) as Hc.
    assert (E : from_player_cost (b_table s c) <> INF)
      by (rewrite Hc; unfold INF; lia).
    pose proof (Hpar c E) as Hp. rewrite Hc, Hflip, <- Hcurpar in Hp.
    destruct (Z.even dc); discriminate. }
  cbn [fst b_table b_queue]. rewrite Hdc. split.
  - rewrite queue_weight_app. cbn [queue_weight fold_right].
    rewrite bt_update_same. cbn [from_player_cost set_cost].
    rewrite (queue_weight_ext (b_table s)).
    + replace (82 - (dc + 1)) with (81 - dc) by lia. lia.
    + intros x Hx. destruct (ptr_eqb x c) eqn:E.
      * apply ptr_eqb_eq in E. subst x. rewrite bt_update_same.
        cbn [from_player_cost set_cost]. symmetry. now apply Hqueued.
      * apply ptr_eqb_neq in E. now rewrite bt_update_other.
  - intros x Hx. destruct (ptr_eqb x c) eqn:E.
    + apply ptr_eqb_eq in E. subst x. rewrite bt_update_same.
      cbn [from_player_cost set_cost].
      assert (Hcur : manhattan_distance 0 0 (ptr_n cur) (ptr_m cur) <= dc).
      { rewrite <- Hdc. apply Hadm. rewrite Hdc. unfold INF. lia. }
      pose proof (AStarFacts.neighbour_distance cur c
                    (next_positions_neighbour cur c Hadj)).
      lia.
    + apply ptr_eqb_neq in E. rewrite bt_update_other in * by exact E.
      now apply Hadm.
Qed.

Lemma bfs_any_of_more (dc : Z) (cur : cell_ptr) (next : list cell_ptr) :
  (forall c, In c next -> In c (next_positions cur)) ->
  forall s,
  bfs_inv dc s ->
  In cur (b_visited s) ->
  from_player_cost (b_table s cur) = dc ->
  admissible (b_table s) ->
  let s1 := fst (bfs_any_of cur s next) in
  queue_weight (b_table s1) (b_queue s1)
  <= queue_weight (b_table s) (b_queue s)
     + Z.of_nat (List.length next) * 5 ^ (81 - dc)
  /\ admissible (b_table s1).
Proof.
  induction next as [| c next IH]; intros Hadj s Hinv Hcur Hdc Hadm.
  - simpl. split; [lia | exact Hadm].
  - cbn [bfs_any_of].
    pose proof (Hadj c (or_introl eq_refl)) as Hc.
    destruct (bfs_visit_inv dc s cur c Hinv Hcur Hdc Hc) as (A1 & A2 & A3 & _).
    destruct (bfs_visit_more dc s cur c Hinv Hdc Hc Hadm) as [W1 W2].
    pose proof (Z.pow_nonneg 5 (81 - dc) ltac:(lia)) as Hpos.
    destruct (bfs_visit cur s c) as [s1 is_stone].
    cbn [fst] in A1, A2, A3, W1, W2.
    change (List.length (c :: next)) with (S (List.length next)).
    rewrite Nat2Z.inj_succ.
    destruct is_stone.
    + simpl fst. split; [|exact W2]. nia.
    + assert (Hadj' : forall x, In x next -> In x (next_positions cur))
        by (intros x Hx; apply Hadj; now right).
      assert (Hcur1 : In cur (b_visited s1)) by (rewrite A2; exact Hcur).
      destruct (IH Hadj' s1 A1 Hcur1 A3 W2) as [B1 B2].
      split; [|exact B2]. nia.
Qed.

(** One turn of the loop lowers the weight of the queue. *)
Lemma bfs_iteration_more (d : Z) (s s1 : bfs_state) (found : bool) :
  bfs_inv d s -> admissible (b_table s) ->
  bfs_iteration s = Some (s1, found) ->
  queue_weight (b_table s1) (b_queue s1)
  < queue_weight (b_table s) (b_queue s)
  /\ admissible (b_table s1).
Proof.
  intros Hinv Hadm Hit. unfold bfs_iteration in Hit.
  destruct (b_queue s) as [| cur q] eqn:Hq; [discriminate|].
  destruct (bfs_inv_dequeue d s cur q Hinv Hq) as (dc & Hinv' & Hdc).
  set (s0 := mk_bfs (b_table s) q (set_insert (b_visited s) cur)) in *.
  assert (Heq : bfs_any_of cur s0 (next_positions cur) = (s1, found))
    by congruence.
  assert (Hcur : In cur (b_visited s0)).
  { simpl. apply set_insert_In. now left. }
  pose proof (level_bound dc s0 Hinv') as Hlev.
  destruct (bfs_any_of_more dc cur (next_positions cur) (fun c H => H)
              s0 Hinv' Hcur Hdc Hadm) as [W1 W2].
  rewrite Heq in W1, W2. cbn [fst s0 b_table b_queue] in W1, W2.
  cbn [queue_weight fold_right]. change (fold_right _ 0 q)
    with (queue_weight (b_table s) q).
  split; [|exact W2].
  rewrite Hdc.
  replace (82 - dc) with (Z.succ (81 - dc)) by lia.
  rewrite Z.pow_succ_r by lia.
  change (Z.of_nat (List.length (next_positions cur))) with 4 in W1.
  pose proof (Z.pow_pos_nonneg 5 (81 - dc) ltac:(lia) ltac:(lia)).
  lia.
Qed.

Lemma bfs_loop_ends (fuel : nat) :
  forall (s : bfs_state) (d : Z),
  bfs_inv d s -> admissible (b_table s) ->
  queue_weight (b_table s) (b_queue s) <= Z.of_nat fuel ->
  exists t', bfs_loop fuel s = Ok t'
             /\ admissible t'
             /\ forall c, from_player_cost (t' c) <> INF ->
                          from_player_cost (t' c) <= 82.
Proof.
  assert (Hfinal : forall s d, bfs_inv d s ->
            forall c, from_player_cost (b_table s c) <> INF ->
                      from_player_cost (b_table s c) <= 82).
  { intros s d Hinv c Hc. pose proof (level_bound d s Hinv) as Hlev.
    destruct Hinv
      as ([q1 [q2 (Hq & H1 & H2)]] & Hv & Hd & Hpar & Hass & Hin & Hincl & Hnd).
    destruct (contains (b_visited s) c) eqn:Hi.
    - apply contains_In, Hv in Hi. lia.
    - apply contains_false in Hi. pose proof (Hass c Hc Hi) as Hcq. rewrite Hq in Hcq.
      apply in_app_or in Hcq as [Hcq | Hcq];
        [apply H1 in Hcq | apply H2 in Hcq]; lia. }
  induction fuel as [| fuel IH]; intros s d Hinv Hadm Hw.
  - destruct (bfs_iteration s) as [[s1 found] |] eqn:Hit.
    + destruct (bfs_iteration_inv d s s1 found Hinv Hit) as [[d' Hinv1] _].
      destruct (bfs_iteration_more d s s1 found Hinv Hadm Hit) as [W1 W2].
      pose proof (queue_weight_nonneg (b_table s1) (b_queue s1)).
      simpl in Hw. lia.
    + exists (b_table s). cbn [bfs_loop]. rewrite Hit. eauto.
  - cbn [bfs_loop].
    destruct (bfs_iteration s) as [[s1 found] |] eqn:Hit.
    + destruct (bfs_iteration_inv d s s1 found Hinv Hit) as [[d' Hinv1] _].
      destruct (bfs_iteration_more d s s1 found Hinv Hadm Hit) as [W1 W2].
      destruct found.
      * exists (b_table s1). eauto.
      * apply (IH s1 d' Hinv1 W2). lia.
    + exists (b_table s). eauto.
Qed.
(** *** Whole runs of the exhaustive program *)

Lemma bfs_final_costs (s : bfs_state) (d : Z) :
  bfs_inv d s ->
  forall c, from_player_cost (b_table s c) <> INF ->
            from_player_cost (b_table s c) <= 82.
Proof.
  intros Hinv c Hc. pose proof (level_bound d s Hinv) as Hlev.
  destruct Hinv
    as ([q1 [q2 (Hq & H1 & H2)]] & Hv & Hd & Hpar & Hass & Hin & Hincl & Hnd).
  destruct (contains (b_visited s) c) eqn:Hi.
  - apply contains_In, Hv in Hi. lia.
  - apply contains_false in Hi. pose proof (Hass c Hc Hi) as Hcq.
    rewrite Hq in Hcq.
    apply in_app_or in Hcq as [Hcq | Hcq];
      [apply H1 in Hcq | apply H2 in Hcq]; lia.
Qed.

(** What the loop of [backtracking_bfs] returns, whenever it returns. *)
Lemma bfs_loop_final (fuel : nat) :
  forall (s : bfs_state) (d : Z) (t' : game_table),
  bfs_inv d s -> admissible (b_table s) ->
  bfs_loop fuel s = Ok t' ->
  admissible t'
  /\ forall c, from_player_cost (t' c) <> INF -> from_player_cost (t' c) <= 82.
Proof.
  induction fuel as [| fuel IH]; intros s d t' Hinv Hadm H;
    cbn [bfs_loop] in H;
    (destruct (bfs_iteration s) as [[s1 found] |] eqn:Hit;
     [ destruct (bfs_iteration_inv d s s1 found Hinv Hit) as [[d' Hinv1] _];
       destruct (bfs_iteration_more d s s1 found Hinv Hadm Hit) as [_ W2];
       destruct found
     | ]).
  - inversion H; subst. split; [exact W2 | now apply (bfs_final_costs s1 d')].
  - discriminate.
  - inversion H; subst. split; [exact Hadm | now apply (bfs_final_costs s d)].
  - inversion H; subst. split; [exact W2 | now apply (bfs_final_costs s1 d')].
  - now apply (IH s1 d').
  - inversion H; subst. split; [exact Hadm | now apply (bfs_final_costs s d)].
Qed.

Lemma start_costs_admissible (t : game_table) :
  start_costs t -> admissible t.
Proof.
  intros [H0 Hinf] c Hc. destruct (ptr_eqb c (0, 0)) eqn:E.
  - apply ptr_eqb_eq in E. subst c. rewrite H0. reflexivity.
  - apply ptr_eqb_neq in E. now apply Hinf in E.
Qed.

Lemma explored_start_costs (mode : Z) (gas : nat) (tn tm : Z)
    (inp : list response) (found : bool) (st : state) :
  (tn, tm) <> (0, 0) ->
  backtracking_dfs gas (0, 0) (mk_state (init_game_table tn tm) [] false inp [])
    mode = Ok (found, st) ->
  start_costs (table st).
Proof.
  intros Hne Hd.
  pose proof (init_game_table_start_costs tn tm Hne) as [H0 Hinf]. split.
  - rewrite (backtracking_dfs_costs _ _ _ _ _ _ Hd). exact H0.
  - intros x Hx. rewrite (backtracking_dfs_costs _ _ _ _ _ _ Hd).
    now apply Hinf.
Qed.

(** The loop of [backtracking_bfs] ends on every table that carries the
    initial costs, although a cell enters the queue once for every visit of
    one of its neighbours while it is itself unvisited: each turn lowers the
    weight of the queue, in which a cell of cost [g] counts [5 ^ (82 - g)]. *)
Theorem backtracking_bfs_terminates (t : game_table) :
  start_costs t ->
  exists fuel0, forall fuel, (fuel0 <= fuel)%nat ->
  exists t', backtracking_bfs fuel t = Ok t'.
Proof.
  intros Hstart. exists (Z.to_nat (5 ^ 82)). intros fuel Hfuel.
  destruct (bfs_loop_ends fuel (bfs_init t) 0) as (t' & H & _).
  - now apply bfs_inv_init.
  - now apply start_costs_admissible.
  - unfold bfs_init. cbn [b_table b_queue queue_weight fold_right].
    destruct Hstart as [-> _]. rewrite Z.sub_0_r, Z.add_0_r.
    apply Nat2Z.inj_le in Hfuel. rewrite Z2Nat.id in Hfuel; [exact Hfuel|].
    apply Z.pow_nonneg. lia.
  - exists t'. exact H.
Qed.

Lemma backtracking_bfs_terminates_witness :
  exists fuel0, forall fuel, (fuel0 <= fuel)%nat ->
  exists t', backtracking_bfs fuel (init_game_table 0 1) = Ok t'.
Proof.
  apply backtracking_bfs_terminates.
  apply init_game_table_start_costs. discriminate.
Defined.

(** Under an oracle whose reports lie inside the table, the exhaustive
    program always prints its exit line after its move requests: the
    exploration returns within a recursion depth of 81 and the cost
    assignment ends. *)
Theorem exhaustive_run_always_exits (gas : nat) (mode tm tn : Z)
    (inp : list response) :
  (81 <= gas)%nat ->
  in_borders tn tm = true -> (tn, tm) <> (0, 0) ->
  well_formed inp ->
  exists fuel0, forall fuel, (fuel0 <= fuel)%nat ->
  exists moves cost,
    main gas fuel mode tm tn inp = Ok (moves ++ [Exit cost]).
Proof.
  intros Hgas Hb Hne Hwf. unfold main, launch_backtracking. rewrite Hb.
  pose proof (backtracking_dfs_result mode gas
                (mk_state (init_game_table tn tm) [] false inp []) (0, 0))
    as Hres.
  destruct (backtracking_dfs gas (0, 0)
              (mk_state (init_game_table tn tm) [] false inp []) mode)
    as [[found st] | e] eqn:Hd.
  - cbn [bind]. destruct found; simpl negb; cbv iota.
    + exists (Z.to_nat (5 ^ 82)). intros fuel Hfuel.
      pose proof (explored_start_costs mode gas tn tm inp true st Hne Hd)
        as Hstart.
      destruct (bfs_loop_ends fuel (bfs_init (table st)) 0) as (t' & H & _).
      * now apply bfs_inv_init.
      * now apply start_costs_admissible.
      * unfold bfs_init. cbn [b_table b_queue queue_weight fold_right].
        destruct Hstart as [-> _]. rewrite Z.sub_0_r, Z.add_0_r.
        apply Nat2Z.inj_le in Hfuel.
        rewrite Z2Nat.id in Hfuel; [exact Hfuel|].
        apply Z.pow_nonneg. lia.
      * unfold backtracking_bfs. rewrite H. cbn [bind]. simpl output. eauto.
    + exists 0%nat. intros fuel _. cbn [bind]. eauto.
  - exfalso. destruct Hres as [_ Hn].
    + reflexivity.
    + simpl. tauto.
    + intros x [].
    + constructor.
    + simpl. lia.
    + apply Hn. exact Hwf.
Qed.

Lemma exhaustive_run_always_exits_witness :
  exists fuel0, forall fuel, (fuel0 <= fuel)%nat ->
  exists moves cost,
    main 81 fuel 0 8 8 AStarAux.walled_corner = Ok (moves ++ [Exit cost]).
Proof.
  apply exhaustive_run_always_exits.
  - apply Nat.le_refl.
  - reflexivity.
  - discriminate.
  - repeat constructor.
Defined.

Lemma bt_main_Ok_sound (gas fuel : nat) (mode tm tn : Z)
    (inp : list response) (out : list line) :
  main gas fuel mode tm tn inp = Ok out ->
  exists rest cost,
    out = map AStarAux.request ((0, 0) :: rest) ++ [Exit cost]
    /\ strides (0, 0) rest
    /\ last rest (0, 0) = (0, 0)
    /\ ((tn, tm) <> (0, 0) ->
        cost = -1
        \/ manhattan_distance 0 0 tn tm <= cost <= 82
        \/ cost = INF).
Proof.
  intros H. apply bt_main_final_line in H as (found & st & Hl & ->).
  unfold launch_backtracking in Hl.
  apply bind_Ok in Hl as [[hs st0] [Hd Hl]].
  destruct (backtracking_dfs_round_trip mode gas _ (0, 0) _ _ eq_refl Hd)
    as (rest & R1 & R2 & R3).
  simpl output in R1.
  assert (Hout : output st = map AStarAux.request ((0, 0) :: rest)).
  { destruct hs; simpl negb in Hl; cbv iota in Hl.
    - apply bind_Ok in Hl as [t1 [_ Hl]]. inversion Hl; subst. exact R1.
    - inversion Hl; subst. exact R1. }
  exists rest. eexists. split; [now rewrite Hout|].
  split; [exact R2|]. split; [exact R3|].
  intros Hne. destruct hs; simpl negb in Hl; cbv iota in Hl.
  - apply bind_Ok in Hl as [t1 [Hbfs Hl]]. inversion Hl; subst. simpl table.
    pose proof (explored_start_costs mode gas tn tm inp true st0 Hne Hd)
      as Hstart.
    destruct (bfs_loop_final fuel (bfs_init (table st0)) 0 t1) as [Hadm Hup].
    + now apply bfs_inv_init.
    + now apply start_costs_admissible.
    + exact Hbfs.
    + right.
      destruct (Z.eq_dec (from_player_cost (t1 (tn, tm))) INF) as [E | E];
        [now right | left].
      split; [exact (Hadm (tn, tm) E) | exact (Hup (tn, tm) E)].
  - inversion Hl; subst. now left.
Qed.

(** The move requests of the exhaustive program are a round trip on the
    grid: the first request is for the start cell, every later request is
    for one of the four neighbours of the cell requested before it and lies
    inside the table, and the last request is for the start cell again; the
    exit line comes last. *)
Theorem exploration_is_a_round_trip (gas fuel : nat) (mode tm tn : Z)
    (inp : list response) (out : list line) :
  main gas fuel mode tm tn inp = Ok out ->
  exists rest cost,
    out = map AStarAux.request ((0, 0) :: rest) ++ [Exit cost]
    /\ strides (0, 0) rest
    /\ last rest (0, 0) = (0, 0).
Proof.
  intros H.
  destruct (bt_main_Ok_sound gas fuel mode tm tn inp out H)
    as (rest & cost & H1 & H2 & H3 & _).
  eauto.
Qed.

Lemma exploration_is_a_round_trip_witness :
  exists rest cost,
    [MoveReq 0 0; MoveReq 1 0; MoveReq 0 0; Exit 1]
    = map AStarAux.request ((0, 0) :: rest) ++ [Exit cost]
    /\ strides (0, 0) rest
    /\ last rest (0, 0) = (0, 0).
Proof.
  apply (exploration_is_a_round_trip 3 0 0 1 0
           [ [AStarAux.hazard 0 1];
             [AStarAux.hazard 1 1; AStarAux.hazard 2 0] ]).
  vm_compute. reflexivity.
Defined.

(** For a stone that is not on the start cell, the cost in the exit line of
    the exhaustive program is -1, or lies between the Manhattan distance of
    the target from the start cell and 82, or is 32767 (the cost assignment
    ended without reaching the target cell). *)
Theorem assigned_cost_is_bounded (gas fuel : nat) (mode tm tn : Z)
    (inp : list response) (out : list line) :
  (tn, tm) <> (0, 0) ->
  main gas fuel mode tm tn inp = Ok out ->
  exists moves cost,
    out = moves ++ [Exit cost]
    /\ (cost = -1
        \/ manhattan_distance 0 0 tn tm <= cost <= 82
        \/ cost = INF).
Proof.
  intros Hne H.
  destruct (bt_main_Ok_sound gas fuel mode tm tn inp out H)
    as (rest & cost & H1 & _ & _ & H4).
  eauto.
Qed.

Lemma assigned_cost_is_bounded_witness :
  exists moves cost,
    [MoveReq 0 0; MoveReq 1 0; MoveReq 0 0; Exit 1] = moves ++ [Exit cost]
    /\ (cost = -1
        \/ manhattan_distance 0 0 0 1 <= cost <= 82
        \/ cost = INF).
Proof.
  apply (assigned_cost_is_bounded 3 0 0 1 0
           [ [AStarAux.hazard 0 1];
             [AStarAux.hazard 1 1; AStarAux.hazard 2 0] ]).
  - discriminate.
  - vm_compute. reflexivity.
Defined.
(** *** What the exhaustive program reads of a status *)

Lemma bt_apply_events_alike (evs1 evs2 : response) :
  Forall2 alike evs1 evs2 ->
  forall t1 t2, same_tables t1 t2 ->
  AStarAux.res_rel same_tables (apply_events t1 evs1) (apply_events t2 evs2).
Proof.
  induction 1 as [| e1 e2 evs1 evs2 (Hm & Hn & Hd & Hi) _ IH];
    intros t1 t2 Ht.
  - exact Ht.
  - cbn [apply_events]. unfold apply_event. rewrite <- Hm, <- Hn.
    destruct (in_borders (ev_n e1) (ev_m e1)); cbn [bind]; [|reflexivity].
    apply IH. intros p. unfold update.
    destruct (ptr_eqb p (ev_n e1, ev_m e1)); [|apply Ht].
    destruct (Ht (ev_n e1, ev_m e1)) as (Hg & _).
    unfold bt_same_view, dangerous_status. simpl. auto.
Qed.

Lemma alike_inputs_read (i1 i2 : list response) :
  alike_inputs i1 i2 ->
  Forall2 alike (fst (read_response i1)) (fst (read_response i2))
  /\ alike_inputs (snd (read_response i1)) (snd (read_response i2)).
Proof.
  intros [| r1 r2 j1 j2 Hr Hj]; simpl; split; auto; constructor.
Qed.

Lemma bt_move_then_update_alike (s1 s2 : state) (pos : cell_ptr) (mode : Z) :
  same_states s1 s2 ->
  AStarAux.res_rel
    (fun r1 r2 => fst r1 = fst r2 /\ same_states (snd r1) (snd r2))
    (move_then_update s1 pos mode) (move_then_update s2 pos mode).
Proof.
  intros (Ht & Hv & Ho & Hi). unfold move_then_update.
  destruct (alike_inputs_read _ _ Hi) as [Hev Hrest].
  destruct (read_response (input s1)) as [evs1 rest1].
  destruct (read_response (input s2)) as [evs2 rest2].
  simpl in Hev, Hrest.
  pose proof (bt_apply_events_alike evs1 evs2 Hev _ _ Ht) as He.
  destruct (apply_events (table s1) evs1) as [t1 | e1];
    destruct (apply_events (table s2) evs2) as [t2 | e2];
    simpl in He; try contradiction; cbn [bind]; [|exact He].
  simpl. split.
  - apply (He pos).
  - repeat split; simpl; try assumption; try apply He; congruence.
Qed.

Lemma valid_neighbour_alike (t1 t2 : game_table) (vis : restricted_cells)
    (c : cell_ptr) :
  same_tables t1 t2 -> valid_neighbour t1 vis c = valid_neighbour t2 vis c.
Proof.
  intros Ht. unfold valid_neighbour. destruct (Ht c) as (_ & -> & _).
  reflexivity.
Qed.

Lemma stupid_move_alike (s1 s2 : state) (pos : cell_ptr) :
  same_states s1 s2 -> same_states (stupid_move s1 pos) (stupid_move s2 pos).
Proof.
  intros (Ht & Hv & Ho & Hi). unfold stupid_move.
  repeat split; simpl; try assumption; try apply Ht.
  - now rewrite Ho.
  - apply (alike_inputs_read _ _ Hi).
Qed.

Lemma backtracking_dfs_alike (mode : Z) (fuel : nat) :
  forall (cur : cell_ptr) (s1 s2 : state),
  same_states s1 s2 ->
  AStarAux.res_rel
    (fun r1 r2 => fst r1 = fst r2 /\ same_states (snd r1) (snd r2))
    (backtracking_dfs fuel cur s1 mode) (backtracking_dfs fuel cur s2 mode).
Proof.
  induction fuel as [| f IH]; intros cur s1 s2 Hs; [reflexivity|].
  cbn [backtracking_dfs].
  pose proof (bt_move_then_update_alike s1 s2 cur mode Hs) as Hm.
  destruct (move_then_update s1 cur mode) as [[h1 a1] | e1];
    destruct (move_then_update s2 cur mode) as [[h2 a2] | e2];
    simpl in Hm; try contradiction; cbn [bind]; [|exact Hm].
  destruct Hm as [Hh Ha]. subst h2.
  assert (Hfold : forall l acc1 acc2,
            AStarAux.res_rel
              (fun r1 r2 => fst r1 = fst r2 /\ same_states (snd r1) (snd r2))
              acc1 acc2 ->
            AStarAux.res_rel
              (fun r1 r2 => fst r1 = fst r2 /\ same_states (snd r1) (snd r2))
              (fold_left (explore_child
                            (fun c s => backtracking_dfs f c s mode) cur)
                         l acc1)
              (fold_left (explore_child
                            (fun c s => backtracking_dfs f c s mode) cur)
                         l acc2)).
  { induction l as [| c l IHl]; intros acc1 acc2 Hacc; [exact Hacc|].
    cbn [fold_left]. apply IHl. unfold explore_child.
    destruct acc1 as [[b1 x1] | y1]; destruct acc2 as [[b2 x2] | y2];
      simpl in Hacc; try contradiction; cbn [bind]; [|exact Hacc].
    destruct Hacc as [Hb Hx]. subst b2.
    rewrite (valid_neighbour_alike (table x1) (table x2)) by apply Hx.
    destruct Hx as (Ht & Hv & Hrest). rewrite <- Hv.
    destruct (valid_neighbour (table x2) (visited x1) c).
    - assert (Hx : same_states x1 x2) by (split; [exact Ht | split; auto]).
      pose proof (IH c x1 x2 Hx) as Hd.
      destruct (backtracking_dfs f c x1 mode) as [[r1 z1] | w1];
        destruct (backtracking_dfs f c x2 mode) as [[r2 z2] | w2];
        simpl in Hd; try contradiction; cbn [bind]; [|exact Hd].
      destruct Hd as [Hr Hz]. subst r2. simpl.
      split; [reflexivity | now apply stupid_move_alike].
    - simpl. split; [reflexivity|]. split; [exact Ht | split; auto]. }
  pose proof (Hfold (next_positions cur) (Ok (false, a1)) (Ok (false, a2))
                (conj eq_refl Ha)) as Hf.
  destruct (fold_left _ (next_positions cur) (Ok (false, a1)))
    as [[c1 z1] | w1];
    destruct (fold_left _ (next_positions cur) (Ok (false, a2)))
      as [[c2 z2] | w2];
    simpl in Hf; try contradiction; cbn [bind]; [|exact Hf].
  destruct Hf as [Hc Hz]. subst c2. simpl. split; [reflexivity | exact Hz].
Qed.

Lemma bfs_visit_alike (cur c : cell_ptr) (s1 s2 : bfs_state) :
  same_bfs_states s1 s2 ->
  same_bfs_states (fst (bfs_visit cur s1 c)) (fst (bfs_visit cur s2 c))
  /\ snd (bfs_visit cur s1 c) = snd (bfs_visit cur s2 c).
Proof.
  intros (Ht & Hq & Hv). unfold bfs_visit.
  rewrite (valid_neighbour_alike _ _ _ _ Ht), <- Hv.
  destruct (valid_neighbour (b_table s2) (b_visited s1) c); simpl.
  - destruct (Ht cur) as (Hg & _). destruct (Ht c) as (_ & Hd & Hi).
    rewrite !bt_update_same. simpl. split; [|exact Hi].
    split; [|split; simpl; congruence].
    simpl. intros p. unfold update. destruct (ptr_eqb p c); [|apply Ht].
    unfold bt_same_view, dangerous_status in *. simpl.
    rewrite Hg. auto.
  - split; [|reflexivity]. split; [exact Ht | split; assumption].
Qed.

Lemma bfs_any_of_alike (cur : cell_ptr) (next : list cell_ptr) :
  forall s1 s2,
  same_bfs_states s1 s2 ->
  same_bfs_states (fst (bfs_any_of cur s1 next)) (fst (bfs_any_of cur s2 next))
  /\ snd (bfs_any_of cur s1 next) = snd (bfs_any_of cur s2 next).
Proof.
  induction next as [| c next IH]; intros s1 s2 Hs.
  - simpl. auto.
  - cbn [bfs_any_of]. destruct (bfs_visit_alike cur c s1 s2 Hs) as [H1 H2].
    destruct (bfs_visit cur s1 c) as [a1 b1].
    destruct (bfs_visit cur s2 c) as [a2 b2].
    simpl in H1, H2. subst b2. destruct b1; [simpl; auto | now apply IH].
Qed.

Lemma bfs_loop_alike (fuel : nat) :
  forall s1 s2,
  same_bfs_states s1 s2 ->
  AStarAux.res_rel same_tables (bfs_loop fuel s1) (bfs_loop fuel s2).
Proof.
  induction fuel as [| fuel IH]; intros s1 s2 Hs;
    pose proof Hs as (Ht & Hq & Hv);
    cbn [bfs_loop]; unfold bfs_iteration; rewrite <- Hq;
    (destruct (b_queue s1) as [| cur q]; [exact Ht|]);
    (destruct (bfs_any_of_alike cur (next_positions cur)
                 (mk_bfs (b_table s1) q (set_insert (b_visited s1) cur))
                 (mk_bfs (b_table s2) q (set_insert (b_visited s2) cur)))
       as [H1 H2];
     [split; [exact Ht | split; simpl; congruence]|]);
    destruct (bfs_any_of cur (mk_bfs (b_table s1) q _) _) as [a1 b1];
    destruct (bfs_any_of cur (mk_bfs (b_table s2) q _) _) as [a2 b2];
    simpl in H1, H2; subst b2; destruct b1; try apply H1.
  - reflexivity.
  - now apply IH.
Qed.

(** The exhaustive program, too, reads a reported status in two ways only:
    is it a hazard, and is it the stone marker.  Two oracles whose reports
    agree on the cells and on these two tests get the same requests and the
    same exit line, or the same failure; the shield flag is written and
    never read, so a cell reported dangerous stays barred after the shield
    has been picked up. *)
Theorem exhaustive_run_reads_hazard_or_stone (gas fuel : nat) (mode tm tn : Z)
    (i1 i2 : list response) :
  alike_inputs i1 i2 ->
  main gas fuel mode tm tn i1 = main gas fuel mode tm tn i2.
Proof.
  intros Hi. unfold main. destruct (in_borders tn tm); [|reflexivity].
  unfold launch_backtracking.
  assert (Hs : same_states (mk_state (init_game_table tn tm) [] false i1 [])
                           (mk_state (init_game_table tn tm) [] false i2 [])).
  { repeat split; simpl; auto. }
  pose proof (backtracking_dfs_alike mode gas (0, 0) _ _ Hs) as Hd.
  destruct (backtracking_dfs gas (0, 0) (mk_state _ [] false i1 []) mode)
    as [[h1 a1] | e1];
    destruct (backtracking_dfs gas (0, 0) (mk_state _ [] false i2 []) mode)
      as [[h2 a2] | e2];
    simpl in Hd; try contradiction; cbn [bind]; [|now subst].
  destruct Hd as [Hh (Ht & Hv & Ho & _)]. subst h2.
  destruct h1; simpl negb; cbv iota; cbn [bind].
  - assert (Hinit : same_bfs_states (bfs_init (table a1))
                                    (bfs_init (table a2)))
      by (split; [exact Ht | split; reflexivity]).
    pose proof (bfs_loop_alike fuel _ _ Hinit) as Hb.
    unfold backtracking_bfs.
    destruct (bfs_loop fuel (bfs_init (table a1))) as [t1 | x1];
      destruct (bfs_loop fuel (bfs_init (table a2))) as [t2 | x2];
      simpl in Hb; try contradiction; cbn [bind].
    + simpl. destruct (Hb (tn, tm)) as (-> & _). now rewrite Ho.
    + now subst.
  - now rewrite Ho.
Qed.

Lemma exhaustive_run_reads_hazard_or_stone_witness :
  main 81 0 0 3 3 AStarAux.shield_only
  = main 81 0 0 3 3 [ [AStarAux.neutral 1 0] ].
Proof.
  apply exhaustive_run_reads_hazard_or_stone.
  repeat constructor.
Defined.
(** *** Hazard-free oracles: the exploration sweeps the table *)

Lemma bt_apply_events_calm (target : cell_ptr) (evs : response) :
  Forall (AStarAux.harmless target) evs ->
  forall t, calm target t ->
  exists t', apply_events t evs = Ok t' /\ calm target t'.
Proof.
  induction 1 as [| e evs (Hr & Hd & Hi) _ IH]; intros t Ht.
  - exists t. split; [reflexivity | exact Ht].
  - cbn [apply_events]. unfold apply_event. unfold in_range in Hr.
    rewrite Hr. cbn [bind]. apply IH. intros c. unfold update.
    destruct (ptr_eqb c (ev_n e, ev_m e)) eqn:E; [|apply Ht].
    apply ptr_eqb_eq in E. subst c.
    unfold dangerous_status. simpl. auto.
Qed.

Lemma bt_hazard_free_read (target : cell_ptr) (inp : list response) :
  AStarAux.hazard_free target inp ->
  Forall (AStarAux.harmless target) (fst (read_response inp))
  /\ AStarAux.hazard_free target (snd (read_response inp)).
Proof.
  intros H. destruct H; simpl; auto. split; constructor.
Qed.

Lemma bt_move_then_update_calm (target : cell_ptr) (st : state)
    (pos : cell_ptr) (mode : Z) :
  calm target (table st) -> AStarAux.hazard_free target (input st) ->
  exists st1,
    move_then_update st pos mode = Ok (ptr_eqb pos target, st1)
    /\ calm target (table st1)
    /\ AStarAux.hazard_free target (input st1)
    /\ visited st1 = set_insert (visited st) pos.
Proof.
  intros Ht Hi. unfold move_then_update.
  destruct (bt_hazard_free_read target _ Hi) as [Hev Hrest].
  destruct (read_response (input st)) as [evs rest]. simpl in Hev, Hrest.
  destruct (bt_apply_events_calm target evs Hev _ Ht) as (t1 & He & Ht1).
  rewrite He. cbn [bind]. destruct (Ht1 pos) as [_ ->].
  eexists. split; [reflexivity|]. simpl. auto.
Qed.

Lemma stupid_move_calm (target : cell_ptr) (st : state) (pos : cell_ptr) :
  AStarAux.hazard_free target (input st) ->
  AStarAux.hazard_free target (input (stupid_move st pos)).
Proof.
  intros Hi. simpl. apply (bt_hazard_free_read target _ Hi).
Qed.

Lemma backtracking_dfs_swept (target : cell_ptr) (mode : Z) (fuel : nat) :
  forall (st : state) (cur : cell_ptr),
  calm target (table st) -> AStarAux.hazard_free target (input st) ->
  in_borders (ptr_n cur) (ptr_m cur) = true -> ~ In cur (visited st) ->
  incl (visited st) all_cells -> NoDup (visited st) ->
  (81 <= fuel + List.length (visited st))%nat ->
  exists r, backtracking_dfs fuel cur st mode = Ok r /\ swept target cur st r.
Proof.
  induction fuel as [| f IH]; intros st cur Ht Hi Hb Hnv Hincl Hnd Hfuel.
  - exfalso. apply all_cells_In in Hb.
    pose proof (unvisited_bound _ _ Hb Hnv Hincl Hnd). lia.
  - cbn [backtracking_dfs].
    destruct (bt_move_then_update_calm target st cur mode Ht Hi)
      as (st1 & Hm & Ht1 & Hi1 & Hv1).
    rewrite Hm. cbn [bind].
    assert (Hvis : visited st1 = cur :: visited st).
    { rewrite Hv1. unfold set_insert.
      apply contains_false in Hnv. now rewrite Hnv. }
    (* the loop over the neighbours *)
    assert (Hfold : forall l acc,
              (forall c, In c l -> In c (next_positions cur)) ->
              (exists b s, acc = Ok (b, s)
                 /\ calm target (table s)
                 /\ AStarAux.hazard_free target (input s)
                 /\ incl (visited st1) (visited s)
                 /\ incl (visited s) all_cells /\ NoDup (visited s)
                 /\ (forall v, In v (visited s) -> ~ In v (visited st1) ->
                       forall c, In c (next_positions v) ->
                       in_borders (ptr_n c) (ptr_m c) = true ->
                       In c (visited s))
                 /\ (forall c, In c (next_positions cur) ->
                       in_borders (ptr_n c) (ptr_m c) = true ->
                       In c l \/ In c (visited s))
                 /\ (b = true
                     <-> In target (visited s)
                         /\ ~ In target (visited st1))) ->
              exists b s,
                fold_left (explore_child
                             (fun c0 s0 => backtracking_dfs f c0 s0 mode) cur)
                          l acc = Ok (b, s)
                /\ calm target (table s)
                /\ AStarAux.hazard_free target (input s)
                /\ incl (visited st1) (visited s)
                /\ incl (visited s) all_cells /\ NoDup (visited s)
                /\ (forall v, In v (visited s) -> ~ In v (visited st1) ->
                      forall c, In c (next_positions v) ->
                      in_borders (ptr_n c) (ptr_m c) = true ->
                      In c (visited s))
                /\ (forall c, In c (next_positions cur) ->
                      in_borders (ptr_n c) (ptr_m c) = true ->
                      In c (visited s))
                /\ (b = true
                    <-> In target (visited s) /\ ~ In target (visited st1))).
    { induction l as [| c l IHl]; intros acc Hl Hacc.
      - destruct Hacc as (b & s & -> & A1 & A2 & A3 & A4 & A5 & A6 & A7 & A8).
        exists b, s. split; [reflexivity|]. split; [exact A1|].
        split; [exact A2|]. split; [exact A3|]. split; [exact A4|].
        split; [exact A5|]. split; [exact A6|]. split; [|exact A8].
        intros x Hx Hxb. destruct (A7 x Hx Hxb) as [[] | H]. exact H.
      - cbn [fold_left]. apply IHl; [intros x Hx; apply Hl; now right|].
        destruct Hacc as (b & s & -> & A1 & A2 & A3 & A4 & A5 & A6 & A7 & A8).
        unfold explore_child. cbn [bind].
        destruct (valid_neighbour (table s) (visited s) c) eqn:Hv.
        + apply valid_neighbour_true in Hv as [Hcb Hcv].
          assert (Hlen : (List.length (visited st1)
                          <= List.length (visited s))%nat).
          { apply NoDup_incl_length; [|exact A3].
            rewrite Hvis. now constructor. }
          destruct (IH s c A1 A2 Hcb Hcv A4 A5) as ([r s1] & Hd & Hsw).
          { rewrite Hvis in Hlen. simpl in Hlen. lia. }
          rewrite Hd. cbn [bind].
          destruct Hsw as (B1 & B2 & B3 & B4 & B5 & B6 & B7 & B8).
          simpl in B1, B2, B3, B4, B5, B6, B7, B8.
          exists (if negb b then r else b), (stupid_move s1 cur).
          split; [reflexivity|]. simpl visited. simpl table.
          split; [exact B1|]. split; [now apply stupid_move_calm|].
          split; [eapply incl_tran; eassumption|].
          split; [exact B5|]. split; [exact B6|]. split; [|split].
          * intros v Hv1' Hv2 x Hx Hxb.
            destruct (contains (visited s) v) eqn:E.
            -- apply contains_In in E. apply B3. now apply (A6 v E Hv2).
            -- apply contains_false in E. now apply (B7 v Hv1' E).
          * intros x Hx Hxb. destruct (A7 x Hx Hxb) as [[<- | H] | H].
            -- now right.
            -- now left.
            -- right. now apply B3.
          * destruct b; simpl negb; cbv iota.
            -- split; [intros _|reflexivity].
               destruct A8 as [A8 _]. destruct (A8 eq_refl) as [T1 T2].
               split; [now apply B3 | exact T2].
            -- rewrite B8. split.
               ++ intros [T1 T2]. split; [exact T1|].
                  intros T3. apply T2. now apply A3.
               ++ intros [T1 T2]. split; [exact T1|].
                  intros T3. destruct A8 as [_ A8].
                  specialize (A8 (conj T3 T2)). discriminate.
        + exists b, s. split; [reflexivity|]. split; [exact A1|].
          split; [exact A2|]. split; [exact A3|]. split; [exact A4|].
          split; [exact A5|]. split; [exact A6|]. split; [|exact A8].
          intros x Hx Hxb. destruct (A7 x Hx Hxb) as [[<- | H] | H]; auto.
          right. unfold valid_neighbour in Hv. rewrite Hxb in Hv.
          destruct (A1 c) as [Hdc _]. rewrite Hdc in Hv. simpl in Hv.
          apply negb_false_iff in Hv. now apply contains_In. }
    destruct (Hfold (next_positions cur) (Ok (false, st1)))
      as (b & s & Hf & A1 & A2 & A3 & A4 & A5 & A6 & A7 & A8).
    + auto.
    + exists false, st1. split; [reflexivity|].
      split; [exact Ht1|]. split; [exact Hi1|].
      split; [apply incl_refl|]. split; [|split; [|split; [|split]]].
      * rewrite Hvis. intros x [<- | Hx]; [now apply all_cells_In | auto].
      * rewrite Hvis. now constructor.
      * intros v Hv Hn. contradiction.
      * intros c Hc _. now left.
      * split; [discriminate | intros [T1 T2]; contradiction].
    + rewrite Hf. cbn [bind]. eexists. split; [reflexivity|].
      assert (Hcur : In cur (visited s)).
      { apply A3. rewrite Hvis. now left. }
      unfold swept. cbn [fst snd].
      split; [exact A1|]. split; [exact A2|]. split; [|split; [exact Hcur|]].
      * intros x Hx. apply A3. rewrite Hvis. now right.
      * split; [exact A4|]. split; [exact A5|]. split.
        -- intros v Hv Hn x Hx Hxb.
           destruct (ptr_eqb v cur) eqn:E.
           ++ apply ptr_eqb_eq in E. subst v. now apply A7.
           ++ apply ptr_eqb_neq in E. apply (A6 v Hv); auto.
              rewrite Hvis. intros [H | H]; [now apply E | contradiction].
        -- rewrite orb_true_iff, A8, Hvis. split.
           ++ intros [H | [T1 T2]].
              ** apply ptr_eqb_eq in H. subst target. auto.
              ** split; [exact T1|]. intros T3. apply T2. now right.
           ++ intros [T1 T2]. destruct (ptr_eqb cur target) eqn:E;
                [now left | right].
              apply ptr_eqb_neq in E. split; [exact T1|].
              intros [H | H]; [now apply E | contradiction].
Qed.

(** A set of cells that holds the start cell and, with each of its cells,
    the table neighbours of that cell holds the whole table. *)
Lemma saturated_is_everything (vis : restricted_cells) :
  In (0, 0) vis -> saturated [] vis ->
  forall c, in_borders (ptr_n c) (ptr_m c) = true -> In c vis.
Proof.
  intros H0 Hsat.
  assert (Hrow : forall j : nat, (j < 9)%nat -> In (0, Z.of_nat j) vis).
  { induction j as [| j IH]; intros Hj; [exact H0|].
    apply (Hsat (0, Z.of_nat j)); [apply IH; lia | auto | |].
    - unfold next_positions, ptr_n, ptr_m. simpl fst. simpl snd.
      right. right. left. f_equal. lia.
    - apply in_borders_iff. unfold ptr_n, ptr_m. simpl fst. simpl snd. lia. }
  assert (Hall : forall i j : nat, (i < 9)%nat -> (j < 9)%nat ->
            In (Z.of_nat i, Z.of_nat j) vis).
  { induction i as [| i IH]; intros j Hi Hj; [now apply Hrow|].
    apply (Hsat (Z.of_nat i, Z.of_nat j)); [apply IH; lia | auto | |].
    - unfold next_positions, ptr_n, ptr_m. simpl fst. simpl snd.
      right. right. right. left. f_equal. lia.
    - apply in_borders_iff. unfold ptr_n, ptr_m. simpl fst. simpl snd. lia. }
  intros [n m] Hb. apply in_borders_iff in Hb. unfold ptr_n, ptr_m in Hb.
  simpl in Hb. specialize (Hall (Z.to_nat n) (Z.to_nat m)).
  rewrite !Z2Nat.id in Hall by lia. apply Hall; lia.
Qed.
(** *** Hazard-free oracles: the assigned costs are the distances *)

Lemma next_positions_distance (cur c : cell_ptr) :
  In c (next_positions cur) ->
  in_borders (ptr_n cur) (ptr_m cur) = true ->
  in_borders (ptr_n c) (ptr_m c) = true ->
  manhattan_distance 0 0 (ptr_n c) (ptr_m c)
  = manhattan_distance 0 0 (ptr_n cur) (ptr_m cur) + 1
  \/ manhattan_distance 0 0 (ptr_n c) (ptr_m c)
     = manhattan_distance 0 0 (ptr_n cur) (ptr_m cur) - 1.
Proof.
  destruct cur as [n m]. unfold next_positions, ptr_n, ptr_m. simpl fst.
  simpl snd. rewrite !in_borders_iff. unfold manhattan_distance.
  intros [<- | [<- | [<- | [<- | []]]]]; simpl fst; simpl snd; lia.
Qed.

(** A table cell other than the start has a table neighbour that is one
    step nearer to the start. *)
Lemma nearer_neighbour (c : cell_ptr) :
  in_borders (ptr_n c) (ptr_m c) = true ->
  0 < manhattan_distance 0 0 (ptr_n c) (ptr_m c) ->
  exists v, In c (next_positions v)
            /\ in_borders (ptr_n v) (ptr_m v) = true
            /\ manhattan_distance 0 0 (ptr_n v) (ptr_m v)
               = manhattan_distance 0 0 (ptr_n c) (ptr_m c) - 1.
Proof.
  destruct c as [n m]. unfold ptr_n, ptr_m. simpl fst. simpl snd.
  rewrite in_borders_iff. unfold manhattan_distance. intros Hb Hd.
  destruct (Z.eq_dec n 0) as [Hn | Hn].
  - exists (n, m - 1). unfold next_positions, ptr_n, ptr_m. simpl fst.
    simpl snd. rewrite in_borders_iff. split; [|split; lia].
    right. right. left. f_equal. lia.
  - exists (n - 1, m). unfold next_positions, ptr_n, ptr_m. simpl fst.
    simpl snd. rewrite in_borders_iff. split; [|split; lia].
    right. right. right. left. f_equal. lia.
Qed.

(** Taking the front of the queue: every table cell up to the distance of
    the front has its cost. *)
Lemma dequeue_level (target : cell_ptr) (d : Z) (s : bfs_state)
    (cur : cell_ptr) (q : list cell_ptr) :
  bfs_inv d s -> exact target s -> level_reached d (b_table s) ->
  b_queue s = cur :: q ->
  level_reached (from_player_cost (b_table s cur)) (b_table s).
Proof.
  intros Hinv (E1 & E2 & E3 & E4) Hlev Hq.
  destruct (bfs_inv_dequeue d s cur q Hinv Hq) as (dc & Hinv0 & Hdc).
  rewrite Hdc.
  destruct Hinv
    as ([q1 [q2 (Hq12 & H1 & H2)]] & Hv & Hd & Hpar & Hass & Hin & Hincl & Hnd).
  assert (Hcur : dc = d \/ dc = d + 1).
  { assert (Hc : In cur (q1 ++ q2)) by (rewrite <- Hq12, Hq; now left).
    apply in_app_or in Hc as [Hc | Hc];
      [apply H1 in Hc | apply H2 in Hc]; lia. }
  destruct Hcur as [-> | ->]; [exact Hlev|].
  intros c Hcb Hcd.
  destruct (Z_le_gt_dec (manhattan_distance 0 0 (ptr_n c) (ptr_m c)) d)
    as [Hle | Hgt]; [now apply Hlev|].
  destruct (nearer_neighbour c Hcb ltac:(lia)) as (v & Hcv & Hvb & Hvd).
  assert (Hva : from_player_cost (b_table s v) <> INF)
    by (apply Hlev; [exact Hvb | lia]).
  assert (Hvc : from_player_cost (b_table s v) = d)
    by (rewrite (E2 v Hva); lia).
  apply (E3 v); [|exact Hcv | exact Hcb].
  destruct (contains (b_visited s) v) eqn:E; [now apply contains_In|].
  apply contains_false in E. exfalso.
  pose proof (Hass v Hva E) as Hvq. rewrite Hq in Hvq.
  destruct Hinv0 as ([r1 [r2 (Hr & R1 & R2)]] & _). simpl in Hr, R1, R2.
  destruct Hvq as [<- | Hvq]; [lia|].
  rewrite Hr in Hvq. apply in_app_or in Hvq as [Hvq | Hvq];
    [apply R1 in Hvq | apply R2 in Hvq]; lia.
Qed.

(** What holds while the neighbours of the dequeued cell [cur] are
    processed. *)
Lemma bfs_visit_exact (target : cell_ptr) (dc : Z) (s : bfs_state)
    (cur c : cell_ptr) :
  bfs_inv dc s ->
  In cur (b_visited s) ->
  from_player_cost (b_table s cur) = dc ->
  In c (next_positions cur) ->
  calm target (b_table s) ->
  (forall x, from_player_cost (b_table s x) <> INF ->
             from_player_cost (b_table s x)
             = manhattan_distance 0 0 (ptr_n x) (ptr_m x)) ->
  level_reached dc (b_table s) ->
  from_player_cost (b_table s target) = INF ->
  let s1 := fst (bfs_visit cur s c) in
  if snd (bfs_visit cur s c)
  then from_player_cost (b_table s1 target)
       = manhattan_distance 0 0 (ptr_n target) (ptr_m target)
  else calm target (b_table s1)
       /\ (forall x, from_player_cost (b_table s1 x) <> INF ->
                     from_player_cost (b_table s1 x)
                     = manhattan_distance 0 0 (ptr_n x) (ptr_m x))
       /\ (forall x, from_player_cost (b_table s x) <> INF ->
                     from_player_cost (b_table s1 x) <> INF)
       /\ from_player_cost (b_table s1 target) = INF
       /\ (in_borders (ptr_n c) (ptr_m c) = true ->
           from_player_cost (b_table s1 c) <> INF).
Proof.
  intros Hinv Hcur Hdc Hadj E1 E2 Hlev E4.
  pose proof (level_bound dc s Hinv) as Hlb.
  destruct Hinv
    as ([q1 [q2 (Hq & H1 & H2)]] & Hv & Hd & Hpar & Hass & Hin & Hincl & Hnd).
  assert (Hcurb : in_borders (ptr_n cur) (ptr_m cur) = true).
  { apply all_cells_In. now apply Hincl. }
  unfold bfs_visit.
  destruct (valid_neighbour (b_table s) (b_visited s) c) eqn:Hvalid.
  - apply valid_neighbour_true in Hvalid as [Hcb Hcv].
    cbn [fst snd b_table]. rewrite bt_update_same.
    cbn [cell_status set_cost]. destruct (E1 c) as [_ ->]. rewrite Hdc.
    assert (Hcurd : manhattan_distance 0 0 (ptr_n cur) (ptr_m cur) = dc).
    { rewrite <- Hdc. symmetry. apply E2. rewrite Hdc. unfold INF. lia. }
    assert (Hcd : manhattan_distance 0 0 (ptr_n c) (ptr_m c) = dc + 1).
    { destruct (next_positions_distance cur c Hadj Hcurb Hcb) as [H | H];
        [lia|]. exfalso.
      assert (Hca : from_player_cost (b_table s c) <> INF)
        by (apply Hlev; [exact Hcb | lia]).
      pose proof (E2 c Hca) as Hcc.
      pose proof (Hass c Hca Hcv) as Hcq. rewrite Hq in Hcq.
      apply in_app_or in Hcq as [Hcq | Hcq];
        [apply H1 in Hcq | apply H2 in Hcq]; lia. }
    assert (Hsame : from_player_cost
              (update (b_table s) c (set_cost (b_table s c) (dc + 1)) c)
            = dc + 1) by now rewrite bt_update_same.
    assert (Hother : forall x, x <> c ->
              update (b_table s) c (set_cost (b_table s c) (dc + 1)) x
              = b_table s x) by (intros x Hx; now rewrite bt_update_other).
    destruct (ptr_eqb c target) eqn:Et.
    + apply ptr_eqb_eq in Et. subst target. rewrite Hsame. lia.
    + apply ptr_eqb_neq in Et. split; [|split; [|split; [|split]]].
      * intros x. unfold update. destruct (ptr_eqb x c) eqn:E; [|apply E1].
        apply ptr_eqb_eq in E. subst x. unfold dangerous_status. simpl.
        apply (E1 c).
      * intros x Hx. destruct (ptr_eqb x c) eqn:E.
        -- apply ptr_eqb_eq in E. subst x. rewrite Hsame. lia.
        -- apply ptr_eqb_neq in E. rewrite Hother in * by exact E.
           now apply E2.
      * intros x Hx. destruct (ptr_eqb x c) eqn:E.
        -- apply ptr_eqb_eq in E. subst x. rewrite Hsame. unfold INF. lia.
        -- apply ptr_eqb_neq in E. now rewrite Hother.
      * rewrite Hother by congruence. exact E4.
      * intros _. cbn [from_player_cost set_cost]. unfold INF. lia.
  - cbn [fst snd]. split; [exact E1|]. split; [exact E2|].
    split; [auto|]. split; [exact E4|].
    intros Hcb. unfold valid_neighbour in Hvalid. rewrite Hcb in Hvalid.
    destruct (E1 c) as [Hdg _]. rewrite Hdg in Hvalid. simpl in Hvalid.
    apply negb_false_iff, contains_In, Hv in Hvalid. unfold INF. lia.
Qed.

Lemma bfs_any_of_exact (target : cell_ptr) (dc : Z) (cur : cell_ptr)
    (next : list cell_ptr) :
  (forall c, In c next -> In c (next_positions cur)) ->
  forall s,
  bfs_inv dc s ->
  In cur (b_visited s) ->
  from_player_cost (b_table s cur) = dc ->
  calm target (b_table s) ->
  (forall x, from_player_cost (b_table s x) <> INF ->
             from_player_cost (b_table s x)
             = manhattan_distance 0 0 (ptr_n x) (ptr_m x)) ->
  level_reached dc (b_table s) ->
  from_player_cost (b_table s target) = INF ->
  let s1 := fst (bfs_any_of cur s next) in
  if snd (bfs_any_of cur s next)
  then from_player_cost (b_table s1 target)
       = manhattan_distance 0 0 (ptr_n target) (ptr_m target)
  else calm target (b_table s1)
       /\ (forall x, from_player_cost (b_table s1 x) <> INF ->
                     from_player_cost (b_table s1 x)
                     = manhattan_distance 0 0 (ptr_n x) (ptr_m x))
       /\ (forall x, from_player_cost (b_table s x) <> INF ->
                     from_player_cost (b_table s1 x) <> INF)
       /\ from_player_cost (b_table s1 target) = INF
       /\ (forall c, In c next ->
             in_borders (ptr_n c) (ptr_m c) = true ->
             from_player_cost (b_table s1 c) <> INF).
Proof.
  induction next as [| c next IH]; intros Hadj s Hinv Hcur Hdc E1 E2 Hlev E4.
  - simpl. split; [exact E1|]. split; [exact E2|]. split; [auto|].
    split; [exact E4|]. intros c [].
  - cbn [bfs_any_of].
    pose proof (Hadj c (or_introl eq_refl)) as Hc.
    destruct (bfs_visit_inv dc s cur c Hinv Hcur Hdc Hc) as (A1 & A2 & A3 & _).
    pose proof (bfs_visit_exact target dc s cur c Hinv Hcur Hdc Hc
                  E1 E2 Hlev E4) as Hvis.
    destruct (bfs_visit cur s c) as [s1 is_stone].
    cbn [fst snd] in A1, A2, A3, Hvis.
    destruct is_stone; [exact Hvis|].
    destruct Hvis as (V1 & V2 & V3 & V4 & V5).
    assert (Hadj' : forall x, In x next -> In x (next_positions cur))
      by (intros x Hx; apply Hadj; now right).
    assert (Hcur1 : In cur (b_visited s1)) by (rewrite A2; exact Hcur).
    assert (Hlev1 : level_reached dc (b_table s1)).
    { intros x Hxb Hxd. apply V3. now apply Hlev. }
    pose proof (IH Hadj' s1 A1 Hcur1 A3 V1 V2 Hlev1 V4) as Hrest.
    destruct (bfs_any_of cur s1 next) as [s2 found].
    cbn [fst snd] in Hrest |- *. destruct found; [exact Hrest|].
    destruct Hrest as (W1 & W2 & W3 & W4 & W5).
    split; [exact W1|]. split; [exact W2|]. split; [auto|].
    split; [exact W4|].
    intros x [<- | Hx] Hxb; [apply W3; now apply V5 | now apply W5].
Qed.

Lemma bfs_any_of_visited (cur : cell_ptr) (next : list cell_ptr) :
  forall s, b_visited (fst (bfs_any_of cur s next)) = b_visited s.
Proof.
  induction next as [| c next IH]; intros s; [reflexivity|].
  cbn [bfs_any_of]. unfold bfs_visit.
  destruct (valid_neighbour (b_table s) (b_visited s) c); [|apply IH].
  destruct (_ =? _)%char; [reflexivity|]. now rewrite IH.
Qed.

(** One turn of the loop on a calm table: the stone is found and the target
    gets its distance, or the invariants go on. *)
Lemma bfs_iteration_exact (target : cell_ptr) (d : Z) (s s1 : bfs_state)
    (found : bool) :
  bfs_inv d s -> exact target s -> level_reached d (b_table s) ->
  bfs_iteration s = Some (s1, found) ->
  if found
  then from_player_cost (b_table s1 target)
       = manhattan_distance 0 0 (ptr_n target) (ptr_m target)
  else exists d', bfs_inv d' s1 /\ exact target s1
                  /\ level_reached d' (b_table s1).
Proof.
  intros Hinv Hex Hlev Hit. unfold bfs_iteration in Hit.
  destruct (b_queue s) as [| cur q] eqn:Hq; [discriminate|].
  pose proof (dequeue_level target d s cur q Hinv Hex Hlev Hq) as Hlev0.
  destruct (bfs_inv_dequeue d s cur q Hinv Hq) as (dc & Hinv0 & Hdc).
  rewrite Hdc in Hlev0.
  destruct Hex as (E1 & E2 & E3 & E4).
  set (s0 := mk_bfs (b_table s) q (set_insert (b_visited s) cur)) in *.
  assert (Heq : bfs_any_of cur s0 (next_positions cur) = (s1, found))
    by congruence.
  assert (Hcur : In cur (b_visited s0)).
  { simpl. apply set_insert_In. now left. }
  destruct (bfs_any_of_inv dc cur (next_positions cur) (fun c H => H)
              s0 Hinv0 Hcur Hdc) as [A1 _].
  pose proof (bfs_any_of_exact target dc cur (next_positions cur)
                (fun c H => H) s0 Hinv0 Hcur Hdc E1 E2 Hlev0 E4) as Hres.
  assert (Hvis : b_visited s1 = b_visited s0).
  { pose proof (bfs_any_of_visited cur (next_positions cur) s0) as H.
    now rewrite Heq in H. }
  rewrite Heq in A1, Hres. cbn [fst snd] in A1, Hres.
  destruct found; [exact Hres|].
  destruct Hres as (W1 & W2 & W3 & W4 & W5).
  exists dc. split; [exact A1|]. split.
  - split; [exact W1|]. split; [exact W2|]. split; [|exact W4].
    intros v Hv c Hc Hcb. rewrite Hvis in Hv. simpl in Hv.
    apply set_insert_In in Hv as [-> | Hv].
    + now apply W5.
    + apply W3. now apply (E3 v).
  - intros x Hxb Hxd. apply W3. now apply Hlev0.
Qed.

(** On a calm table the queue does not run empty before the target is
    reached. *)
Lemma queue_outlasts_target (target : cell_ptr) (d : Z) (s : bfs_state) :
  bfs_inv d s -> exact target s -> level_reached d (b_table s) ->
  in_borders (ptr_n target) (ptr_m target) = true ->
  bfs_iteration s <> None.
Proof.
  intros Hinv (E1 & E2 & E3 & E4) Hlev Htb Hnone.
  unfold bfs_iteration in Hnone.
  destruct (b_queue s) as [| cur q] eqn:Hq; [|discriminate].
  destruct Hinv
    as ([q1 [q2 (Hq12 & H1 & H2)]] & Hv & Hd & Hpar & Hass & Hin & Hincl & Hnd).
  assert (Hvisited : forall c, from_player_cost (b_table s c) <> INF ->
                               In c (b_visited s)).
  { intros c Hc. destruct (contains (b_visited s) c) eqn:E;
      [now apply contains_In|].
    apply contains_false in E. pose proof (Hass c Hc E) as H.
    rewrite Hq in H. destruct H. }
  assert (Hall : In target (b_visited s)).
  { apply saturated_is_everything; [| |exact Htb].
    - apply Hvisited. apply Hlev; [reflexivity|].
      unfold manhattan_distance, ptr_n, ptr_m. simpl. lia.
    - intros v Hvv _ c Hc Hcb. apply Hvisited. now apply (E3 v). }
  apply Hv in Hall. rewrite E4 in Hall.
  pose proof (visited_bound _ Hincl Hnd). unfold INF in Hall. lia.
Qed.

Lemma bfs_loop_exact (target : cell_ptr) (fuel : nat) :
  forall (s : bfs_state) (d : Z) (t' : game_table),
  bfs_inv d s -> exact target s -> level_reached d (b_table s) ->
  in_borders (ptr_n target) (ptr_m target) = true ->
  bfs_loop fuel s = Ok t' ->
  from_player_cost (t' target)
  = manhattan_distance 0 0 (ptr_n target) (ptr_m target).
Proof.
  induction fuel as [| fuel IH]; intros s d t' Hinv Hex Hlev Htb H;
    cbn [bfs_loop] in H;
    pose proof (queue_outlasts_target target d s Hinv Hex Hlev Htb) as Hne;
    (destruct (bfs_iteration s) as [[s1 found] |] eqn:Hit; [|congruence]);
    pose proof (bfs_iteration_exact target d s s1 found Hinv Hex Hlev Hit)
      as Hstep;
    destruct found; try discriminate.
  - inversion H; subst. exact Hstep.
  - inversion H; subst. exact Hstep.
  - destruct Hstep as (d' & Hinv1 & Hex1 & Hlev1).
    now apply (IH s1 d' t').
Qed.

Lemma bfs_init_exact (target : cell_ptr) (t : game_table) :
  start_costs t -> calm target t -> target <> (0, 0) ->
  exact target (bfs_init t) /\ level_reached 0 (b_table (bfs_init t)).
Proof.
  intros [H0 Hinf] Hcalm Hne. simpl.
  assert (Hassigned : forall c, from_player_cost (t c) <> INF -> c = (0, 0)).
  { intros c Hc. destruct (ptr_eqb c (0, 0)) eqn:E.
    - now apply ptr_eqb_eq.
    - apply ptr_eqb_neq in E. now apply Hinf in E. }
  split.
  - split; [exact Hcalm|]. split; [|split].
    + intros c Hc. simpl in *. rewrite (Hassigned c Hc), H0. reflexivity.
    + intros v [].
    + simpl. now apply Hinf.
  - intros [n m] Hb Hd. apply in_borders_iff in Hb.
    unfold manhattan_distance, ptr_n, ptr_m in *. simpl in Hb, Hd.
    assert (n = 0 /\ m = 0) as [-> ->] by lia.
    rewrite H0. unfold INF. lia.
Qed.
(** *** Hazard-free oracles: the whole run *)

Lemma init_game_table_calm (tn tm : Z) :
  (tn, tm) <> (0, 0) -> calm (tn, tm) (init_game_table tn tm).
Proof.
  intros Hne c. unfold init_game_table, update, dangerous_status.
  destruct (ptr_eqb c (tn, tm)) eqn:E; [simpl; auto|].
  destruct (ptr_eqb c (0, 0)); simpl; auto.
Qed.

Lemma NoDup_map_inj {A B : Type} (f : A -> B) (l : list A) :
  (forall a b, f a = f b -> a = b) -> NoDup l -> NoDup (map f l).
Proof.
  intros Hinj. induction 1 as [| x l Hx _ IH]; simpl; constructor; auto.
  intros H. apply in_map_iff in H as (y & Hy & Hin).
  apply Hinj in Hy. now subst.
Qed.

Lemma NoDup_flat_map_disjoint {A B : Type} (f : A -> list B) (l : list A) :
  NoDup l -> (forall a, NoDup (f a)) ->
  (forall a b x, In x (f a) -> In x (f b) -> a = b) ->
  NoDup (flat_map f l).
Proof.
  intros Hl Hf Hdis. induction Hl as [| r rows Hr _ IH]; [constructor|].
  cbn [flat_map]. apply NoDup_app; [apply Hf | exact IH|].
  intros x Hx Hy. apply in_flat_map in Hy as (r' & Hr' & Hy).
  rewrite (Hdis r r' x Hx Hy) in Hr. contradiction.
Qed.

Lemma all_cells_NoDup : NoDup all_cells.
Proof.
  unfold all_cells. apply NoDup_flat_map_disjoint.
  - apply seq_NoDup.
  - intros n. apply NoDup_map_inj; [|apply seq_NoDup].
    intros a b H. inversion H. lia.
  - intros a b x Ha Hb.
    apply in_map_iff in Ha as (m & <- & _).
    apply in_map_iff in Hb as (m' & Heq & _). inversion Heq. lia.
Qed.

(** Under a hazard-free oracle (every report inside the table, never a
    hazard, the stone marker on the target and nowhere else) and for a
    target other than the start cell, the exhaustive program visits every
    cell of the table, which takes 161 move requests, and then prints the
    Manhattan distance of the target from the start cell. *)
Theorem exhaustive_run_reports_distance (gas : nat) (mode tm tn : Z)
    (inp : list response) :
  (81 <= gas)%nat ->
  in_borders tn tm = true -> (tn, tm) <> (0, 0) ->
  AStarAux.hazard_free (tn, tm) inp ->
  exists fuel0, forall fuel, (fuel0 <= fuel)%nat ->
  exists moves,
    main gas fuel mode tm tn inp
    = Ok (moves ++ [Exit (manhattan_distance 0 0 tn tm)])
    /\ List.length moves = 161%nat.
Proof.
  intros Hgas Hb Hne Hfree. exists (Z.to_nat (5 ^ 82)). intros fuel Hfuel.
  unfold main, launch_backtracking. rewrite Hb.
  set (st0 := mk_state (init_game_table tn tm) [] false inp []).
  destruct (backtracking_dfs_swept (tn, tm) mode gas st0 (0, 0))
    as ([found st] & Hd & Hsw).
  { now apply init_game_table_calm. }
  { exact Hfree. }
  { reflexivity. }
  { simpl. tauto. }
  { intros x []. }
  { constructor. }
  { simpl. lia. }
  destruct Hsw as (S1 & S2 & S3 & S4 & S5 & S6 & S7 & S8).
  cbn [fst snd] in S1, S2, S3, S4, S5, S6, S7, S8.
  assert (Hall : forall c, in_borders (ptr_n c) (ptr_m c) = true ->
                           In c (visited st)).
  { apply saturated_is_everything; assumption. }
  assert (Hfound : found = true).
  { apply S8. split; [now apply Hall | simpl; tauto]. }
  subst found.
  pose proof (backtracking_dfs_result mode gas st0 (0, 0)) as Hres.
  rewrite Hd in Hres. destruct Hres as [(_ & _ & _ & _ & Hlen) _].
  { reflexivity. }
  { simpl. tauto. }
  { intros x []. }
  { constructor. }
  { simpl. lia. }
  simpl in Hlen.
  assert (Hvis : List.length (visited st) = 81%nat).
  { apply Nat.le_antisymm.
    - rewrite <- all_cells_length. now apply NoDup_incl_length.
    - rewrite <- all_cells_length.
      apply NoDup_incl_length; [apply all_cells_NoDup|].
      intros x Hx. apply Hall. now apply all_cells_In. }
  rewrite Hd. cbn [bind]. simpl negb. cbv iota.
  pose proof (explored_start_costs mode gas tn tm inp true st Hne Hd)
    as Hstart.
  destruct (bfs_init_exact (tn, tm) (table st) Hstart S1 Hne) as [Hex Hlev].
  destruct (bfs_loop_ends fuel (bfs_init (table st)) 0) as (t' & Hloop & _).
  { now apply bfs_inv_init. }
  { now apply start_costs_admissible. }
  { unfold bfs_init. cbn [b_table b_queue queue_weight fold_right].
    destruct Hstart as [-> _]. rewrite Z.sub_0_r, Z.add_0_r.
    apply Nat2Z.inj_le in Hfuel. rewrite Z2Nat.id in Hfuel; [exact Hfuel|].
    apply Z.pow_nonneg. lia. }
  unfold backtracking_bfs. rewrite Hloop. cbn [bind]. simpl output.
  simpl table.
  rewrite (bfs_loop_exact (tn, tm) fuel (bfs_init (table st)) 0 t'
             (bfs_inv_init _ Hstart) Hex Hlev Hb Hloop).
  exists (output st). split; [reflexivity | lia].
Qed.

Lemma exhaustive_run_reports_distance_witness :
  exists fuel0, forall fuel, (fuel0 <= fuel)%nat ->
  exists moves,
    main 81 fuel 1 3 3 AStarAux.shield_only = Ok (moves ++ [Exit 6])
    /\ List.length moves = 161%nat.
Proof.
  apply (exhaustive_run_reports_distance 81 1 3 3 AStarAux.shield_only).
  - apply Nat.le_refl.
  - reflexivity.
  - discriminate.
  - repeat constructor.
Defined.
End BacktrackingFacts.

(* ------------------------------------------------------------------ *)
(** ** Statements about both programs *)

(** C8 (as the code has it).  A step reads exactly one response, save the
    best-first [move_then_update] onto a cell carrying the stone marker,
    which returns before it reads anything.  The blind step [stupid_move] of
    either program, used for walking backward and forward, drops the response
    and leaves the table as it was.  The observing step [move_then_update]
    applies the reported statuses in order, so each cell ends with the last
    status reported for it; the response loop never writes a cost or a
    parent (in the best-first program it may also add cells to the closed
    set and fill attribution sets). *)
Theorem steps_and_responses (mode tn tm : Z) (sa : AStar.state)
    (sb : Backtracking.state) (c : cell_ptr) (evs : response)
    (rest : list response) :
  Forall in_range evs ->
  AStar.input sa = evs :: rest ->
  Backtracking.input sb = evs :: rest ->
  (AStar.input (AStar.stupid_move sa c) = rest
   /\ AStar.table (AStar.stupid_move sa c) = AStar.table sa)
  /\ (Backtracking.input (Backtracking.stupid_move sb c) = rest
      /\ Backtracking.table (Backtracking.stupid_move sb c)
         = Backtracking.table sb)
  /\ (exists found sb',
        Backtracking.move_then_update sb c mode = Ok (found, sb')
        /\ Backtracking.input sb' = rest
        /\ forall p,
             Backtracking.from_player_cost (Backtracking.table sb' p)
             = Backtracking.from_player_cost (Backtracking.table sb p)
             /\ Backtracking.cell_status (Backtracking.table sb' p)
                = last_status evs p
                    (Backtracking.cell_status (Backtracking.table sb p)))
  /\ (if (AStar.cell_status (AStar.table sa c) =? "I")%char
      then AStar.move_then_update sa c tn tm mode
           = Ok (true, AStar.emit sa (AStarAux.request c))
      else exists sa',
             AStar.move_then_update sa c tn tm mode = Ok (false, sa')
             /\ AStar.input sa' = rest
             /\ forall p,
                  AStar.cell_status (AStar.table sa' p)
                  = last_status evs p
                      (AStar.cell_status (AStar.table sa p)))
  /\ (forall cl, exists t' cl',
        AStar.apply_events mode (AStar.table sa, cl) evs = Ok (t', cl')
        /\ incl cl cl'
        /\ forall p,
             AStar.from_player_cost (t' p)
             = AStar.from_player_cost (AStar.table sa p)
             /\ AStar.to_target_cost (t' p)
                = AStar.to_target_cost (AStar.table sa p)
             /\ AStar.parent (t' p) = AStar.parent (AStar.table sa p)
             /\ AStar.cell_status (t' p)
                = last_status evs p (AStar.cell_status (AStar.table sa p))).
Proof.
  intros Hr Ha Hb.
  split; [|split; [|split; [|split]]].
  - unfold AStar.stupid_move. simpl. now rewrite Ha.
  - unfold Backtracking.stupid_move. simpl. now rewrite Hb.
  - unfold Backtracking.move_then_update. rewrite Hb. simpl read_response.
    cbv iota beta.
    destruct (BacktrackingFacts.bt_apply_events_in_range evs
                (Backtracking.table sb) Hr) as [t' Ht'].
    rewrite Ht'. cbn [bind]. do 2 eexists. split; [reflexivity|].
    split; [reflexivity|]. simpl.
    exact (BacktrackingFacts.bt_apply_events_frame evs _ _ Ht').
  - unfold AStar.move_then_update. simpl AStar.table.
    destruct (_ =? _)%char; [reflexivity|].
    simpl AStar.input. rewrite Ha. simpl read_response. cbv iota beta.
    destruct (AStarFacts.apply_events_in_range mode evs (AStar.table sa)
                (set_insert (AStar.closed sa) c) Hr) as (t' & cl' & Ht').
    simpl AStar.closed. rewrite Ht'. cbn [bind].
    destruct (AStar.open_neighbours c tn tm (t', AStar.open _))
      as [t2 o2] eqn:Eo.
    eexists. split; [reflexivity|]. split; [reflexivity|].
    intros p. simpl AStar.table.
    pose proof (AStarFacts.open_neighbours_status c tn tm
                  (t', AStar.open (AStar.emit sa
                     (MoveReq (ptr_m c) (ptr_n c)))) p) as Hs.
    rewrite Eo in Hs. simpl in Hs. rewrite Hs.
    apply (AStarFacts.apply_events_frame mode evs _ _ _ _ Ht').
  - intros cl.
    destruct (AStarFacts.apply_events_in_range mode evs (AStar.table sa)
                cl Hr) as (t' & cl' & Ht').
    exists t', cl'. split; [exact Ht'|].
    exact (AStarFacts.apply_events_frame mode evs _ _ _ _ Ht').
Qed.

Lemma steps_and_responses_witness :
  (AStar.input (AStar.stupid_move AStarAux.late_report_state (0, 1)) = []
   /\ AStar.table (AStar.stupid_move AStarAux.late_report_state (0, 1))
      = AStar.table AStarAux.late_report_state)
  /\ (Backtracking.input
        (Backtracking.stupid_move BacktrackingAux.pending_report_state (0, 1))
      = []
      /\ Backtracking.table
           (Backtracking.stupid_move BacktrackingAux.pending_report_state (0, 1))
         = Backtracking.table BacktrackingAux.pending_report_state).
Proof.
  destruct (steps_and_responses 0 0 4 AStarAux.late_report_state
              BacktrackingAux.pending_report_state (0, 1)
              [AStarAux.hazard 1 1] []) as (Ha & Hb & _).
  - repeat constructor.
  - vm_compute. reflexivity.
  - reflexivity.
  - split; assumption.
Defined.

(** C8 (as stated) fails.  In a run toward (0,4) the response to the first
    backward step reports a hazard on (1,1).  The step consumes the response,
    the status of (1,1) stays what it was, and the same turn ends with the
    agent standing on (1,1).  And in a run toward (0,1), the move onto the
    stone leaves the pending response unread. *)
Lemma blind_step_discards_report :
  AStar.input AStarAux.late_report_state = [ [AStarAux.hazard 1 1] ]
  /\ AStar.input (AStar.stupid_move AStarAux.late_report_state (0, 1)) = []
  /\ last_status [AStarAux.hazard 1 1] (1, 1)
       (AStar.cell_status (AStar.table AStarAux.late_report_state (1, 1)))
     = "P"%char
  /\ AStar.cell_status
       (AStar.table (AStar.stupid_move AStarAux.late_report_state (0, 1)) (1, 1))
     = zero
  /\ AStar.cell_status
       (AStar.table (AStar.stupid_move AStarAux.late_report_state (0, 1)) (1, 1))
     <> "P"%char
  /\ match AStar.a_star_iteration 100 AStarAux.late_report_state 0 4 0 with
     | Ok (found, st) =>
         found = false /\ AStar.cur_pos st = (1, 1)
         /\ AStar.dangerous_status (AStar.table st (1, 1)) = false
     | Err _ => False
     end
  /\ AStar.input AStarAux.before_stone_state = [ [AStarAux.hazard 5 5] ]
  /\ match AStar.a_star_iteration 100 AStarAux.before_stone_state 0 1 0 with
     | Ok (found, st) =>
         found = true
         /\ AStar.output st = [MoveReq 0 0; MoveReq 1 0]
         /\ AStar.input st = [ [AStarAux.hazard 5 5] ]
     | Err _ => False
     end.
Proof.
  split; [vm_compute; reflexivity|].
  split; [vm_compute; reflexivity|].
  split; [vm_compute; reflexivity|].
  split; [vm_compute; reflexivity|].
  split; [vm_compute; discriminate|].
  split; [vm_compute; repeat split; reflexivity|].
  split; [vm_compute; reflexivity|].
  vm_compute. repeat split; reflexivity.
Qed.

(** C7 (defect).  On the oracle [walled_corner] the best-first program
    exhausts its frontier inside the extraction loop and takes the first
    element of the empty set: it has no defined output, where the
    specification requires the line [e -1].  The exhaustive program, fed the same
    responses, prints that line. *)
Theorem exhausted_frontier_has_no_exit_line :
  AStar.main 100 100 0 8 8 AStarAux.walled_corner = Err EmptyFrontier
  /\ Backtracking.main 100 100 0 8 8 AStarAux.walled_corner
     = Ok [MoveReq 0 0; MoveReq 1 0; MoveReq 0 0; Exit (-1)]
  /\ render (Exit (-1)) = "e -1"%string.
Proof.
  split; [vm_compute; reflexivity|].
  split; vm_compute; reflexivity.
Qed.

(** C9.  Two runs of either program on the same target and the same oracle
    responses, started with different perception flags, emit the same
    requests and the same final line (or fail in the same way): the flag
    only decides whether attribution sets are filled, and nothing reads
    them. *)
Theorem perception_flag_is_not_observable (gas fuel : nat)
    (mode1 mode2 tm tn : Z) (inp : list response) :
  AStar.main gas fuel mode1 tm tn inp = AStar.main gas fuel mode2 tm tn inp
  /\ Backtracking.main gas fuel mode1 tm tn inp
     = Backtracking.main gas fuel mode2 tm tn inp.
Proof.
  split.
  - apply AStarFacts.main_flag_independent.
  - apply BacktrackingFacts.bt_main_flag_independent.
Qed.

(** C5.  In the best-first engine every turn of the main loop leaves each
    cost where it was or lowers it ([update_then_check_cell] is the only
    writer and writes strictly smaller values).  In the exhaustive engine,
    for a stone that is not on the start cell, the exploration phase writes
    no cost, and every turn of the loop of [backtracking_bfs], in any state
    that loop can reach, leaves each cost where it was or lowers it: a
    neighbour is written once from [INF], and any later write to it, made
    while it waits in the queue, repeats the same value. *)
Theorem cost_never_increases (gas fuel : nat) (tn tm mode : Z)
    (inp : list response)
    (sa sa' : AStar.state) (found_a : bool)
    (sd : Backtracking.state) (found_d : bool)
    (sb sb' : Backtracking.bfs_state) (found_b : bool) (c : cell_ptr) :
  (tn, tm) <> (0, 0) ->
  AStar.a_star_iteration gas sa tn tm mode = Ok (found_a, sa') ->
  Backtracking.backtracking_dfs fuel (0, 0)
    (Backtracking.mk_state (Backtracking.init_game_table tn tm) [] false inp [])
    mode = Ok (found_d, sd) ->
  BacktrackingAux.bfs_reach (Backtracking.table sd) sb ->
  Backtracking.bfs_iteration sb = Some (sb', found_b) ->
  AStar.from_player_cost (AStar.table sa' c)
  <= AStar.from_player_cost (AStar.table sa c)
  /\ Backtracking.from_player_cost (Backtracking.table sd c)
     = Backtracking.from_player_cost (Backtracking.init_game_table tn tm c)
  /\ Backtracking.from_player_cost (Backtracking.b_table sb' c)
     <= Backtracking.from_player_cost (Backtracking.b_table sb c).
Proof.
  intros Hne Ha Hd Hreach Hb.
  split; [|split].
  - exact (AStarFacts.a_star_iteration_cost _ _ _ _ _ _ _ c Ha).
  - exact (BacktrackingFacts.backtracking_dfs_costs _ _ _ _ _ _ Hd c).
  - assert (Hstart : BacktrackingAux.start_costs (Backtracking.table sd)).
    { pose proof (BacktrackingFacts.init_game_table_start_costs tn tm Hne)
        as [H0 Hinf].
      split.
      - rewrite (BacktrackingFacts.backtracking_dfs_costs _ _ _ _ _ _ Hd).
        exact H0.
      - intros x Hx.
        rewrite (BacktrackingFacts.backtracking_dfs_costs _ _ _ _ _ _ Hd).
        now apply Hinf. }
    destruct (BacktrackingFacts.bfs_reach_inv _ _ Hstart Hreach) as [d Hinv].
    apply (BacktrackingFacts.bfs_iteration_inv d sb sb' found_b Hinv Hb).
Qed.

Lemma cost_never_increases_witness :
  match AStar.a_star_iteration 100 (AStar.init_state 3 3 []) 3 3 0,
        Backtracking.backtracking_dfs 81 (0, 0)
          (Backtracking.mk_state (Backtracking.init_game_table 3 3)
             [] false [] []) 0
  with
  | Ok (_, sa'), Ok (_, sd) =>
      match Backtracking.bfs_iteration
              (Backtracking.bfs_init (Backtracking.table sd)) with
      | Some (sb', _) =>
          AStar.from_player_cost (AStar.table sa' (0, 1))
          <= AStar.from_player_cost
               (AStar.table (AStar.init_state 3 3 []) (0, 1))
          /\ Backtracking.from_player_cost (Backtracking.b_table sb' (0, 1))
             <= Backtracking.from_player_cost (Backtracking.table sd (0, 1))
      | None => False
      end
  | _, _ => False
  end.
Proof.
  destruct (AStar.a_star_iteration 100 (AStar.init_state 3 3 []) 3 3 0)
    as [[fa sa'] | ea] eqn:Ea.
  - destruct (Backtracking.backtracking_dfs 81 (0, 0)
                (Backtracking.mk_state (Backtracking.init_game_table 3 3)
                   [] false [] []) 0) as [[fd sd] | ed] eqn:Ed.
    + destruct (Backtracking.bfs_iteration
                  (Backtracking.bfs_init (Backtracking.table sd)))
        as [[sb' fb] |] eqn:Eb.
      * assert (Hne : (3, 3) <> (0, 0)) by discriminate.
        destruct (cost_never_increases 100 81 3 3 0 []
                    (AStar.init_state 3 3 []) sa' fa sd fd
                    (Backtracking.bfs_init (Backtracking.table sd)) sb' fb
                    (0, 1) Hne Ea Ed
                    (BacktrackingAux.bfs_reach_init (Backtracking.table sd)) Eb)
          as (H1 & _ & H3).
        split; assumption.
      * unfold Backtracking.bfs_iteration, Backtracking.bfs_init in Eb.
        simpl in Eb. discriminate.
    + assert (Hc : match Backtracking.backtracking_dfs 81 (0, 0)
                     (Backtracking.mk_state (Backtracking.init_game_table 3 3)
                        [] false [] []) 0 with
                   | Ok _ => true | Err _ => false end = true)
        by (vm_compute; reflexivity).
      rewrite Ed in Hc. discriminate.
  - assert (Hc : match AStar.a_star_iteration 100
                         (AStar.init_state 3 3 []) 3 3 0 with
                 | Ok _ => true | Err _ => false end = true)
      by (vm_compute; reflexivity).
    rewrite Ea in Hc. discriminate.
Defined.

